(** * Bottleneck TSP: three exhaustive search strategies

    Shallow embedding of the three Python programs

      - [BFSHomework.py]                      (breadth-first, [deque])
      - [Least_Cost__Uniform_cost__Search.py] (uniform cost, [heapq])
      - [A_Search.py]                         (informed, [heapq])

    Python values are modelled as follows: a city name ([str]) is a
    [string], a path (list of [str]) is a [list string], integers are [Z]
    (Python integers are unbounded), the distance dictionary is a
    [gmap (string * string) Z], [set(path)] is a [gset string], and an
    exception is an explicit outcome of the computation. *)

From Stdlib Require Import ZArith Lia ssreflect.
From stdpp Require Import base option list sorting gmap fin_sets strings.

Open Scope Z_scope.
Set Warnings "-rewrite-rw,-deprecated,-clear-no-such-hyp".

(** ** Exceptions and outcomes *)

Inductive exn : Type :=
| KeyError      (* [d[k]] on a missing key *)
| IndexError.   (* [l[i]] out of range *)

(** The result of running a piece of Python code: it produced a value, it
    raised, or the model ran out of loop iterations. *)
Inductive outcome (A : Type) : Type :=
| Done (a : A)
| Raise (e : exn)
| OutOfFuel.
Arguments Done {A} a.
Arguments Raise {A} e.
Arguments OutOfFuel {A}.

Definition is_Done {A : Type} (o : outcome A) : bool :=
  match o with
  | Done _ => true
  | _ => false
  end.

#[global] Instance outcome_ret : MRet outcome := λ A a, Done a.
#[global] Instance outcome_bind : MBind outcome := λ A B k m,
  match m with
  | Done a => k a
  | Raise e => Raise e
  | OutOfFuel => OutOfFuel
  end.

(** [l[i]] for a non-negative index [i]. *)
Definition list_get {A} (l : list A) (i : nat) : outcome A :=
  match l !! i with
  | Some x => Done x
  | None => Raise IndexError
  end.

(** [d[(a, b)]]. *)
Definition dict_get (d : gmap (string * string) Z) (a b : string) : outcome Z :=
  match d !! (a, b) with
  | Some w => Done w
  | None => Raise KeyError
  end.

(** [sys.maxsize] on a 64-bit CPython. *)
Definition maxsize : Z := 2 ^ 63 - 1.

(** [len(set(path))] *)
Definition len_set (path : list string) : nat :=
  size (list_to_set path : gset string).

(** [x in path] *)
Definition inb (x : string) (path : list string) : bool :=
  bool_decide (x ∈ path).

(** ** Building the distance dictionary

    The three files contain the same function (named
    [load_city_distances] in two of them and [_load_city_distances] in the
    uniform-cost one):
<<
    distances = {}
    for i, origin in enumerate(cities):
        for j, destination in enumerate(cities):
            distances[(origin, destination)] = distance_matrix[i][j]
    return distances
>> *)

Fixpoint load_row (distance_matrix : list (list Z)) (i : nat) (origin : string)
    (dests : list string) (j : nat) (distances : gmap (string * string) Z)
    : outcome (gmap (string * string) Z) :=
  match dests with
  | [] => Done distances
  | destination :: dests' =>
      row ← list_get distance_matrix i;
      w ← list_get row j;
      load_row distance_matrix i origin dests' (S j)
        (<[(origin, destination) := w]> distances)
  end.

Fixpoint load_rows (city_names : list string) (distance_matrix : list (list Z))
    (origins : list string) (i : nat) (distances : gmap (string * string) Z)
    : outcome (gmap (string * string) Z) :=
  match origins with
  | [] => Done distances
  | origin :: origins' =>
      distances' ← load_row distance_matrix i origin city_names 0%nat distances;
      load_rows city_names distance_matrix origins' (S i) distances'
  end.

Definition load_city_distances (city_names : list string)
    (distance_matrix : list (list Z)) : outcome (gmap (string * string) Z) :=
  load_rows city_names distance_matrix city_names 0%nat ∅.


(** ** Helpers shared by the three searches *)

(** [path[-1]] and [path[0]] *)
Definition py_last (path : list string) : outcome string :=
  match last path with
  | Some c => Done c
  | None => Raise IndexError
  end.

Definition py_head (path : list string) : outcome string :=
  list_get path 0.

(** A [for x in l: ...] loop whose body updates a frontier and may raise. *)
Fixpoint for_each {A S : Type} (f : A → S → outcome S) (l : list A) (s : S)
    : outcome S :=
  match l with
  | [] => Done s
  | x :: l' => s' ← f x s; for_each f l' s'
  end.

(** Number of loop iterations granted to a search over [n] cities: the
    size of the complete [n]-ary tree of depth [n], plus the final test of
    the empty frontier. *)
Fixpoint tree_size (n d : nat) : nat :=
  match d with
  | O => 1
  | S d' => S (n * tree_size n d')
  end.

Definition fuel_for (cities : list string) : nat :=
  S (tree_size (length cities) (length cities)).

(** Python's order on lists of strings (lexicographic, a proper prefix is
    smaller; two strings compare by their character codes, which is what
    [String.compare] does).  The tuples pushed on the heaps are ordered
    component by component. *)
Fixpoint path_compare (p q : list string) : comparison :=
  match p, q with
  | [], [] => Eq
  | [], _ :: _ => Lt
  | _ :: _, [] => Gt
  | a :: p', b :: q' =>
      match String.compare a b with
      | Eq => path_compare p' q'
      | c => c
      end
  end.

(** [heapq]: the heap is modelled by the list of its entries; [heappush]
    adds an entry and [heappop] removes and returns a smallest one.  The
    tuple orders used below are total and two entries that compare equal
    are equal values, so the value popped does not depend on the layout of
    the binary heap. *)
Definition heappush {E : Type} (heap : list E) (e : E) : list E := e :: heap.

Fixpoint heappop {E : Type} (ltb : E → E → bool) (heap : list E)
    : option (E * list E) :=
  match heap with
  | [] => None
  | x :: heap' =>
      match heappop ltb heap' with
      | None => Some (x, [])
      | Some (m, rest) => if ltb m x then Some (m, x :: rest) else Some (x, heap')
      end
  end.

(** ** The search loop

    The three programs share the shape of their main loop:
<<
    best_path = None
    min_max_jump = sys.maxsize
    while frontier:
        entry = pop(frontier)
        ...                      # one iteration
    return best_path, min_max_jump
>>
    The frontier is called [queue] in the breadth-first program, [frontier]
    in the uniform-cost one and [open_set] in the informed one. *)

Record state (E : Type) : Type := State {
  frontier : list E;
  best_path : option (list string);
  min_max_jump : Z
}.
Arguments State {E} _ _ _.
Arguments frontier {E} _.
Arguments best_path {E} _.
Arguments min_max_jump {E} _.

Section search_loop.
Context {E : Type}.
(** removal of the next entry: [popleft] or [heappop] *)
Variable pop : list E → option (E * list E).
(** the loop body, given the popped entry and the rest of the frontier *)
Variable iteration : E → list E → option (list string) → Z → outcome (state E).

(** One turn of the loop; a state with an empty frontier is final. *)
Definition step (st : state E) : outcome (state E) :=
  match pop (frontier st) with
  | None => Done st
  | Some (e, rest) => iteration e rest (best_path st) (min_max_jump st)
  end.

Fixpoint while (fuel : nat) (st : state E) : outcome (option (list string) * Z) :=
  match fuel with
  | O => OutOfFuel
  | S fuel' =>
      match pop (frontier st) with
      | None => Done (best_path st, min_max_jump st)
      | Some (e, rest) =>
          st' ← iteration e rest (best_path st) (min_max_jump st);
          while fuel' st'
      end
  end.

(** The state after [k] turns of the loop. *)
Fixpoint run (k : nat) (st : state E) : outcome (state E) :=
  match k with
  | O => Done st
  | S k' => st' ← step st; run k' st'
  end.

(** The entries popped during the first [k] turns, in order. *)
Fixpoint pops (k : nat) (st : state E) : list E :=
  match k with
  | O => []
  | S k' =>
      match pop (frontier st) with
      | None => []
      | Some (e, rest) =>
          e :: match iteration e rest (best_path st) (min_max_jump st) with
               | Done st' => pops k' st'
               | _ => []
               end
      end
  end.
End search_loop.

(** [deque.popleft] *)
Definition popleft {E : Type} (queue : list E) : option (E * list E) :=
  match queue with
  | [] => None
  | e :: rest => Some (e, rest)
  end.

(** ** Breadth-first search ([BFSHomework.py]) *)

Module BFS.

(** A queue entry [(current_city, path, max_jump)]. *)
Definition entry : Type := string * list string * Z.

Definition path_of (e : entry) : list string := e.1.2.
Definition jump_of (e : entry) : Z := e.2.

Section bfs.
Variable cities : list string.
Variable distances : gmap (string * string) Z.

(** [len(path) == len(cities) + 1 and path[-1] == path[0]]; the second
    test is evaluated on a non-empty path only. *)
Definition complete (path : list string) : bool :=
  bool_decide (length path = S (length cities))
  && bool_decide (last path = head path).

(** [next_city not in path or
     (next_city == path[0] and len(set(path)) == len(cities))];
    [path[0]] is evaluated only when [next_city] is in [path]. *)
Definition allowed (path : list string) (next_city : string) : bool :=
  negb (inb next_city path)
  || (bool_decide (head path = Some next_city)
      && bool_decide (len_set path = length cities)).

(** The body of [for next_city in cities]. *)
Definition explore (current_city : string) (path : list string) (max_jump : Z)
    (next_city : string) (queue : list entry) : outcome (list entry) :=
  if allowed path next_city then
    let new_path := path ++ [next_city] in
    new_jump ← dict_get distances current_city next_city;
    let new_max_jump := Z.max max_jump new_jump in
    p0 ← py_head path;
    if negb (bool_decide (next_city = p0)
             && bool_decide (len_set path < length cities)%nat)
    then Done (queue ++ [(next_city, new_path, new_max_jump)])
    else Done queue
  else Done queue.

(** One iteration of [while queue], after [queue.popleft()]. *)
Definition iteration (e : entry) (queue : list entry)
    (best_path : option (list string)) (min_max_jump : Z)
    : outcome (state entry) :=
  let '(current_city, path, max_jump) := e in
  if complete path then
    if bool_decide (max_jump < min_max_jump)
    then Done (State queue (Some path) max_jump)
    else Done (State queue best_path min_max_jump)
  else
    queue' ← for_each (explore current_city path max_jump) cities queue;
    Done (State queue' best_path min_max_jump).

Definition init (c0 : string) : state entry :=
  State [(c0, [c0], 0)] None maxsize.

Definition bfs_tsp : outcome (option (list string) * Z) :=
  c0 ← list_get cities 0;
  while popleft iteration (fuel_for cities) (init c0).
End bfs.

End BFS.

(** ** Uniform-cost search ([Least_Cost__Uniform_cost__Search.py]) *)

Module UCS.

(** A heap entry [(max_jump, path)]. *)
Definition entry : Type := Z * list string.

Definition path_of (e : entry) : list string := e.2.
Definition jump_of (e : entry) : Z := e.1.

(** Tuple order of the heap entries. *)
Definition entry_ltb (a b : entry) : bool :=
  match a.1 ?= b.1 with
  | Lt => true
  | Gt => false
  | Eq => match path_compare a.2 b.2 with Lt => true | _ => false end
  end.

Definition _load_city_distances := load_city_distances.

Section ucs.
Variable cities : list string.
Variable distances : gmap (string * string) Z.

(** [next_city not in path or
     (next_city == self.cities[0] and len(set(path)) == len(self.cities))];
    [next_city] ranges over [self.cities], so [self.cities[0]] exists. *)
Definition allowed (path : list string) (next_city : string) : bool :=
  negb (inb next_city path)
  || (bool_decide (head cities = Some next_city)
      && bool_decide (len_set path = length cities)).

(** The body of [for next_city in self.cities]. *)
Definition explore (current_city : string) (path : list string) (max_jump : Z)
    (next_city : string) (frontier : list entry) : outcome (list entry) :=
  if allowed path next_city then
    let new_path := path ++ [next_city] in
    new_jump ← dict_get distances current_city next_city;
    let new_max_jump := Z.max max_jump new_jump in
    if negb (bool_decide (head cities = Some next_city)
             && bool_decide (len_set path < length cities)%nat)
    then Done (heappush frontier (new_max_jump, new_path))
    else Done frontier
  else Done frontier.

Definition expand (current_city : string) (path : list string) (max_jump : Z)
    (frontier : list entry) (best_path : option (list string))
    (min_max_jump : Z) : outcome (state entry) :=
  frontier' ← for_each (explore current_city path max_jump) cities frontier;
  Done (State frontier' best_path min_max_jump).

(** [path[:-1]] *)
Definition but_last (path : list string) : list string :=
  take (length path - 1) path.

(** [len(path) > 1 and path[-1] == self.cities[0]]; [current_city] is
    [path[-1]]. *)
Definition back_at_start (path : list string) (current_city : string)
    : outcome bool :=
  if bool_decide (1 < length path)%nat then
    c0 ← list_get cities 0;
    Done (bool_decide (current_city = c0))
  else Done false.

(** One iteration of [while frontier], after [heappop(frontier)]. *)
Definition iteration (e : entry) (frontier : list entry)
    (best_path : option (list string)) (min_max_jump : Z)
    : outcome (state entry) :=
  let '(max_jump, path) := e in
  current_city ← py_last path;
  back ← back_at_start path current_city;
  if (back : bool) then
    if bool_decide (len_set (but_last path) = length cities) then
      if bool_decide (max_jump < min_max_jump)
      then Done (State frontier (Some path) max_jump)
      else Done (State frontier best_path min_max_jump)
    else expand current_city path max_jump frontier best_path min_max_jump
  else expand current_city path max_jump frontier best_path min_max_jump.

(** The two nested tests that guard the comparison with the best tour. *)
Definition complete (path : list string) : bool :=
  bool_decide (1 < length path)%nat
  && bool_decide (last path = head cities)
  && bool_decide (len_set (but_last path) = length cities).

Definition init (c0 : string) : state entry :=
  State (heappush [] (0, [c0])) None maxsize.

Definition solve : outcome (option (list string) * Z) :=
  c0 ← list_get cities 0;
  while (heappop entry_ltb) iteration (fuel_for cities) (init c0).
End ucs.

End UCS.

(** ** Informed search ([A_Search.py]) *)

Module AStar.

(** A heap entry [(cost, path, max_jump)]. *)
Definition entry : Type := Z * list string * Z.

Definition cost_of (e : entry) : Z := e.1.1.
Definition path_of (e : entry) : list string := e.1.2.
Definition jump_of (e : entry) : Z := e.2.

Definition entry_ltb (a b : entry) : bool :=
  match a.1.1 ?= b.1.1 with
  | Lt => true
  | Gt => false
  | Eq =>
      match path_compare a.1.2 b.1.2 with
      | Lt => true
      | Gt => false
      | Eq => bool_decide (a.2 < b.2)
      end
  end.

(** [min(l, default=0)] *)
Definition min_default0 (l : list Z) : Z :=
  match l with
  | [] => 0
  | x :: l' => foldl Z.min x l'
  end.

Section astar.
Variable cities : list string.
Variable distances : gmap (string * string) Z.

(** [min([self.distances[(current_city, city)]
          for city in remaining_cities if city != current_city], default=0)] *)
Definition heuristic (remaining_cities : list string) (current_city : string)
    : outcome Z :=
  ds ← for_each (λ (city : string) (acc : list Z),
                   w ← dict_get distances current_city city;
                   Done (acc ++ [w]))
        (filter (λ city : string, city ≠ current_city) remaining_cities) [];
  Done (min_default0 ds).

Definition complete (path : list string) : bool :=
  bool_decide (length path = S (length cities))
  && bool_decide (last path = head path).

(** [city not in path or
     (city == path[0] and len(set(path)) == len(self.cities))] *)
Definition allowed (path : list string) (city : string) : bool :=
  negb (inb city path)
  || (bool_decide (head path = Some city)
      && bool_decide (len_set path = length cities)).

(** The body of [for next_city in remaining_cities]. *)
Definition explore (cost : Z) (current_city : string) (path : list string)
    (max_jump : Z) (remaining_cities : list string)
    (next_city : string) (open_set : list entry) : outcome (list entry) :=
  let new_path := path ++ [next_city] in
  new_jump ← dict_get distances current_city next_city;
  let new_max_jump := Z.max max_jump new_jump in
  h ← heuristic remaining_cities next_city;
  let estimated_cost := cost + new_jump + h in
  Done (heappush open_set (estimated_cost, new_path, new_max_jump)).

(** One iteration of [while open_set], after [heapq.heappop(open_set)]. *)
Definition iteration (e : entry) (open_set : list entry)
    (best_path : option (list string)) (min_max_jump : Z)
    : outcome (state entry) :=
  let '(cost, path, max_jump) := e in
  current_city ← py_last path;
  if complete path then
    if bool_decide (max_jump < min_max_jump)
    then Done (State open_set (Some path) max_jump)
    else Done (State open_set best_path min_max_jump)
  else
    let remaining_cities := filter (λ city : string, allowed path city = true) cities in
    open_set' ← for_each (explore cost current_city path max_jump remaining_cities)
                  remaining_cities open_set;
    Done (State open_set' best_path min_max_jump).

Definition init (c0 : string) : state entry :=
  State (heappush [] (0, [c0], 0)) None maxsize.

Definition solve : outcome (option (list string) * Z) :=
  c0 ← list_get cities 0;
  while (heappop entry_ltb) iteration (fuel_for cities) (init c0).
End astar.

End AStar.

(** ** Tours and bottlenecks, as the specification words them *)

Section tours.
Variable cities : list string.
Variable distances : gmap (string * string) Z.

(** The weights of the consecutive pairs of a sequence; [None] when a
    pair is missing from the table. *)
Fixpoint edge_weights (path : list string) : option (list Z) :=
  match path with
  | [] => Some []
  | a :: rest =>
      match rest with
      | [] => Some []
      | b :: _ =>
          w ← distances !! (a, b);
          ws ← edge_weights rest;
          Some (w :: ws)
      end
  end.

(** [max(l, default=0)] *)
Definition max_default0 (l : list Z) : Z :=
  match l with
  | [] => 0
  | x :: l' => foldl Z.max x l'
  end.

(** The bottleneck of a sequence: the maximum edge weight among its
    consecutive pairs, 0 for a singleton. *)
Definition bottleneck (path : list string) : option Z :=
  max_default0 <$> edge_weights path.

(** The sum of the edge weights along a sequence. *)
Definition path_cost (path : list string) : option Z :=
  foldr Z.add 0 <$> edge_weights path.

(** The running maximum that the three programs thread through their
    entries: it starts from 0 and takes [max] with each edge. *)
Definition running_max (path : list string) : option Z :=
  foldl Z.max 0 <$> edge_weights path.

(** The goal test: [len(sequence) == len(locations) + 1], the last entry
    equals the first, and the first [len(locations)] entries are the
    location set, once each. *)
Definition is_goal (sequence : list string) : bool :=
  bool_decide (length sequence = S (length cities))
  && bool_decide (last sequence = head sequence)
  && bool_decide (NoDup (take (length cities) sequence))
  && bool_decide (take (length cities) sequence ⊆ cities)
  && bool_decide (cities ⊆ take (length cities) sequence).

(** A complete Hamiltonian cycle that starts and ends at [locations[0]]. *)
Definition hamiltonian_cycle (t : list string) : Prop :=
  is_goal t = true ∧ head t = head cities.

(** Every ordered pair of locations has an entry. *)
Definition total_table : Prop :=
  ∀ a b, a ∈ cities → b ∈ cities → is_Some (distances !! (a, b)).

(** No entry is negative. *)
Definition nonneg_table : Prop :=
  map_Forall (λ _ w, 0 ≤ w) distances.

(** *** Search nodes

    A node is what the three kinds of entries have in common: the path
    and the bottleneck carried with it. *)
Definition node : Type := list string * Z.

(** A path under construction: distinct locations, starting at
    [locations[0]]. *)
Definition open_path (path : list string) : Prop :=
  path ≠ [] ∧ NoDup path ∧ path ⊆ cities ∧ head path = head cities.

(** A path closed by the return to the start. *)
Definition closed_path (path : list string) : Prop :=
  ∃ p c0, path = p ++ [c0] ∧ open_path p ∧ head p = Some c0
          ∧ length p = length cities.

Definition good_node (nd : node) : Prop :=
  (open_path nd.1 ∨ closed_path nd.1) ∧ running_max nd.1 = Some nd.2.

(** The children of a node whose path ends at [l]: one per allowed
    candidate, in the order of [cities]. *)
Definition kids_of (path : list string) (l : string) (mj : Z)
    (kids : list node) : Prop :=
  Forall2 (λ c k, ∃ w, distances !! (l, c) = Some w
                       ∧ k = (path ++ [c], Z.max mj w))
          (filter (λ c, BFS.allowed cities path c = true) cities) kids.

(** The weight of a path in the termination measure. *)
Definition weight (path : list string) : nat :=
  tree_size (length cities) (S (length cities) - length path).

Definition measure (fr : list node) : nat :=
  sum_list ((λ nd : node, weight nd.1) <$> fr).

(** The invariant of the three loops: [fr] is the frontier, [bp] and [v]
    the best record, [H] the nodes popped so far. *)
Record Inv (fr : list node) (bp : option (list string)) (v : Z)
    (H : list node) : Prop := {
  inv_frontier : Forall good_node fr;
  inv_popped : Forall good_node H;
  inv_bound : v ≤ maxsize;
  inv_least : ∀ p mj, (p, mj) ∈ H → BFS.complete cities p = true → v ≤ mj;
  inv_best : match bp with
             | None => v = maxsize
             | Some p => (p, v) ∈ H ∧ BFS.complete cities p = true ∧ v < maxsize
             end;
  inv_cover : ∀ t, hamiltonian_cycle t →
                (∃ mj, (t, mj) ∈ H) ∨ (∃ nd, nd ∈ fr ∧ nd.1 `prefix_of` t)
}.
End tours.

(** ** What one iteration does to a search state

    [proj] reads the node out of an entry and [ok] is what else the entry
    must satisfy (in the breadth-first program, that the stored current
    city is the last location of the path). *)

Section iteration_spec.
Context {E : Type}.
Variable cities : list string.
Variable distances : gmap (string * string) Z.
Variable proj : E → node.
Variable ok : E → Prop.

Definition iteration_spec (e : E) (rest : list E)
    (bp : option (list string)) (v : Z) (st' : state E) : Prop :=
  (BFS.complete cities (proj e).1 = true
   ∧ st' = State rest
             (if bool_decide ((proj e).2 < v) then Some (proj e).1 else bp)
             (if bool_decide ((proj e).2 < v) then (proj e).2 else v))
  ∨ (BFS.complete cities (proj e).1 = false
     ∧ ∃ l kids,
         last (proj e).1 = Some l
         ∧ kids_of cities distances (proj e).1 l (proj e).2 (proj <$> kids)
         ∧ Forall ok kids
         ∧ frontier st' ≡ₚ kids ++ rest
         ∧ best_path st' = bp
         ∧ min_max_jump st' = v).

Definition state_inv (st : state E) (H : list node) : Prop :=
  Forall ok (frontier st)
  ∧ Inv cities distances (proj <$> frontier st) (best_path st)
      (min_max_jump st) H.
End iteration_spec.

(** The node carried by an entry of each program. *)
Definition bfs_node (e : BFS.entry) : node := (BFS.path_of e, BFS.jump_of e).
Definition ucs_node (e : UCS.entry) : node := (UCS.path_of e, UCS.jump_of e).
Definition astar_node (e : AStar.entry) : node :=
  (AStar.path_of e, AStar.jump_of e).

(** In a breadth-first entry the first component is the last location of
    the path; the other two kinds of entries carry nothing else. *)
Definition bfs_ok (e : BFS.entry) : Prop := last (BFS.path_of e) = Some e.1.1.
Definition any_entry {E : Type} (e : E) : Prop := True.

(** The frontier of [init] is exhausted within [bound] turns of the loop. *)
Definition exhausts {E : Type} (pop : list E → option (E * list E))
    (iteration : E → list E → option (list string) → Z → outcome (state E))
    (init : state E) (bound : nat) : Prop :=
  ∃ k st, (k ≤ bound)%nat ∧ run pop iteration k init = Done st
          ∧ frontier st = [].

(** The record of the best tour after a comparison with a complete entry
    of path [path] and bottleneck [max_jump]: replaced only by a strictly
    smaller bottleneck. *)
Definition compared {E : Type} (rest : list E) (path : list string)
    (max_jump : Z) (bp : option (list string)) (v : Z) : state E :=
  State rest (if bool_decide (max_jump < v) then Some path else bp)
             (if bool_decide (max_jump < v) then max_jump else v).

(** ** Shapes of matrices *)

(** A square matrix of side [n]. *)
Definition square_matrix (n : nat) (matrix : list (list Z)) : Prop :=
  length matrix = n ∧ Forall (λ row, length row = n) matrix.

Definition nonneg_matrix (matrix : list (list Z)) : Prop :=
  Forall (Forall (λ w, 0 ≤ w)) matrix.

(** The matrix has an entry [matrix[i][j]] for all [i, j < n]. *)
Definition covers (n : nat) (matrix : list (list Z)) : Prop :=
  ∀ i, (i < n)%nat → ∃ row, matrix !! i = Some row ∧ (n ≤ length row)%nat.

(** ** Example inputs *)

Definition two_cities : list string := ["A"; "B"]%string.

Definition two_table : gmap (string * string) Z :=
  list_to_map [(("A", "A"), 0); (("A", "B"), 3);
               (("B", "A"), 5); (("B", "B"), 0)]%string.

Definition two_matrix : list (list Z) := [[0; 3]; [5; 0]].

(** A matrix with negative weights, and three locations listed out of
    alphabetical order with all weights equal. *)
Definition negative_matrix : list (list Z) := [[0; -1]; [-1; 0]].

Definition acb_cities : list string := ["A"; "C"; "B"]%string.
Definition ones_matrix : list (list Z) := [[0; 1; 1]; [1; 0; 1]; [1; 1; 0]].

Definition abc_cities : list string := ["A"; "B"; "C"]%string.

(** The table that [load_city_distances abc_cities ones_matrix] builds. *)
Definition ones_table : gmap (string * string) Z :=
  list_to_map [(("A", "A"), 0); (("A", "B"), 1); (("A", "C"), 1);
               (("B", "A"), 1); (("B", "B"), 0); (("B", "C"), 1);
               (("C", "A"), 1); (("C", "B"), 1); (("C", "C"), 0)]%string.

(** Weights that are not below [sys.maxsize]. *)
Definition huge_table : gmap (string * string) Z :=
  list_to_map [(("A", "A"), 0); (("A", "B"), 2 ^ 63);
               (("B", "A"), 2 ^ 63); (("B", "B"), 0)]%string.

(** ** The solver objects of the two class-based programs

    [TSPSolver.__init__] stores the list of cities and the table built
    from the matrix; [solve] reads both from [self]. *)

Module UCSSolver.
Record TSPSolver : Type := {
  cities : list string;
  distances : gmap (string * string) Z
}.

Definition __init__ (cities : list string) (distance_matrix : list (list Z))
    : outcome TSPSolver :=
  distances ← UCS._load_city_distances cities distance_matrix;
  Done {| cities := cities; distances := distances |}.

Definition solve (self : TSPSolver) : outcome (option (list string) * Z) :=
  UCS.solve (cities self) (distances self).
End UCSSolver.

Module AStarSolver.
Record TSPSolver : Type := {
  cities : list string;
  distances : gmap (string * string) Z
}.

Definition __init__ (cities : list string) (distance_matrix : list (list Z))
    : outcome TSPSolver :=
  distances ← load_city_distances cities distance_matrix;
  Done {| cities := cities; distances := distances |}.

Definition heuristic (self : TSPSolver) (remaining_cities : list string)
    (current_city : string) : outcome Z :=
  AStar.heuristic (distances self) remaining_cities current_city.

Definition solve (self : TSPSolver) : outcome (option (list string) * Z) :=
  AStar.solve (cities self) (distances self).
End AStarSolver.

(** Every weight of the table is below [bound]. *)
Definition weights_below (bound : Z) (distances : gmap (string * string) Z)
    : Prop :=
  map_Forall (λ _ w, w < bound) distances.

(** The table of [two_table] without the entries of a city paired with
    itself. *)
Definition two_table_bare : gmap (string * string) Z :=
  list_to_map [(("A", "B"), 3); (("B", "A"), 5)]%string.

(** The result for two locations whose two edges weigh [x] and [y]. *)
Definition two_result (a b : string) (x y : Z) : option (list string) * Z :=
  if bool_decide (Z.max (Z.max 0 x) y < maxsize)
  then (Some [a; b; a], Z.max (Z.max 0 x) y)
  else (None, maxsize).

(** A list that names the same city twice, with a matrix for it and the
    table built from them. *)
Definition aa_cities : list string := ["A"; "A"]%string.
Definition aa_matrix : list (list Z) := [[1; 2]; [3; 4]].
Definition aa_table : gmap (string * string) Z :=
  list_to_map [(("A", "A"), 4)]%string.

(** What a search returns with its bottleneck [v]: a tour from
    [locations[0]] whose bottleneck is [v], or nothing, with the value
    [sys.maxsize] the search starts from. *)
Definition attained (cities : list string)
    (distances : gmap (string * string) Z)
    (best_path : option (list string)) (v : Z) : Prop :=
  (best_path = None ∧ v = maxsize)
  ∨ (∃ t, best_path = Some t ∧ hamiltonian_cycle cities t
          ∧ bottleneck distances t = Some v ∧ v < maxsize).

(** * Proofs *)

(** ** Sets, paths and weights *)

Lemma len_set_NoDup (l : list string) : NoDup l → len_set l = length l.
Proof. intros Hnd. unfold len_set. by apply size_list_to_set. Qed.

Lemma NoDup_sub_length (l k : list string) :
  NoDup l → l ⊆ k → (length l ≤ length k)%nat.
Proof.
  intros Hnd Hsub. apply submseteq_length, NoDup_submseteq; [done|].
  intros x. apply Hsub.
Qed.

Lemma inb_true (x : string) (l : list string) : inb x l = true ↔ x ∈ l.
Proof. unfold inb. by rewrite bool_decide_eq_true. Qed.

Lemma inb_false (x : string) (l : list string) : inb x l = false ↔ x ∉ l.
Proof. unfold inb. by rewrite bool_decide_eq_false. Qed.

Section weights.
Variable distances : gmap (string * string) Z.

Lemma edge_weights_cons2 (a b : string) (path : list string) :
  edge_weights distances (a :: b :: path) =
    w ← distances !! (a, b);
    ws ← edge_weights distances (b :: path);
    Some (w :: ws).
Proof. reflexivity. Qed.

Lemma edge_weights_snoc (path : list string) (l c : string) :
  last path = Some l →
  edge_weights distances (path ++ [c]) =
    ws ← edge_weights distances path;
    w ← distances !! (l, c);
    Some (ws ++ [w]).
Proof.
  induction path as [|a path IH]; [done|].
  destruct path as [|b path].
  - intros [= ->]. simpl. by destruct (distances !! (l, c)).
  - intros Hl. specialize (IH Hl).
    rewrite -!app_comm_cons in IH |- *.
    rewrite !edge_weights_cons2 IH.
    generalize (edge_weights distances (b :: path)). intros o.
    destruct (distances !! (a, b)); [|done].
    destruct o; [|done]. cbn.
    by destruct (distances !! (l, c)).
Qed.

Lemma running_max_snoc (path : list string) (l c : string) (mj w : Z) :
  last path = Some l →
  running_max distances path = Some mj →
  distances !! (l, c) = Some w →
  running_max distances (path ++ [c]) = Some (Z.max mj w).
Proof.
  unfold running_max. intros Hl Hmj Hw.
  rewrite (edge_weights_snoc _ l) //.
  destruct (edge_weights distances path) as [ws|]; [|done].
  simpl in *. rewrite Hw. simpl. rewrite foldl_app. simpl. congruence.
Qed.

Lemma foldl_max_nonneg (ws : list Z) :
  Forall (λ w, 0 ≤ w) ws → foldl Z.max 0 ws = max_default0 ws.
Proof.
  destruct ws as [|w ws]; [done|]. intros Hall. simpl.
  apply Forall_cons in Hall as [Hw _]. by rewrite Z.max_r.
Qed.

Lemma edge_weights_nonneg (path : list string) (ws : list Z) :
  nonneg_table distances → edge_weights distances path = Some ws →
  Forall (λ w, 0 ≤ w) ws.
Proof.
  intros Hnn. revert ws. induction path as [|a path IH]; intros ws.
  - intros [= <-]. constructor.
  - destruct path as [|b path]; [intros [= <-]; constructor|].
    rewrite edge_weights_cons2.
    destruct (distances !! (a, b)) as [w|] eqn:Hw; [|done].
    destruct (edge_weights distances (b :: path)) as [ws'|]; [|done].
    cbn. intros [= <-]. constructor; [by eapply Hnn|by apply IH].
Qed.

Lemma running_max_bottleneck (path : list string) (v : Z) :
  nonneg_table distances →
  running_max distances path = Some v → bottleneck distances path = Some v.
Proof.
  unfold running_max, bottleneck. intros Hnn.
  destruct (edge_weights distances path) as [ws|] eqn:Hws; [|done].
  simpl. intros [= <-]. f_equal. symmetry. apply foldl_max_nonneg.
  by eapply edge_weights_nonneg.
Qed.

End weights.

(** ** Paths of the search tree *)

Section paths.
Variable cities : list string.

Lemma open_length (p : list string) :
  open_path cities p → (length p ≤ length cities)%nat.
Proof. intros (_ & Hnd & Hsub & _). by apply NoDup_sub_length. Qed.

Lemma open_not_complete (p : list string) :
  open_path cities p → BFS.complete cities p = false.
Proof.
  intros Hop. apply open_length in Hop. unfold BFS.complete.
  rewrite (bool_decide_eq_false_2 (length p = _)); [lia|done].
Qed.

Lemma closed_complete (t : list string) :
  closed_path cities t → BFS.complete cities t = true.
Proof.
  intros (p & c0 & -> & Hop & Hhd & Hlen). unfold BFS.complete.
  rewrite length_app /= Hlen last_snoc head_app Hhd.
  rewrite !andb_true_iff !bool_decide_eq_true. split; [lia|done].
Qed.

Lemma open_perm (p : list string) :
  open_path cities p → length p = length cities → p ≡ₚ cities.
Proof.
  intros (_ & Hnd & Hsub & _) Hlen.
  apply submseteq_length_Permutation; [|lia].
  apply NoDup_submseteq; [done|]. intros x. apply Hsub.
Qed.

Lemma closed_hamiltonian (t : list string) :
  closed_path cities t → hamiltonian_cycle cities t.
Proof.
  intros (p & c0 & -> & Hop & Hhd & Hlen).
  pose proof (open_perm p Hop Hlen) as Hperm.
  destruct Hop as (Hne & Hnd & Hsub & Hhc).
  split; [|by rewrite head_app Hhd -Hhc Hhd].
  unfold is_goal.
  rewrite -Hlen take_app_length length_app /= last_snoc head_app Hhd.
  rewrite !andb_true_iff !bool_decide_eq_true.
  split_and!; [lia|done..|].
  intros x Hx. by rewrite Hperm.
Qed.

Lemma hamiltonian_closed (t : list string) :
  hamiltonian_cycle cities t → closed_path cities t.
Proof.
  intros [Hg Hhd]. unfold is_goal in Hg.
  repeat (apply andb_prop in Hg as [Hg ?]).
  repeat match goal with
         | H : bool_decide _ = true |- _ => apply bool_decide_eq_true in H
         end.
  rename Hg into Hlen.
  destruct (last t) as [c0|] eqn:Hlast.
  2: { apply last_None in Hlast. subst t. done. }
  apply last_Some in Hlast as [p ->].
  rewrite length_app /= in Hlen.
  assert (length p = length cities) as Hlp by lia.
  rewrite -Hlp take_app_length in H, H0, H1.
  assert (head p = Some c0) as Hhp.
  { destruct p as [|a p]; simpl in *.
    - destruct cities; simplify_eq/=.
    - by simplify_eq/=. }
  exists p, c0. split_and!; try done.
  split_and!; try done.
  - intros ->. done.
  - rewrite -Hhd head_app Hhp //.
Qed.

Lemma hamiltonian_length (t : list string) :
  hamiltonian_cycle cities t → length t = S (length cities).
Proof.
  intros [Hg _]. unfold is_goal in Hg.
  repeat (apply andb_prop in Hg as [Hg ?]).
  by apply bool_decide_eq_true in Hg.
Qed.

Lemma open_not_goal (p : list string) :
  open_path cities p → is_goal cities p = false.
Proof.
  intros Hop. apply open_length in Hop. unfold is_goal.
  rewrite (bool_decide_eq_false_2 (length p = _)); [lia|done].
Qed.

(** An allowed candidate extends an open path to an open or closed one. *)
Lemma allowed_extends (p : list string) (c : string) :
  open_path cities p → c ∈ cities → BFS.allowed cities p c = true →
  open_path cities (p ++ [c]) ∨ closed_path cities (p ++ [c]).
Proof.
  intros Hop Hc Hal. pose proof Hop as (Hne & Hnd & Hsub & Hhd).
  unfold BFS.allowed in Hal. apply orb_prop in Hal as [Hnew|Hback].
  - left. apply negb_true_iff, inb_false in Hnew. split_and!.
    + by destruct p.
    + apply NoDup_app. split_and!; [done| |apply NoDup_singleton].
      intros x Hx ->%list_elem_of_singleton. done.
    + intros x [Hx| ->%list_elem_of_singleton]%elem_of_app; [by apply Hsub|done].
    + rewrite head_app. destruct p; [done|]. done.
  - right. apply andb_prop in Hback as [Hh Hall].
    apply bool_decide_eq_true in Hh, Hall.
    rewrite len_set_NoDup in Hall; [done|].
    by exists p, c.
Qed.

(** The next location of a tour is an allowed candidate. *)
Lemma tour_next_allowed (t p : list string) (c : string) :
  hamiltonian_cycle cities t → p ≠ [] → p ++ [c] `prefix_of` t →
  c ∈ cities ∧ BFS.allowed cities p c = true.
Proof.
  intros (q & c0 & -> & Hop & Hhd & Hlen)%hamiltonian_closed Hne [k Hk].
  pose proof Hop as (_ & Hnd & Hsub & Hhc).
  destruct k as [|x k _] using rev_ind.
  - rewrite app_nil_r in Hk. apply app_inj_tail in Hk as [-> ->].
    split.
    + apply Hsub. destruct p; [done|]. simplify_eq/=. left.
    + unfold BFS.allowed. rewrite len_set_NoDup // Hhd Hlen.
      rewrite orb_true_iff andb_true_iff !bool_decide_eq_true. by right.
  - rewrite !app_assoc in Hk. apply app_inj_tail in Hk as [-> ->].
    rewrite -app_assoc in Hnd, Hsub.
    split.
    + apply Hsub. rewrite elem_of_app /=. right. left.
    + unfold BFS.allowed.
      apply NoDup_app in Hnd as (_ & Hdisj & _).
      assert (c ∉ p) as Hnin.
      { intros Hin. apply (Hdisj c Hin). left. }
      apply inb_false in Hnin. by rewrite Hnin.
Qed.

Lemma prefix_next (p t : list string) :
  p `prefix_of` t → p ≠ t → ∃ c, p ++ [c] `prefix_of` t.
Proof.
  intros [k ->] Hne. destruct k as [|c k].
  - by rewrite app_nil_r in Hne.
  - exists c, k. by rewrite -app_assoc.
Qed.

Lemma prefix_same_length (p t : list string) :
  p `prefix_of` t → length p = length t → p = t.
Proof.
  intros [k ->]. rewrite length_app. intros Hl.
  destruct k; [by rewrite app_nil_r|simpl in Hl; lia].
Qed.
End paths.

(** ** The loop invariant and the termination measure *)

Lemma Forall2_elem_l {A B : Type} (P : A → B → Prop) (l : list A) (k : list B)
    (x : A) :
  Forall2 P l k → x ∈ l → ∃ y, y ∈ k ∧ P x y.
Proof.
  induction 1 as [|a b l k Hab _ IH]; [by intros ?%elem_of_nil|].
  intros [->|Hx]%elem_of_cons.
  - exists b. split; [left|done].
  - destruct (IH Hx) as (y & Hy & HP). exists y. split; [by right|done].
Qed.

Lemma Forall2_elem_r {A B : Type} (P : A → B → Prop) (l : list A) (k : list B)
    (y : B) :
  Forall2 P l k → y ∈ k → ∃ x, x ∈ l ∧ P x y.
Proof.
  induction 1 as [|a b l k Hab _ IH]; [by intros ?%elem_of_nil|].
  intros [->|Hy]%elem_of_cons.
  - exists a. split; [left|done].
  - destruct (IH Hy) as (x & Hx & HP). exists x. split; [by right|done].
Qed.

Lemma tree_size_pos (n d : nat) : (1 ≤ tree_size n d)%nat.
Proof. destruct d; simpl; lia. Qed.

Section invariant.
Variable cities : list string.
Variable distances : gmap (string * string) Z.

Notation Inv := (Inv cities distances).
Notation good_node := (good_node cities distances).
Notation kids_of := (kids_of cities distances).

Lemma good_open (p : list string) (mj : Z) :
  good_node (p, mj) → BFS.complete cities p = false → open_path cities p.
Proof.
  intros [[Hop|Hcl] _] Hc; simpl in *; [done|].
  apply closed_complete in Hcl. congruence.
Qed.

Lemma good_closed (p : list string) (mj : Z) :
  good_node (p, mj) → BFS.complete cities p = true → closed_path cities p.
Proof.
  intros [[Hop|Hcl] _] Hc; simpl in *; [|done].
  apply open_not_complete in Hop. congruence.
Qed.

Lemma Inv_init (c0 : string) :
  head cities = Some c0 → Inv [([c0], 0)] None maxsize [].
Proof.
  intros Hhd. split; try done.
  - constructor; [|constructor]. split; [left|done].
    split_and!; try done.
    + apply NoDup_singleton.
    + intros x ->%list_elem_of_singleton.
      destruct cities; simplify_eq/=. left.
  - intros p mj ?%elem_of_nil. done.
  - intros t (q & c & -> & Hop & Hq & Hlen)%hamiltonian_closed.
    right. exists ([c0], 0). split; [left|]. simpl.
    destruct Hop as (_ & _ & _ & Hhc). rewrite Hhc Hhd in Hq.
    destruct q as [|x q]; simplify_eq/=; [congruence|].
    assert (x = c) as -> by congruence.
    by exists (q ++ [c]).
Qed.

Lemma Inv_perm (fr fr' : list node) bp v H :
  fr ≡ₚ fr' → Inv fr bp v H → Inv fr' bp v H.
Proof.
  intros Hp [H1 H2 H3 H4 H5 H6]. split; try done.
  - by rewrite -Hp.
  - intros t Ht. destruct (H6 t Ht) as [?|(nd & Hnd & Hpre)]; [by left|].
    right. exists nd. by rewrite -Hp.
Qed.

(** A complete node leaves the frontier and is compared with the best. *)
Lemma Inv_goal (p : list string) (mj : Z) (rest : list node) bp v H :
  Inv ((p, mj) :: rest) bp v H →
  BFS.complete cities p = true →
  Inv rest (if bool_decide (mj < v) then Some p else bp)
           (if bool_decide (mj < v) then mj else v) ((p, mj) :: H).
Proof.
  intros [H1 H2 H3 H4 H5 H6] Hc.
  apply Forall_cons in H1 as [Hgood H1].
  split.
  - done.
  - by constructor.
  - case_bool_decide; lia.
  - intros p' mj' [[= -> ->]|Hin]%elem_of_cons Hc'.
    + case_bool_decide; lia.
    + specialize (H4 _ _ Hin Hc'). case_bool_decide; lia.
  - case_bool_decide.
    + split_and!; [left|done|lia].
    + destruct bp as [p0|]; [|done].
      destruct H5 as (? & ? & ?). split_and!; [by right|done..].
  - intros t Ht. destruct (H6 t Ht) as [[mj' ?]|(nd & Hnd & Hpre)].
    + left. exists mj'. by right.
    + apply elem_of_cons in Hnd as [->|Hnd].
      * left. exists mj. simpl in Hpre.
        apply prefix_same_length in Hpre as ->; [left|].
        rewrite (hamiltonian_length cities t) //.
        unfold BFS.complete in Hc. apply andb_prop in Hc as [Hc _].
        by apply bool_decide_eq_true in Hc.
      * right. by exists nd.
Qed.

Lemma kids_good (p : list string) (l : string) (mj : Z) (kids : list node) :
  open_path cities p → running_max distances p = Some mj → last p = Some l →
  kids_of p l mj kids → Forall good_node kids.
Proof.
  intros Hop Hmj Hl Hk. apply Forall_forall. intros k Hin.
  destruct (Forall2_elem_r _ _ _ _ Hk Hin) as (c & Hc & w & Hw & ->).
  apply list_elem_of_filter in Hc as [Hal Hc].
  split; simpl.
  - by apply allowed_extends.
  - by apply (running_max_snoc _ _ l).
Qed.

(** An incomplete node is replaced by its children. *)
Lemma Inv_expand (p : list string) (l : string) (mj : Z)
    (rest kids : list node) bp v H :
  Inv ((p, mj) :: rest) bp v H →
  BFS.complete cities p = false →
  last p = Some l →
  kids_of p l mj kids →
  Inv (kids ++ rest) bp v ((p, mj) :: H).
Proof.
  intros [H1 H2 H3 H4 H5 H6] Hc Hl Hk.
  apply Forall_cons in H1 as [Hgood H1].
  pose proof (good_open _ _ Hgood Hc) as Hop.
  split.
  - apply Forall_app. split; [|done].
    apply (kids_good p l mj); try done. apply Hgood.
  - by constructor.
  - done.
  - intros p' mj' [[= -> ->]|Hin]%elem_of_cons Hc'; [congruence|].
    by apply (H4 p').
  - destruct bp as [p0|]; [|done].
    destruct H5 as (? & ? & ?). split_and!; [by right|done..].
  - intros t Ht. destruct (H6 t Ht) as [[mj' ?]|(nd & Hnd & Hpre)].
    + left. exists mj'. by right.
    + right. apply elem_of_cons in Hnd as [->|Hnd]; simpl in *.
      * assert (p ≠ t) as Hne.
        { intros ->. apply hamiltonian_closed, closed_complete in Ht.
          congruence. }
        destruct (prefix_next _ _ Hpre Hne) as [c Hpc].
        destruct (tour_next_allowed cities t p c) as [Hc1 Hc2];
          [done|apply Hop|done|].
        assert (c ∈ filter (λ c, BFS.allowed cities p c = true) cities) as Hcf.
        { by apply list_elem_of_filter. }
        destruct (Forall2_elem_l _ _ _ _ Hk Hcf) as (k & Hkin & w & Hw & ->).
        eexists. split; [apply elem_of_app; left; apply Hkin|done].
      * exists nd. split; [|done]. apply elem_of_app. by right.
Qed.

Lemma measure_perm (fr fr' : list node) :
  fr ≡ₚ fr' → measure cities fr = measure cities fr'.
Proof.
  unfold measure.
  induction 1; rewrite ?fmap_cons /=; lia.
Qed.

Lemma measure_app (fr fr' : list node) :
  measure cities (fr ++ fr') = (measure cities fr + measure cities fr')%nat.
Proof.
  unfold measure. rewrite fmap_app.
  induction (_ <$> fr) as [|x xs IH]; simpl; [done|]. rewrite IH. lia.
Qed.

Lemma measure_cons (nd : node) (fr : list node) :
  measure cities (nd :: fr) = (weight cities nd.1 + measure cities fr)%nat.
Proof. done. Qed.

Lemma weight_pos (p : list string) : (1 ≤ weight cities p)%nat.
Proof. apply tree_size_pos. Qed.

Lemma measure_kids (p : list string) (l : string) (mj : Z) (kids : list node) :
  open_path cities p → kids_of p l mj kids →
  (measure cities kids < weight cities p)%nat.
Proof.
  intros Hop Hk. pose proof (open_length _ _ Hop) as Hlen.
  unfold weight.
  replace (S (length cities) - length p)%nat
    with (S (length cities - length p)) by lia.
  simpl. unfold measure.
  rewrite (sum_list_fmap_same (tree_size (length cities) (length cities - length p))).
  - apply Forall_forall. intros k Hin.
    destruct (Forall2_elem_r _ _ _ _ Hk Hin) as (c & Hc & w & Hw & ->).
    simpl. unfold weight. rewrite length_app /=. f_equal. lia.
  - apply Forall2_length in Hk. rewrite -Hk.
    pose proof (length_filter (λ c, BFS.allowed cities p c = true) cities).
    apply Nat.lt_succ_r, Nat.mul_le_mono_r. done.
Qed.
End invariant.

(** ** The loop, for any frontier discipline *)

Lemma bind_Done {A B : Type} (a : A) (k : A → outcome B) :
  (Done a ≫= k) = k a.
Proof. reflexivity. Qed.

Lemma for_each_inv {A S : Type} (f : A → S → outcome S)
    (I : list A → S → Prop) (l : list A) (s s' : S) :
  I [] s →
  (∀ seen x s1 s2, I seen s1 → f x s1 = Done s2 → I (seen ++ [x]) s2) →
  for_each f l s = Done s' → I l s'.
Proof.
  intros H0 Hstep. revert I s H0 Hstep.
  induction l as [|x l IH]; intros I s H0 Hstep; simpl.
  - by intros [= <-].
  - destruct (f x s) as [s1| |] eqn:Hf; try done. cbn. intros Hrest.
    apply (IH (λ seen, I (x :: seen)) s1); [|by intros; eapply (Hstep (x :: _))|done].
    by apply (Hstep [] x s).
Qed.

Lemma for_each_progress {A S : Type} (f : A → S → outcome S)
    (l : list A) (s : S) :
  (∀ x s1, x ∈ l → ∃ s2, f x s1 = Done s2) →
  ∃ s', for_each f l s = Done s'.
Proof.
  revert s. induction l as [|x l IH]; intros s Hf; simpl; [by eexists|].
  destruct (Hf x s) as [s1 ->]; [left|]. cbn.
  apply IH. intros y s2 Hy. apply Hf. by right.
Qed.

Section loop.
Context {E : Type}.
Variable cities : list string.
Variable distances : gmap (string * string) Z.
Variable pop : list E → option (E * list E).
Variable iteration : E → list E → option (list string) → Z → outcome (state E).
Variable proj : E → node.
Variable ok : E → Prop.

Hypothesis pop_perm : ∀ fr e rest, pop fr = Some (e, rest) → fr ≡ₚ e :: rest.
Hypothesis pop_none : ∀ fr, pop fr = None → fr = [].
Hypothesis iteration_sound : ∀ e rest bp v st',
  ok e → good_node cities distances (proj e) →
  iteration e rest bp v = Done st' →
  iteration_spec cities distances proj ok e rest bp v st'.

Notation state_inv := (state_inv cities distances proj ok).
Notation msize st := (measure cities (proj <$> frontier st)).

Lemma iteration_inv (st st' : state E) (H : list node) (e : E) (rest : list E) :
  state_inv st H →
  pop (frontier st) = Some (e, rest) →
  iteration e rest (best_path st) (min_max_jump st) = Done st' →
  state_inv st' (proj e :: H) ∧ (msize st' < msize st)%nat.
Proof.
  intros [Hok Hinv] Hpop Hit. apply pop_perm in Hpop.
  rewrite Hpop in Hok. apply Forall_cons in Hok as [Hoke Hokr].
  apply (Inv_perm _ _ _ (proj <$> e :: rest)) in Hinv; [|by rewrite Hpop].
  rewrite fmap_cons in Hinv.
  assert (good_node cities distances (proj e)) as Hgood.
  { destruct Hinv as [Hfr _ _ _ _ _]. by apply Forall_cons in Hfr as [? _]. }
  assert (msize st = measure cities (proj <$> e :: rest)) as ->.
  { apply measure_perm. by rewrite Hpop. }
  rewrite fmap_cons measure_cons.
  destruct (proj e) as [p mj] eqn:Hpe.
  apply iteration_sound in Hit; [|done|by rewrite Hpe].
  unfold iteration_spec in Hit. rewrite !Hpe in Hit. simpl in *.
  destruct Hit as [[Hc ->]|(Hc & l & kids & Hl & Hk & Hokk & Hfr & Hbp & Hv)].
  - simpl. split; [split; [done|by apply Inv_goal]|].
    pose proof (weight_pos cities p). lia.
  - split; [split|].
    + rewrite Hfr. apply Forall_app. done.
    + rewrite Hbp Hv.
      eapply Inv_perm; [|by apply (Inv_expand _ _ p l mj)].
      by rewrite Hfr fmap_app.
    + assert (msize st' = measure cities ((proj <$> kids) ++ (proj <$> rest)))
        as ->.
      { apply measure_perm. by rewrite Hfr fmap_app. }
      rewrite measure_app.
      pose proof (measure_kids cities distances p l mj (proj <$> kids)
                    (good_open _ _ _ _ Hgood Hc) Hk). lia.
Qed.

(** Every state met by the loop satisfies the invariant. *)
Lemma run_inv (k : nat) (st st' : state E) (H : list node) :
  state_inv st H → run pop iteration k st = Done st' → ∃ H', state_inv st' H'.
Proof.
  revert st H. induction k as [|k IH]; intros st H Hinv; simpl.
  - intros [= <-]. by exists H.
  - unfold step. destruct (pop (frontier st)) as [[e rest]|] eqn:Hpop.
    + destruct (iteration e rest _ _) as [st1| |] eqn:Hit; try done. cbn.
      apply (IH st1 (proj e :: H)). by eapply iteration_inv.
    + cbn. by apply (IH st H).
Qed.

(** The result of the loop satisfies the invariant for the empty
    frontier and the nodes popped on the way. *)
Lemma while_sound (fuel : nat) (st : state E) (H : list node) bp v :
  state_inv st H →
  while pop iteration fuel st = Done (bp, v) →
  Inv cities distances [] bp v
    (rev (proj <$> pops pop iteration fuel st) ++ H).
Proof.
  revert st H. induction fuel as [|fuel IH]; intros st H Hinv; [done|]. simpl.
  destruct (pop (frontier st)) as [[e rest]|] eqn:Hpop.
  - destruct (iteration e rest _ _) as [st1| |] eqn:Hit; try done. cbn.
    intros Hw. rewrite -app_assoc /=.
    apply (IH st1); [|done]. by eapply iteration_inv.
  - intros [= <- <-]. simpl. destruct Hinv as [_ Hinv].
    by rewrite (pop_none _ Hpop) in Hinv.
Qed.

Section total.
Hypothesis iteration_progress : ∀ e rest bp v,
  ok e → good_node cities distances (proj e) →
  ∃ st', iteration e rest bp v = Done st'.

Lemma iteration_defined (st : state E) (H : list node) (e : E) (rest : list E) :
  state_inv st H → pop (frontier st) = Some (e, rest) →
  ∃ st', iteration e rest (best_path st) (min_max_jump st) = Done st'.
Proof.
  intros [Hok Hinv] Hpop. apply pop_perm in Hpop.
  rewrite Hpop in Hok. apply Forall_cons in Hok as [Hoke _].
  apply iteration_progress; [done|].
  destruct Hinv as [Hfr _ _ _ _ _]. rewrite Hpop fmap_cons in Hfr.
  by apply Forall_cons in Hfr as [? _].
Qed.

(** Enough fuel: one more than the measure of the frontier. *)
Lemma while_terminates (fuel : nat) (st : state E) (H : list node) :
  state_inv st H → (msize st < fuel)%nat →
  ∃ r, while pop iteration fuel st = Done r.
Proof.
  revert st H. induction fuel as [|fuel IH]; intros st H Hinv Hlt; [lia|].
  simpl. destruct (pop (frontier st)) as [[e rest]|] eqn:Hpop; [|by eexists].
  destruct (iteration_defined st H e rest Hinv Hpop) as [st1 Hit].
  rewrite Hit. cbn.
  destruct (iteration_inv st st1 H e rest Hinv Hpop Hit) as [Hinv1 Hdec].
  apply (IH st1 (proj e :: H)); [done|lia].
Qed.

(** The frontier is exhausted within [measure] turns. *)
Lemma run_exhausts (n : nat) (st : state E) (H : list node) :
  state_inv st H → (msize st ≤ n)%nat →
  ∃ k st', (k ≤ n)%nat ∧ run pop iteration k st = Done st' ∧ frontier st' = [].
Proof.
  revert st H. induction n as [|n IH]; intros st H Hinv Hle.
  - exists 0%nat, st. split_and!; [done..|].
    destruct (pop (frontier st)) as [[e rest]|] eqn:Hpop; [|by apply pop_none].
    destruct (iteration_defined st H e rest Hinv Hpop) as [st1 Hit].
    destruct (iteration_inv st st1 H e rest Hinv Hpop Hit) as [_ Hdec]. lia.
  - destruct (pop (frontier st)) as [[e rest]|] eqn:Hpop.
    + destruct (iteration_defined st H e rest Hinv Hpop) as [st1 Hit].
      destruct (iteration_inv st st1 H e rest Hinv Hpop Hit) as [Hinv1 Hdec].
      destruct (IH st1 (proj e :: H)) as (k & st' & Hk & Hrun & Hfr);
        [done|lia|].
      exists (S k), st'. split_and!; [lia| |done].
      simpl. unfold step. by rewrite Hpop Hit.
    + exists 0%nat, st. split_and!; [lia|done|by apply pop_none].
Qed.

Lemma run_defined (k : nat) (st : state E) (H : list node) :
  state_inv st H → ∃ st', run pop iteration k st = Done st'.
Proof.
  revert st H. induction k as [|k IH]; intros st H Hinv; [by eexists|].
  simpl. unfold step. destruct (pop (frontier st)) as [[e rest]|] eqn:Hpop.
  - destruct (iteration_defined st H e rest Hinv Hpop) as [st1 Hit].
    rewrite Hit. cbn. apply (IH st1 (proj e :: H)). by eapply iteration_inv.
  - cbn. by apply (IH st H).
Qed.
End total.
End loop.

(** ** The two frontier disciplines *)

Lemma popleft_perm {E : Type} (fr : list E) (e : E) (rest : list E) :
  popleft fr = Some (e, rest) → fr ≡ₚ e :: rest.
Proof. destruct fr; [done|]. by intros [= -> ->]. Qed.

Lemma popleft_none {E : Type} (fr : list E) : popleft fr = None → fr = [].
Proof. by destruct fr. Qed.

Lemma heappop_perm {E : Type} (ltb : E → E → bool) (h : list E) (e : E)
    (rest : list E) :
  heappop ltb h = Some (e, rest) → h ≡ₚ e :: rest.
Proof.
  revert e rest. induction h as [|x h IH]; intros e rest; [done|]. simpl.
  destruct (heappop ltb h) as [[m r]|] eqn:Hpop.
  - specialize (IH m r eq_refl). destruct (ltb m x).
    + intros [= <- <-]. rewrite IH. apply perm_swap.
    + by intros [= <- <-].
  - intros [= <- <-]. destruct h; [done|]. simpl in Hpop.
    destruct (heappop ltb h) as [[? ?]|]; [|done]. by destruct (ltb _ _).
Qed.

Lemma heappop_none {E : Type} (ltb : E → E → bool) (h : list E) :
  heappop ltb h = None → h = [].
Proof.
  destruct h as [|x h]; [done|]. simpl.
  destruct (heappop ltb h) as [[m r]|]; [|done]. by destruct (ltb m x).
Qed.

(** ** Breadth-first search refines the node search *)

Lemma NoDup_head_last (path : list string) (c : string) :
  NoDup path → head path = Some c → last path = Some c →
  (length path ≤ 1)%nat.
Proof.
  intros Hnd Hh Hl. destruct path as [|a path]; [done|].
  destruct path as [|b path]; [done|]. exfalso.
  simpl in Hh. injection Hh as ->.
  apply NoDup_cons in Hnd as [Hnin _]. apply Hnin.
  change (last (c :: b :: path)) with (last (b :: path)) in Hl.
  apply last_Some in Hl as [l' ->]. apply elem_of_app. right. left.
Qed.

Lemma open_last_in (cities path : list string) (l : string) :
  open_path cities path → last path = Some l → l ∈ cities.
Proof.
  intros (_ & _ & Hsub & _) [l' ->]%last_Some. apply Hsub.
  apply elem_of_app. right. left.
Qed.

Lemma open_head (cities path : list string) :
  open_path cities path → ∃ c0, head path = Some c0 ∧ head cities = Some c0
                               ∧ c0 ∈ path.
Proof.
  intros (Hne & _ & _ & Hhd). destruct path as [|c0 path]; [done|].
  exists c0. split_and!; [done|by rewrite -Hhd|left].
Qed.

Section bfs_refines.
Variable cities : list string.
Variable distances : gmap (string * string) Z.

Lemma bfs_explore_sound (c : string) (path : list string) (mj : Z)
    (cs : list string) (q q' : list BFS.entry) :
  open_path cities path → last path = Some c →
  for_each (BFS.explore cities distances c path mj) cs q = Done q' →
  ∃ kids, q' = q ++ kids
          ∧ Forall2 (λ c' k, ∃ w, distances !! (c, c') = Some w
                                  ∧ k = (path ++ [c'], Z.max mj w))
              (filter (λ c', BFS.allowed cities path c' = true) cs)
              (bfs_node <$> kids)
          ∧ Forall bfs_ok kids.
Proof.
  intros Hop Hl Hfor.
  apply (for_each_inv _
    (λ seen s, ∃ kids, s = q ++ kids
       ∧ Forall2 (λ c' k, ∃ w, distances !! (c, c') = Some w
                               ∧ k = (path ++ [c'], Z.max mj w))
           (filter (λ c', BFS.allowed cities path c' = true) seen)
           (bfs_node <$> kids)
       ∧ Forall bfs_ok kids)) in Hfor; [done| |].
  - exists []. rewrite app_nil_r. split_and!; [done|constructor|constructor].
  - clear Hfor. intros seen x s1 s2 (kids & -> & Hk & Hok) Hex.
    rewrite filter_app filter_cons filter_nil.
    unfold BFS.explore in Hex.
    destruct (BFS.allowed cities path x) eqn:Hal.
    + destruct (decide (true = true)); [|done].
      unfold dict_get in Hex.
      destruct (distances !! (c, x)) as [w|] eqn:Hw; [|done]. cbn in Hex.
      destruct (open_head _ _ Hop) as (c0 & Hh & Hhc & Hin).
      unfold py_head, list_get in Hex. rewrite -head_lookup Hh in Hex.
      cbn in Hex.
      assert (bool_decide (x = c0)
              && bool_decide (len_set path < length cities)%nat = false) as Hg.
      { unfold BFS.allowed in Hal. apply orb_prop in Hal as [Hnew|Hback].
        - apply negb_true_iff, inb_false in Hnew.
          rewrite bool_decide_eq_false_2 //. by intros ->.
        - apply andb_prop in Hback as [_ Hall].
          apply bool_decide_eq_true in Hall.
          rewrite (bool_decide_eq_false_2 (_ < _)%nat); [lia|].
          by rewrite andb_false_r. }
      rewrite Hg in Hex. simpl in Hex. injection Hex as <-.
      exists (kids ++ [(x, path ++ [x], Z.max mj w)]).
      rewrite app_assoc fmap_app. split_and!; [done| |].
      * apply Forall2_app; [done|]. constructor; [|constructor].
        exists w. done.
      * apply Forall_app. split; [done|]. constructor; [|constructor].
        unfold bfs_ok, BFS.path_of. simpl. apply last_snoc.
    + destruct (decide (false = true)); [done|].
      injection Hex as <-. exists kids. by rewrite app_nil_r.
Qed.

Lemma bfs_iteration_sound (e : BFS.entry) (rest : list BFS.entry)
    (bp : option (list string)) (v : Z) (st' : state BFS.entry) :
  bfs_ok e → good_node cities distances (bfs_node e) →
  BFS.iteration cities distances e rest bp v = Done st' →
  iteration_spec cities distances bfs_node bfs_ok e rest bp v st'.
Proof.
  destruct e as [[c path] mj]. unfold bfs_ok, bfs_node, BFS.path_of,
    BFS.jump_of, iteration_spec. simpl. intros Hl Hgood Hit.
  destruct (BFS.complete cities path) eqn:Hc.
  - left. split; [done|]. by case_bool_decide; injection Hit as <-.
  - right. split; [done|].
    destruct (for_each _ cities rest) as [q'| |] eqn:Hfor; try done.
    cbn in Hit. injection Hit as <-.
    apply bfs_explore_sound in Hfor as (kids & -> & Hk & Hok);
      [|by eapply good_open|done].
    exists c, kids. split_and!; try done. simpl. apply Permutation_app_comm.
Qed.

Lemma bfs_iteration_progress (e : BFS.entry) (rest : list BFS.entry)
    (bp : option (list string)) (v : Z) :
  total_table cities distances →
  bfs_ok e → good_node cities distances (bfs_node e) →
  ∃ st', BFS.iteration cities distances e rest bp v = Done st'.
Proof.
  destruct e as [[c path] mj]. unfold bfs_ok, bfs_node, BFS.path_of,
    BFS.jump_of. simpl. intros Htot Hl Hgood.
  destruct (BFS.complete cities path) eqn:Hc.
  - case_bool_decide; by eexists.
  - pose proof (good_open _ _ _ _ Hgood Hc) as Hop.
    destruct (for_each_progress (BFS.explore cities distances c path mj)
                cities rest) as [q' ->]; [|by eexists].
    intros x s1 Hx. unfold BFS.explore.
    destruct (BFS.allowed cities path x); [|by eexists].
    destruct (Htot c x) as [w Hw]; [by eapply open_last_in|done|].
    unfold dict_get. rewrite Hw. cbn.
    destruct (open_head _ _ Hop) as (c0 & Hh & _).
    unfold py_head, list_get. rewrite -head_lookup Hh. cbn.
    destruct (negb _); by eexists.
Qed.
End bfs_refines.

(** ** Uniform-cost search refines the node search *)

Section ucs_refines.
Variable cities : list string.
Variable distances : gmap (string * string) Z.

Lemma ucs_allowed_open (path : list string) (c : string) :
  open_path cities path →
  UCS.allowed cities path c = BFS.allowed cities path c.
Proof.
  intros (_ & _ & _ & Hhd). unfold UCS.allowed, BFS.allowed. by rewrite Hhd.
Qed.

(** On the nodes of the search, the two nested tests of the uniform-cost
    program decide the same thing as the length test of the other two. *)
Lemma ucs_complete_good (path : list string) (mj : Z) :
  good_node cities distances (path, mj) →
  UCS.complete cities path = BFS.complete cities path.
Proof.
  intros [[Hop|Hcl] _]; simpl in *.
  - rewrite (open_not_complete _ _ Hop). unfold UCS.complete.
    destruct (open_head _ _ Hop) as (c0 & Hh & Hhc & _).
    destruct Hop as (_ & Hnd & _ & _).
    destruct (bool_decide (1 < length path)%nat) eqn:Hlen; [|done].
    apply bool_decide_eq_true in Hlen.
    rewrite (bool_decide_eq_false_2 (last path = _)); [|done].
    rewrite Hhc. intros Hl.
    pose proof (NoDup_head_last path c0 Hnd Hh Hl). lia.
  - rewrite (closed_complete _ _ Hcl).
    destruct Hcl as (p & c0 & -> & Hop & Hh & Hlen).
    destruct Hop as (Hne & Hnd & _ & Hhc).
    unfold UCS.complete, UCS.but_last.
    rewrite length_app /= last_snoc -Hhc Hh.
    replace (length p + 1 - 1)%nat with (length p) by lia.
    rewrite take_app_length len_set_NoDup // Hlen.
    rewrite !andb_true_iff !bool_decide_eq_true. split_and!; [|done..].
    destruct p; [done|simpl in Hlen; lia].
Qed.

Lemma ucs_explore_sound (c : string) (path : list string) (mj : Z)
    (cs : list string) (q q' : list UCS.entry) :
  open_path cities path →
  for_each (UCS.explore cities distances c path mj) cs q = Done q' →
  ∃ kids, q' ≡ₚ kids ++ q
          ∧ Forall2 (λ c' k, ∃ w, distances !! (c, c') = Some w
                                  ∧ k = (path ++ [c'], Z.max mj w))
              (filter (λ c', BFS.allowed cities path c' = true) cs)
              (ucs_node <$> kids).
Proof.
  intros Hop Hfor.
  apply (for_each_inv _
    (λ seen s, ∃ kids, s ≡ₚ kids ++ q
       ∧ Forall2 (λ c' k, ∃ w, distances !! (c, c') = Some w
                               ∧ k = (path ++ [c'], Z.max mj w))
           (filter (λ c', BFS.allowed cities path c' = true) seen)
           (ucs_node <$> kids))) in Hfor; [done| |].
  - exists []. split; [done|constructor].
  - clear Hfor. intros seen x s1 s2 (kids & Hs1 & Hk) Hex.
    rewrite filter_app filter_cons filter_nil.
    unfold UCS.explore in Hex. rewrite ucs_allowed_open // in Hex.
    destruct (BFS.allowed cities path x) eqn:Hal.
    + destruct (decide (true = true)); [|done].
      unfold dict_get in Hex.
      destruct (distances !! (c, x)) as [w|] eqn:Hw; [|done]. cbn in Hex.
      destruct (open_head _ _ Hop) as (c0 & Hh & Hhc & Hin).
      assert (bool_decide (head cities = Some x)
              && bool_decide (len_set path < length cities)%nat = false) as Hg.
      { unfold BFS.allowed in Hal. apply orb_prop in Hal as [Hnew|Hback].
        - apply negb_true_iff, inb_false in Hnew.
          rewrite bool_decide_eq_false_2 //. rewrite Hhc. by intros [= ->].
        - apply andb_prop in Hback as [_ Hall].
          apply bool_decide_eq_true in Hall.
          rewrite (bool_decide_eq_false_2 (_ < _)%nat); [lia|].
          by rewrite andb_false_r. }
      rewrite Hg in Hex. simpl in Hex. injection Hex as <-.
      exists (kids ++ [(Z.max mj w, path ++ [x])]).
      rewrite fmap_app. split.
      * unfold heappush. rewrite Hs1 -app_assoc.
        by rewrite (Permutation_app_comm kids) -app_comm_cons
                   (Permutation_app_comm kids).
      * apply Forall2_app; [done|]. constructor; [|constructor].
        exists w. done.
    + destruct (decide (false = true)); [done|].
      injection Hex as <-. exists kids. by rewrite app_nil_r.
Qed.

Lemma ucs_iteration_complete (e : UCS.entry) (rest : list UCS.entry)
    (bp : option (list string)) (v : Z) :
  UCS.complete cities (UCS.path_of e) = true →
  UCS.iteration cities distances e rest bp v =
    Done (State rest
            (if bool_decide (UCS.jump_of e < v) then Some (UCS.path_of e) else bp)
            (if bool_decide (UCS.jump_of e < v) then UCS.jump_of e else v)).
Proof.
  destruct e as [mj path]. unfold UCS.path_of, UCS.jump_of, UCS.complete.
  simpl. rewrite !andb_true_iff !bool_decide_eq_true.
  intros [[Hlen Hl] Hall].
  destruct (last path) as [l|] eqn:Hlast.
  2: { apply last_None in Hlast. subst path. simpl in Hlen. lia. }
  unfold py_last. rewrite Hlast. cbn.
  unfold UCS.back_at_start, list_get. rewrite -head_lookup -Hl.
  rewrite (bool_decide_eq_true_2 (1 < length path)%nat) //. cbn.
  rewrite (bool_decide_eq_true_2 (l = l)) //.
  rewrite (bool_decide_eq_true_2 (len_set _ = _)) //.
  by case_bool_decide.
Qed.

Lemma ucs_iteration_incomplete (e : UCS.entry) (rest : list UCS.entry)
    (bp : option (list string)) (v : Z) (l c0 : string) :
  UCS.complete cities (UCS.path_of e) = false →
  last (UCS.path_of e) = Some l → head cities = Some c0 →
  UCS.iteration cities distances e rest bp v =
    UCS.expand cities distances l (UCS.path_of e) (UCS.jump_of e) rest bp v.
Proof.
  destruct e as [mj path]. unfold UCS.path_of, UCS.jump_of, UCS.complete.
  simpl. intros Hc Hlast Hhc.
  unfold py_last. rewrite Hlast. cbn.
  unfold UCS.back_at_start, list_get. rewrite -head_lookup Hhc.
  rewrite Hlast Hhc in Hc.
  destruct (bool_decide (1 < length path)%nat); [|done]. cbn.
  destruct (bool_decide (l = c0)) eqn:Hlc; [|done].
  apply bool_decide_eq_true in Hlc as ->.
  rewrite (bool_decide_eq_true_2 (Some c0 = Some c0)) // in Hc.
  simpl in Hc. by rewrite Hc.
Qed.

Lemma ucs_iteration_sound (e : UCS.entry) (rest : list UCS.entry)
    (bp : option (list string)) (v : Z) (st' : state UCS.entry) :
  any_entry e → good_node cities distances (ucs_node e) →
  UCS.iteration cities distances e rest bp v = Done st' →
  iteration_spec cities distances ucs_node any_entry e rest bp v st'.
Proof.
  intros _ Hgood. pose proof (ucs_complete_good _ _ Hgood) as Hcc.
  unfold iteration_spec. change (ucs_node e).1 with (UCS.path_of e) in *.
  destruct (BFS.complete cities (UCS.path_of e)) eqn:Hc.
  - pose proof (ucs_iteration_complete e rest bp v Hcc) as ->.
    intros [= <-]. by left.
  - pose proof (good_open _ _ _ _ Hgood Hc) as Hop.
    destruct (open_head _ _ Hop) as (c0 & Hh & Hhc & _).
    destruct (last (UCS.path_of e)) as [l|] eqn:Hl.
    2: { apply last_None in Hl. destruct Hop as [Hne _]. done. }
    pose proof (ucs_iteration_incomplete e rest bp v l c0 Hcc Hl Hhc) as ->.
    unfold UCS.expand.
    destruct (for_each _ cities rest) as [q'| |] eqn:Hfor; try done.
    cbn. intros [= <-]. right. split; [done|].
    apply ucs_explore_sound in Hfor as (kids & Hq & Hk); [|done].
    exists l, kids. split_and!; try done.
    by apply Forall_forall.
Qed.

Lemma ucs_iteration_progress (e : UCS.entry) (rest : list UCS.entry)
    (bp : option (list string)) (v : Z) :
  total_table cities distances →
  any_entry e → good_node cities distances (ucs_node e) →
  ∃ st', UCS.iteration cities distances e rest bp v = Done st'.
Proof.
  intros Htot _ Hgood. pose proof (ucs_complete_good _ _ Hgood) as Hcc.
  destruct (BFS.complete cities (UCS.path_of e)) eqn:Hc.
  - pose proof (ucs_iteration_complete e rest bp v Hcc) as ->. by eexists.
  - pose proof (good_open _ _ _ _ Hgood Hc) as Hop.
    destruct (open_head _ _ Hop) as (c0 & Hh & Hhc & _).
    destruct (last (UCS.path_of e)) as [l|] eqn:Hl.
    2: { apply last_None in Hl. destruct Hop as [Hne _]. done. }
    pose proof (ucs_iteration_incomplete e rest bp v l c0 Hcc Hl Hhc) as ->.
    unfold UCS.expand.
    destruct (for_each_progress
                (UCS.explore cities distances l (UCS.path_of e) (UCS.jump_of e))
                cities rest) as [q' ->]; [|by eexists].
    intros x s1 Hx. unfold UCS.explore.
    destruct (UCS.allowed cities _ x); [|by eexists].
    destruct (Htot l x) as [w Hw]; [by eapply open_last_in|done|].
    unfold dict_get. rewrite Hw. cbn.
    destruct (negb _); by eexists.
Qed.
End ucs_refines.

(** ** Informed search refines the node search *)

Section astar_refines.
Variable cities : list string.
Variable distances : gmap (string * string) Z.

Lemma astar_explore_sound (cost : Z) (c : string) (path : list string)
    (mj : Z) (remaining cs : list string) (q q' : list AStar.entry) :
  for_each (AStar.explore distances cost c path mj remaining) cs q = Done q' →
  ∃ kids, q' ≡ₚ kids ++ q
          ∧ Forall2 (λ c' k, ∃ w, distances !! (c, c') = Some w
                                  ∧ k = (path ++ [c'], Z.max mj w))
              cs (astar_node <$> kids).
Proof.
  intros Hfor.
  apply (for_each_inv _
    (λ seen s, ∃ kids, s ≡ₚ kids ++ q
       ∧ Forall2 (λ c' k, ∃ w, distances !! (c, c') = Some w
                               ∧ k = (path ++ [c'], Z.max mj w))
           seen (astar_node <$> kids))) in Hfor; [done| |].
  - exists []. split; [done|constructor].
  - clear Hfor. intros seen x s1 s2 (kids & Hs1 & Hk) Hex.
    unfold AStar.explore, dict_get in Hex.
    destruct (distances !! (c, x)) as [w|] eqn:Hw; [|done]. cbn in Hex.
    destruct (AStar.heuristic distances remaining x) as [h| |]; try done.
    cbn in Hex. injection Hex as <-.
    exists (kids ++ [(cost + w + h, path ++ [x], Z.max mj w)]).
    rewrite fmap_app. split.
    + unfold heappush. rewrite Hs1 -app_assoc.
      by rewrite (Permutation_app_comm kids) -app_comm_cons
                 (Permutation_app_comm kids).
    + apply Forall2_app; [done|]. constructor; [|constructor].
      exists w. done.
Qed.

Lemma astar_iteration_sound (e : AStar.entry) (rest : list AStar.entry)
    (bp : option (list string)) (v : Z) (st' : state AStar.entry) :
  any_entry e → good_node cities distances (astar_node e) →
  AStar.iteration cities distances e rest bp v = Done st' →
  iteration_spec cities distances astar_node any_entry e rest bp v st'.
Proof.
  destruct e as [[cost path] mj]. unfold astar_node, AStar.path_of,
    AStar.jump_of, iteration_spec. simpl. intros _ Hgood Hit.
  destruct (py_last path) as [l| |] eqn:Hl; try done. cbn in Hit.
  unfold py_last in Hl. destruct (last path) as [l'|] eqn:Hlast; [|done].
  injection Hl as ->.
  change (AStar.complete cities path) with (BFS.complete cities path) in Hit.
  destruct (BFS.complete cities path) eqn:Hc.
  - left. split; [done|]. by case_bool_decide; injection Hit as <-.
  - right. split; [done|].
    destruct (for_each _ _ rest) as [q'| |] eqn:Hfor; try done.
    cbn in Hit. injection Hit as <-.
    apply astar_explore_sound in Hfor as (kids & Hq & Hk).
    exists l, kids. split_and!; try done.
    by apply Forall_forall.
Qed.

Lemma heuristic_defined (remaining : list string) (x : string) :
  total_table cities distances → x ∈ cities → remaining ⊆ cities →
  ∃ h, AStar.heuristic distances remaining x = Done h.
Proof.
  intros Htot Hx Hsub. unfold AStar.heuristic.
  destruct (for_each_progress
              (λ (city : string) (acc : list Z),
                 w ← dict_get distances x city; Done (acc ++ [w]))
              (filter (λ city : string, city ≠ x) remaining) [])
    as [ds ->]; [|by eexists].
  intros y acc [_ Hy]%list_elem_of_filter.
  destruct (Htot x y) as [w Hw]; [done|by apply Hsub|].
  unfold dict_get. rewrite Hw. by eexists.
Qed.

Lemma astar_iteration_progress (e : AStar.entry) (rest : list AStar.entry)
    (bp : option (list string)) (v : Z) :
  total_table cities distances →
  any_entry e → good_node cities distances (astar_node e) →
  ∃ st', AStar.iteration cities distances e rest bp v = Done st'.
Proof.
  destruct e as [[cost path] mj]. unfold astar_node, AStar.path_of,
    AStar.jump_of. simpl. intros Htot _ Hgood.
  change (AStar.complete cities path) with (BFS.complete cities path).
  destruct (last path) as [l|] eqn:Hlast.
  2: { apply last_None in Hlast. subst path.
       destruct Hgood as [[[? _]|(p & c & Heq & _)] _]; [done|].
       by destruct p. }
  unfold py_last. rewrite Hlast. cbn.
  destruct (BFS.complete cities path) eqn:Hc.
  - case_bool_decide; by eexists.
  - pose proof (good_open _ _ _ _ Hgood Hc) as Hop.
    set (remaining := filter _ cities).
    assert (remaining ⊆ cities) as Hsub.
    { intros x [_ Hx]%list_elem_of_filter. done. }
    destruct (for_each_progress
                (AStar.explore distances cost l path mj remaining)
                remaining rest) as [q' ->]; [|by eexists].
    intros x s1 Hx%Hsub. unfold AStar.explore.
    destruct (Htot l x) as [w Hw]; [by eapply open_last_in|done|].
    unfold dict_get. rewrite Hw. cbn.
    destruct (heuristic_defined remaining x) as [h ->]; try done.
    by eexists.
Qed.
End astar_refines.

(** ** What the invariant says once the frontier is empty *)

Section final.
Variable cities : list string.
Variable distances : gmap (string * string) Z.

Lemma Inv_final_lower bp v H (t : list string) :
  Inv cities distances [] bp v H → hamiltonian_cycle cities t →
  ∃ mj, running_max distances t = Some mj ∧ v ≤ mj.
Proof.
  intros [_ Hpop _ Hleast _ Hcov] Ht.
  destruct (Hcov t Ht) as [[mj Hin]|(nd & Hnd & _)].
  - exists mj. split.
    + rewrite Forall_forall in Hpop. by destruct (Hpop _ Hin) as [_ ?].
    + apply (Hleast t); [done|].
      by apply closed_complete, hamiltonian_closed.
  - by apply elem_of_nil in Hnd.
Qed.

Lemma Inv_final_best bp v H :
  Inv cities distances [] bp v H →
  (bp = None ∧ v = maxsize)
  ∨ (∃ p, bp = Some p ∧ hamiltonian_cycle cities p
          ∧ running_max distances p = Some v ∧ v < maxsize).
Proof.
  intros [_ Hpop _ _ Hbest _]. destruct bp as [p|]; [right|by left].
  destruct Hbest as (Hin & Hc & Hlt). exists p.
  rewrite Forall_forall in Hpop. pose proof (Hpop _ Hin) as Hgood.
  split_and!; try done; [|by destruct Hgood].
  by apply closed_hamiltonian, (good_closed _ distances _ v).
Qed.

Lemma Inv_final_unique bp v H bp' v' H' :
  Inv cities distances [] bp v H → Inv cities distances [] bp' v' H' →
  v = v'.
Proof.
  intros Hi Hi'.
  assert (∀ bp v H bp' v' H',
            Inv cities distances [] bp v H →
            Inv cities distances [] bp' v' H' → v ≤ v') as Hle.
  { clear. intros bp v H bp' v' H' Hi Hi'.
    destruct (Inv_final_best _ _ _ Hi') as [[_ ->]|(p & _ & Hp & Hv & _)].
    - by destruct Hi.
    - destruct (Inv_final_lower _ _ _ p Hi Hp) as (mj & Hmj & Hle).
      congruence. }
  apply Z.le_antisymm; by eapply Hle.
Qed.
End final.

(** ** The three programs *)

Section programs.
Variable cities : list string.
Variable distances : gmap (string * string) Z.

Lemma init_weight (c0 : string) :
  weight cities [c0] = tree_size (length cities) (length cities).
Proof. unfold weight. simpl. by rewrite Nat.sub_0_r. Qed.

Lemma bfs_init_inv (c0 : string) :
  head cities = Some c0 →
  state_inv cities distances bfs_node bfs_ok (BFS.init c0) [].
Proof. intros Hhd. split; [by repeat constructor|by apply Inv_init]. Qed.

Lemma ucs_init_inv (c0 : string) :
  head cities = Some c0 →
  state_inv cities distances ucs_node any_entry (UCS.init c0) [].
Proof. intros Hhd. split; [by repeat constructor|by apply Inv_init]. Qed.

Lemma astar_init_inv (c0 : string) :
  head cities = Some c0 →
  state_inv cities distances astar_node any_entry (AStar.init c0) [].
Proof. intros Hhd. split; [by repeat constructor|by apply Inv_init]. Qed.

Lemma solve_start (c0 : string) :
  head cities = Some c0 → list_get cities 0 = Done c0.
Proof. intros Hhd. unfold list_get. by rewrite -head_lookup Hhd. Qed.

Lemma start_defined {A : Type} (k : string → outcome A) (r : A) :
  (c0 ← list_get cities 0; k c0) = Done r →
  ∃ c0, head cities = Some c0 ∧ k c0 = Done r.
Proof.
  unfold list_get. rewrite -head_lookup.
  destruct (head cities) as [c0|]; [|done]. by exists c0.
Qed.

Lemma bfs_sound bp v :
  BFS.bfs_tsp cities distances = Done (bp, v) →
  ∃ H, Inv cities distances [] bp v H.
Proof.
  intros (c0 & Hhd & Hw)%start_defined. eexists.
  eapply (while_sound cities distances popleft _ bfs_node bfs_ok);
    [apply @popleft_perm|apply @popleft_none|apply bfs_iteration_sound
    |by apply bfs_init_inv|done].
Qed.

Lemma ucs_sound bp v :
  UCS.solve cities distances = Done (bp, v) →
  ∃ H, Inv cities distances [] bp v H.
Proof.
  intros (c0 & Hhd & Hw)%start_defined. eexists.
  eapply (while_sound cities distances _ _ ucs_node any_entry);
    [apply heappop_perm|apply heappop_none|apply ucs_iteration_sound
    |by apply ucs_init_inv|done].
Qed.

Lemma astar_sound bp v :
  AStar.solve cities distances = Done (bp, v) →
  ∃ H, Inv cities distances [] bp v H.
Proof.
  intros (c0 & Hhd & Hw)%start_defined. eexists.
  eapply (while_sound cities distances _ _ astar_node any_entry);
    [apply heappop_perm|apply heappop_none|apply astar_iteration_sound
    |by apply astar_init_inv|done].
Qed.

Section total.
Hypothesis Htot : total_table cities distances.

Lemma bfs_defined (c0 : string) :
  head cities = Some c0 → ∃ r, BFS.bfs_tsp cities distances = Done r.
Proof.
  intros Hhd. unfold BFS.bfs_tsp. rewrite (solve_start c0) // bind_Done.
  eapply (while_terminates cities distances popleft _ bfs_node bfs_ok);
    [apply @popleft_perm|apply bfs_iteration_sound
    |by intros; apply bfs_iteration_progress|by apply bfs_init_inv|].
  simpl. rewrite /measure /= init_weight /fuel_for. lia.
Qed.

Lemma ucs_defined (c0 : string) :
  head cities = Some c0 → ∃ r, UCS.solve cities distances = Done r.
Proof.
  intros Hhd. unfold UCS.solve. rewrite (solve_start c0) // bind_Done.
  eapply (while_terminates cities distances _ _ ucs_node any_entry);
    [apply heappop_perm|apply ucs_iteration_sound
    |by intros; apply ucs_iteration_progress|by apply ucs_init_inv|].
  simpl. rewrite /measure /= init_weight /fuel_for. lia.
Qed.

Lemma astar_defined (c0 : string) :
  head cities = Some c0 → ∃ r, AStar.solve cities distances = Done r.
Proof.
  intros Hhd. unfold AStar.solve. rewrite (solve_start c0) // bind_Done.
  eapply (while_terminates cities distances _ _ astar_node any_entry);
    [apply heappop_perm|apply astar_iteration_sound
    |by intros; apply astar_iteration_progress|by apply astar_init_inv|].
  simpl. rewrite /measure /= init_weight /fuel_for. lia.
Qed.
End total.
End programs.

(** ** The states met by each program *)

Section reachable.
Variable cities : list string.
Variable distances : gmap (string * string) Z.
Variable c0 : string.
Hypothesis Hhd : head cities = Some c0.

Lemma bfs_run_good (k : nat) (st : state BFS.entry) :
  run popleft (BFS.iteration cities distances) k (BFS.init c0) = Done st →
  Forall (λ e, good_node cities distances (bfs_node e)) (frontier st).
Proof.
  intros Hrun.
  destruct (run_inv cities distances popleft _ bfs_node bfs_ok
              (@popleft_perm _) (bfs_iteration_sound cities distances)
              k _ st [] (bfs_init_inv cities distances c0 Hhd) Hrun)
    as (H' & _ & [Hfr _ _ _ _ _]).
  by apply (Forall_fmap bfs_node (good_node cities distances)).
Qed.

Lemma ucs_run_good (k : nat) (st : state UCS.entry) :
  run (heappop UCS.entry_ltb) (UCS.iteration cities distances) k (UCS.init c0)
    = Done st →
  Forall (λ e, good_node cities distances (ucs_node e)) (frontier st).
Proof.
  intros Hrun.
  destruct (run_inv cities distances _ _ ucs_node any_entry
              (heappop_perm _) (ucs_iteration_sound cities distances)
              k _ st [] (ucs_init_inv cities distances c0 Hhd) Hrun)
    as (H' & _ & [Hfr _ _ _ _ _]).
  by apply (Forall_fmap ucs_node (good_node cities distances)).
Qed.

Lemma astar_run_good (k : nat) (st : state AStar.entry) :
  run (heappop AStar.entry_ltb) (AStar.iteration cities distances) k
    (AStar.init c0) = Done st →
  Forall (λ e, good_node cities distances (astar_node e)) (frontier st).
Proof.
  intros Hrun.
  destruct (run_inv cities distances _ _ astar_node any_entry
              (heappop_perm _) (astar_iteration_sound cities distances)
              k _ st [] (astar_init_inv cities distances c0 Hhd) Hrun)
    as (H' & _ & [Hfr _ _ _ _ _]).
  by apply (Forall_fmap astar_node (good_node cities distances)).
Qed.

Lemma good_length (nd : node) :
  good_node cities distances nd → (length nd.1 ≤ S (length cities))%nat.
Proof.
  intros [[Hop|(p & c & -> & _ & _ & Hlen)] _].
  - apply open_length in Hop. lia.
  - rewrite length_app /=. lia.
Qed.

Lemma good_complete_goal (nd : node) :
  good_node cities distances nd →
  BFS.complete cities nd.1 = is_goal cities nd.1.
Proof.
  intros [[Hop|Hcl] _].
  - by rewrite open_not_complete // open_not_goal.
  - rewrite closed_complete //.
    by destruct (closed_hamiltonian _ _ Hcl) as [-> _].
Qed.
End reachable.

(** ** Checking a concrete table *)

Lemma total_table_check (cities : list string)
    (distances : gmap (string * string) Z) :
  Forall (λ a, Forall (λ b, is_Some (distances !! (a, b))) cities) cities →
  total_table cities distances.
Proof.
  intros Hall a b Ha Hb. rewrite Forall_forall in Hall.
  specialize (Hall a Ha). rewrite Forall_forall in Hall. by apply Hall.
Qed.

Lemma two_table_total : total_table two_cities two_table.
Proof.
  apply total_table_check.
  apply (bool_decide_unpack _). vm_compute. exact I.
Qed.

Lemma two_table_nonneg : nonneg_table two_table.
Proof. apply (bool_decide_unpack _). vm_compute. exact I. Qed.

(** ** Optimality *)

(** C2: for at least two locations and a valid distance table (an entry
    for every ordered pair, no negative weight), each of the three
    programs returns a bottleneck that is at most the bottleneck (the
    maximum consecutive-pair edge weight) of every Hamiltonian cycle that
    starts and ends at [locations[0]]; and the bottleneck returned is the
    bottleneck of the tour returned with it (or [sys.maxsize], with no
    tour), so it is the least one there is. *)
Theorem solve_bottleneck_optimal (cities : list string)
    (distances : gmap (string * string) Z) :
  (2 ≤ length cities)%nat →
  total_table cities distances →
  nonneg_table distances →
  ∃ p1 v1 p2 v2 p3 v3,
    BFS.bfs_tsp cities distances = Done (p1, v1)
    ∧ UCS.solve cities distances = Done (p2, v2)
    ∧ AStar.solve cities distances = Done (p3, v3)
    ∧ (∀ t, hamiltonian_cycle cities t →
         ∃ b, bottleneck distances t = Some b ∧ v1 ≤ b ∧ v2 ≤ b ∧ v3 ≤ b)
    ∧ attained cities distances p1 v1
    ∧ attained cities distances p2 v2
    ∧ attained cities distances p3 v3.
Proof.
  intros Hlen Htot Hnn.
  destruct cities as [|c0 cs] eqn:Hcs; [simpl in Hlen; lia|]. rewrite -Hcs.
  assert (head cities = Some c0) as Hhd by by rewrite Hcs.
  rewrite -Hcs in Htot. clear Hcs Hlen.
  destruct (bfs_defined _ _ Htot c0 Hhd) as [[p1 v1] H1].
  destruct (ucs_defined _ _ Htot c0 Hhd) as [[p2 v2] H2].
  destruct (astar_defined _ _ Htot c0 Hhd) as [[p3 v3] H3].
  exists p1, v1, p2, v2, p3, v3.
  destruct (bfs_sound _ _ _ _ H1) as [? I1].
  destruct (ucs_sound _ _ _ _ H2) as [? I2].
  destruct (astar_sound _ _ _ _ H3) as [? I3].
  assert (∀ bp v H, Inv cities distances [] bp v H →
                    attained cities distances bp v) as Hatt.
  { intros bp v H Hinv.
    destruct (Inv_final_best _ _ _ _ _ Hinv)
      as [[-> ->]|(t & -> & Ht & Hv & Hlt)]; [by left|].
    right. exists t. split_and!; try done. by apply running_max_bottleneck. }
  split_and!; try done; [|by eapply Hatt..].
  intros t Ht.
  destruct (Inv_final_lower _ _ _ _ _ t I1 Ht) as (b & Hb & Hle1).
  destruct (Inv_final_lower _ _ _ _ _ t I2 Ht) as (b2 & Hb2 & Hle2).
  destruct (Inv_final_lower _ _ _ _ _ t I3 Ht) as (b3 & Hb3 & Hle3).
  simplify_eq. exists b. split_and!; try done.
  by apply running_max_bottleneck.
Qed.

Lemma solve_bottleneck_optimal_witness :
  ∃ p1 v1 p2 v2 p3 v3,
    BFS.bfs_tsp two_cities two_table = Done (p1, v1)
    ∧ UCS.solve two_cities two_table = Done (p2, v2)
    ∧ AStar.solve two_cities two_table = Done (p3, v3)
    ∧ (∀ t, hamiltonian_cycle two_cities t →
         ∃ b, bottleneck two_table t = Some b ∧ v1 ≤ b ∧ v2 ≤ b ∧ v3 ≤ b)
    ∧ attained two_cities two_table p1 v1
    ∧ attained two_cities two_table p2 v2
    ∧ attained two_cities two_table p3 v3.
Proof.
  apply solve_bottleneck_optimal;
    [simpl; lia|apply two_table_total|apply two_table_nonneg].
Defined.

(** ** Totality *)

(** C10: for a non-empty location list and a table with an entry for
    every ordered pair of locations, nothing fails in any of the three
    programs: [locations[0]] is defined, every turn of each loop produces
    a state (so every distance lookup finds its key), and each program
    returns a result. *)
Theorem solve_total (cities : list string)
    (distances : gmap (string * string) Z) :
  cities ≠ [] →
  total_table cities distances →
  ∃ c0, list_get cities 0 = Done c0
    ∧ (∀ k, ∃ st, run popleft (BFS.iteration cities distances) k (BFS.init c0)
                  = Done st)
    ∧ (∀ k, ∃ st, run (heappop UCS.entry_ltb) (UCS.iteration cities distances)
                    k (UCS.init c0) = Done st)
    ∧ (∀ k, ∃ st, run (heappop AStar.entry_ltb)
                    (AStar.iteration cities distances) k (AStar.init c0)
                  = Done st)
    ∧ (∃ r, BFS.bfs_tsp cities distances = Done r)
    ∧ (∃ r, UCS.solve cities distances = Done r)
    ∧ (∃ r, AStar.solve cities distances = Done r).
Proof.
  intros Hne Htot. destruct cities as [|c0 cs] eqn:Hcs; [done|]. rewrite -Hcs.
  assert (head cities = Some c0) as Hhd by by rewrite Hcs.
  rewrite -Hcs in Htot. clear Hcs Hne.
  exists c0. split_and!.
  - by apply solve_start.
  - intros k.
    eapply (run_defined cities distances popleft _ bfs_node bfs_ok);
      [apply @popleft_perm|apply bfs_iteration_sound
      |by intros; apply bfs_iteration_progress|by apply bfs_init_inv].
  - intros k.
    eapply (run_defined cities distances _ _ ucs_node any_entry);
      [apply heappop_perm|apply ucs_iteration_sound
      |by intros; apply ucs_iteration_progress|by apply ucs_init_inv].
  - intros k.
    eapply (run_defined cities distances _ _ astar_node any_entry);
      [apply heappop_perm|apply astar_iteration_sound
      |by intros; apply astar_iteration_progress|by apply astar_init_inv].
  - by apply (bfs_defined _ _ Htot c0).
  - by apply (ucs_defined _ _ Htot c0).
  - by apply (astar_defined _ _ Htot c0).
Qed.

Lemma solve_total_witness :
  ∃ c0, list_get two_cities 0 = Done c0
    ∧ (∀ k, ∃ st, run popleft (BFS.iteration two_cities two_table) k
                    (BFS.init c0) = Done st)
    ∧ (∀ k, ∃ st, run (heappop UCS.entry_ltb)
                    (UCS.iteration two_cities two_table) k (UCS.init c0)
                  = Done st)
    ∧ (∀ k, ∃ st, run (heappop AStar.entry_ltb)
                    (AStar.iteration two_cities two_table) k (AStar.init c0)
                  = Done st)
    ∧ (∃ r, BFS.bfs_tsp two_cities two_table = Done r)
    ∧ (∃ r, UCS.solve two_cities two_table = Done r)
    ∧ (∃ r, AStar.solve two_cities two_table = Done r).
Proof.
  apply solve_total; [discriminate|apply two_table_total].
Defined.

(** ** Complete entries are compared, the others are expanded *)

Section goal_test.
Variable cities : list string.
Variable distances : gmap (string * string) Z.

Lemma bfs_iteration_complete (e : BFS.entry) (rest : list BFS.entry) bp v :
  BFS.complete cities (BFS.path_of e) = true →
  BFS.iteration cities distances e rest bp v
  = Done (compared rest (BFS.path_of e) (BFS.jump_of e) bp v).
Proof.
  destruct e as [[c path] mj]. unfold BFS.path_of, BFS.jump_of, compared.
  simpl. intros ->. by case_bool_decide.
Qed.

Lemma bfs_iteration_keeps (e : BFS.entry) (rest : list BFS.entry) bp v st' :
  BFS.complete cities (BFS.path_of e) = false →
  BFS.iteration cities distances e rest bp v = Done st' →
  best_path st' = bp ∧ min_max_jump st' = v.
Proof.
  destruct e as [[c path] mj]. unfold BFS.path_of. simpl. intros ->.
  destruct (for_each _ _ _); try done. cbn. by intros [= <-].
Qed.

Lemma ucs_iteration_compared (e : UCS.entry) (rest : list UCS.entry) bp v :
  UCS.complete cities (UCS.path_of e) = true →
  UCS.iteration cities distances e rest bp v
  = Done (compared rest (UCS.path_of e) (UCS.jump_of e) bp v).
Proof. apply ucs_iteration_complete. Qed.

Lemma ucs_iteration_keeps (e : UCS.entry) (rest : list UCS.entry) bp v st' :
  UCS.complete cities (UCS.path_of e) = false →
  UCS.iteration cities distances e rest bp v = Done st' →
  best_path st' = bp ∧ min_max_jump st' = v.
Proof.
  destruct e as [mj path]. unfold UCS.path_of, UCS.complete. simpl.
  intros Hc.
  assert (∀ l, UCS.expand cities distances l path mj rest bp v = Done st' →
               best_path st' = bp ∧ min_max_jump st' = v) as Hexp.
  { intros l. unfold UCS.expand. destruct (for_each _ _ _); try done.
    cbn. by intros [= <-]. }
  unfold py_last. destruct (last path) as [l|] eqn:Hl; [|done]. cbn.
  unfold UCS.back_at_start, list_get. rewrite -head_lookup.
  destruct (bool_decide (1 < length path)%nat); [|by apply Hexp].
  destruct (head cities) as [c0|]; [|done]. cbn.
  destruct (bool_decide (l = c0)) eqn:Hlc; [|by apply Hexp].
  apply bool_decide_eq_true in Hlc as ->.
  rewrite (bool_decide_eq_true_2 (Some c0 = Some c0)) // in Hc.
  simpl in Hc. rewrite Hc. by apply Hexp.
Qed.

Lemma astar_iteration_complete (e : AStar.entry) (rest : list AStar.entry)
    bp v :
  AStar.complete cities (AStar.path_of e) = true →
  AStar.iteration cities distances e rest bp v
  = Done (compared rest (AStar.path_of e) (AStar.jump_of e) bp v).
Proof.
  destruct e as [[cost path] mj]. unfold AStar.path_of, AStar.jump_of, compared.
  simpl. intros Hc. rewrite Hc.
  destruct (last path) as [l|] eqn:Hl.
  - unfold py_last. rewrite Hl. cbn. by case_bool_decide.
  - apply last_None in Hl. by subst path.
Qed.

Lemma astar_iteration_keeps (e : AStar.entry) (rest : list AStar.entry)
    bp v st' :
  AStar.complete cities (AStar.path_of e) = false →
  AStar.iteration cities distances e rest bp v = Done st' →
  best_path st' = bp ∧ min_max_jump st' = v.
Proof.
  destruct e as [[cost path] mj]. unfold AStar.path_of. simpl. intros ->.
  destruct (py_last path); try done. cbn.
  destruct (for_each _ _ _); try done. cbn. by intros [= <-].
Qed.
End goal_test.

(** C5: on every state met by each program the test made in the loop
    agrees with the goal test of the specification; an entry that passes
    it is compared with the best record (which changes only for a strictly
    smaller bottleneck) and leaves the frontier without being expanded or
    enqueued again, and an entry that fails it leaves the record as it
    is. *)
Theorem goal_test_agrees (cities : list string)
    (distances : gmap (string * string) Z) (c0 : string) :
  head cities = Some c0 →
  ((∀ k st e,
      run popleft (BFS.iteration cities distances) k (BFS.init c0) = Done st →
      e ∈ frontier st →
      BFS.complete cities (BFS.path_of e) = is_goal cities (BFS.path_of e))
   ∧ (∀ e rest bp v,
        BFS.complete cities (BFS.path_of e) = true →
        BFS.iteration cities distances e rest bp v
        = Done (compared rest (BFS.path_of e) (BFS.jump_of e) bp v))
   ∧ (∀ e rest bp v st',
        BFS.complete cities (BFS.path_of e) = false →
        BFS.iteration cities distances e rest bp v = Done st' →
        best_path st' = bp ∧ min_max_jump st' = v))
  ∧ ((∀ k st e,
        run (heappop UCS.entry_ltb) (UCS.iteration cities distances) k
          (UCS.init c0) = Done st →
        e ∈ frontier st →
        UCS.complete cities (UCS.path_of e) = is_goal cities (UCS.path_of e))
     ∧ (∀ e rest bp v,
          UCS.complete cities (UCS.path_of e) = true →
          UCS.iteration cities distances e rest bp v
          = Done (compared rest (UCS.path_of e) (UCS.jump_of e) bp v))
     ∧ (∀ e rest bp v st',
          UCS.complete cities (UCS.path_of e) = false →
          UCS.iteration cities distances e rest bp v = Done st' →
          best_path st' = bp ∧ min_max_jump st' = v))
  ∧ ((∀ k st e,
        run (heappop AStar.entry_ltb) (AStar.iteration cities distances) k
          (AStar.init c0) = Done st →
        e ∈ frontier st →
        AStar.complete cities (AStar.path_of e)
        = is_goal cities (AStar.path_of e))
     ∧ (∀ e rest bp v,
          AStar.complete cities (AStar.path_of e) = true →
          AStar.iteration cities distances e rest bp v
          = Done (compared rest (AStar.path_of e) (AStar.jump_of e) bp v))
     ∧ (∀ e rest bp v st',
          AStar.complete cities (AStar.path_of e) = false →
          AStar.iteration cities distances e rest bp v = Done st' →
          best_path st' = bp ∧ min_max_jump st' = v)).
Proof.
  intros Hhd. split_and!.
  - intros k st e Hrun Hin.
    pose proof (bfs_run_good cities distances c0 Hhd k st Hrun) as Hgood.
    rewrite Forall_forall in Hgood.
    apply (good_complete_goal cities distances (bfs_node e)), Hgood, Hin.
  - apply bfs_iteration_complete.
  - apply bfs_iteration_keeps.
  - intros k st e Hrun Hin.
    pose proof (ucs_run_good cities distances c0 Hhd k st Hrun) as Hgood.
    rewrite Forall_forall in Hgood. specialize (Hgood e Hin).
    rewrite (ucs_complete_good cities distances _ (UCS.jump_of e)) //.
    by apply (good_complete_goal cities distances (ucs_node e)).
  - apply ucs_iteration_compared.
  - apply ucs_iteration_keeps.
  - intros k st e Hrun Hin.
    pose proof (astar_run_good cities distances c0 Hhd k st Hrun) as Hgood.
    rewrite Forall_forall in Hgood.
    apply (good_complete_goal cities distances (astar_node e)), Hgood, Hin.
  - apply astar_iteration_complete.
  - apply astar_iteration_keeps.
Qed.

Lemma goal_test_agrees_witness :
  ((∀ k st e,
      run popleft (BFS.iteration two_cities two_table) k (BFS.init "A")
        = Done st →
      e ∈ frontier st →
      BFS.complete two_cities (BFS.path_of e)
      = is_goal two_cities (BFS.path_of e))
   ∧ (∀ e rest bp v,
        BFS.complete two_cities (BFS.path_of e) = true →
        BFS.iteration two_cities two_table e rest bp v
        = Done (compared rest (BFS.path_of e) (BFS.jump_of e) bp v))
   ∧ (∀ e rest bp v st',
        BFS.complete two_cities (BFS.path_of e) = false →
        BFS.iteration two_cities two_table e rest bp v = Done st' →
        best_path st' = bp ∧ min_max_jump st' = v))
  ∧ ((∀ k st e,
        run (heappop UCS.entry_ltb) (UCS.iteration two_cities two_table) k
          (UCS.init "A") = Done st →
        e ∈ frontier st →
        UCS.complete two_cities (UCS.path_of e)
        = is_goal two_cities (UCS.path_of e))
     ∧ (∀ e rest bp v,
          UCS.complete two_cities (UCS.path_of e) = true →
          UCS.iteration two_cities two_table e rest bp v
          = Done (compared rest (UCS.path_of e) (UCS.jump_of e) bp v))
     ∧ (∀ e rest bp v st',
          UCS.complete two_cities (UCS.path_of e) = false →
          UCS.iteration two_cities two_table e rest bp v = Done st' →
          best_path st' = bp ∧ min_max_jump st' = v))
  ∧ ((∀ k st e,
        run (heappop AStar.entry_ltb) (AStar.iteration two_cities two_table) k
          (AStar.init "A") = Done st →
        e ∈ frontier st →
        AStar.complete two_cities (AStar.path_of e)
        = is_goal two_cities (AStar.path_of e))
     ∧ (∀ e rest bp v,
          AStar.complete two_cities (AStar.path_of e) = true →
          AStar.iteration two_cities two_table e rest bp v
          = Done (compared rest (AStar.path_of e) (AStar.jump_of e) bp v))
     ∧ (∀ e rest bp v st',
          AStar.complete two_cities (AStar.path_of e) = false →
          AStar.iteration two_cities two_table e rest bp v = Done st' →
          best_path st' = bp ∧ min_max_jump st' = v)).
Proof. apply goal_test_agrees. reflexivity. Defined.

(** ** Termination *)

(** C3: for at least one location and a total distance table each of the
    three programs terminates.  The frontier is exhausted within
    [tree_size n n] turns of the loop ([n] the number of locations), every
    entry ever in the frontier has a path of at most [n + 1] locations, an
    entry whose path is complete is removed without being expanded, and the
    program returns a result. *)
Theorem search_terminates (cities : list string)
    (distances : gmap (string * string) Z) (c0 : string) :
  head cities = Some c0 →
  total_table cities distances →
  (exhausts popleft (BFS.iteration cities distances) (BFS.init c0)
     (tree_size (length cities) (length cities))
   ∧ (∀ k st, run popleft (BFS.iteration cities distances) k (BFS.init c0)
              = Done st →
        Forall (λ e, (length (BFS.path_of e) ≤ S (length cities))%nat)
          (frontier st))
   ∧ (∀ e rest bp v, BFS.complete cities (BFS.path_of e) = true →
        ∃ st', BFS.iteration cities distances e rest bp v = Done st'
               ∧ frontier st' = rest)
   ∧ ∃ r, BFS.bfs_tsp cities distances = Done r)
  ∧ (exhausts (heappop UCS.entry_ltb) (UCS.iteration cities distances)
       (UCS.init c0) (tree_size (length cities) (length cities))
     ∧ (∀ k st, run (heappop UCS.entry_ltb) (UCS.iteration cities distances) k
                  (UCS.init c0) = Done st →
          Forall (λ e, (length (UCS.path_of e) ≤ S (length cities))%nat)
            (frontier st))
     ∧ (∀ e rest bp v, UCS.complete cities (UCS.path_of e) = true →
          ∃ st', UCS.iteration cities distances e rest bp v = Done st'
                 ∧ frontier st' = rest)
     ∧ ∃ r, UCS.solve cities distances = Done r)
  ∧ (exhausts (heappop AStar.entry_ltb) (AStar.iteration cities distances)
       (AStar.init c0) (tree_size (length cities) (length cities))
     ∧ (∀ k st, run (heappop AStar.entry_ltb)
                  (AStar.iteration cities distances) k (AStar.init c0)
                = Done st →
          Forall (λ e, (length (AStar.path_of e) ≤ S (length cities))%nat)
            (frontier st))
     ∧ (∀ e rest bp v, AStar.complete cities (AStar.path_of e) = true →
          ∃ st', AStar.iteration cities distances e rest bp v = Done st'
                 ∧ frontier st' = rest)
     ∧ ∃ r, AStar.solve cities distances = Done r).
Proof.
  intros Hhd Htot. split_and!.
  - eapply (run_exhausts cities distances popleft _ bfs_node bfs_ok);
      [apply @popleft_perm|apply @popleft_none|apply bfs_iteration_sound
      |by intros; apply bfs_iteration_progress|by apply bfs_init_inv|].
    by rewrite /measure /= init_weight Nat.add_0_r.
  - intros k st Hrun.
    eapply Forall_impl; [by eapply bfs_run_good|].
    intros e He. apply (good_length cities distances (bfs_node e) He).
  - intros e rest bp v Hc. eexists. split; [by apply bfs_iteration_complete|done].
  - by apply (bfs_defined _ _ Htot c0).
  - eapply (run_exhausts cities distances _ _ ucs_node any_entry);
      [apply heappop_perm|apply heappop_none|apply ucs_iteration_sound
      |by intros; apply ucs_iteration_progress|by apply ucs_init_inv|].
    by rewrite /measure /= init_weight Nat.add_0_r.
  - intros k st Hrun.
    eapply Forall_impl; [by eapply ucs_run_good|].
    intros e He. apply (good_length cities distances (ucs_node e) He).
  - intros e rest bp v Hc. eexists. split; [by apply ucs_iteration_complete|done].
  - by apply (ucs_defined _ _ Htot c0).
  - eapply (run_exhausts cities distances _ _ astar_node any_entry);
      [apply heappop_perm|apply heappop_none|apply astar_iteration_sound
      |by intros; apply astar_iteration_progress|by apply astar_init_inv|].
    by rewrite /measure /= init_weight Nat.add_0_r.
  - intros k st Hrun.
    eapply Forall_impl; [by eapply astar_run_good|].
    intros e He. apply (good_length cities distances (astar_node e) He).
  - intros e rest bp v Hc. eexists.
    split; [by apply astar_iteration_complete|done].
  - by apply (astar_defined _ _ Htot c0).
Qed.

(** ** The bottleneck carried by an entry *)

(** With negative weights the value carried and returned is not the
    maximum edge weight: the running maximum starts from 0.  For the
    matrix [[0, -1], [-1, 0]] the three programs return the tour A, B, A
    with 0, while the maximum of its two edges is -1; and after one turn
    the queue of the breadth-first program holds the path A, B with 0. *)
Lemma negative_weights_break_round_trip :
  (d ← load_city_distances two_cities negative_matrix; BFS.bfs_tsp two_cities d)
  = Done (Some ["A"; "B"; "A"]%string, 0)
  ∧ (d ← load_city_distances two_cities negative_matrix; UCS.solve two_cities d)
    = Done (Some ["A"; "B"; "A"]%string, 0)
  ∧ (d ← load_city_distances two_cities negative_matrix;
     AStar.solve two_cities d)
    = Done (Some ["A"; "B"; "A"]%string, 0)
  ∧ (d ← load_city_distances two_cities negative_matrix;
     Done (bottleneck d ["A"; "B"; "A"]%string))
    = Done (Some (-1))
  ∧ (d ← load_city_distances two_cities negative_matrix;
     st ← run popleft (BFS.iteration two_cities d) 1 (BFS.init "A");
     Done (frontier st, bottleneck d ["A"; "B"]%string))
    = Done ([("B", ["A"; "B"], 0)]%string, Some (-1)).
Proof. split_and!; vm_compute; reflexivity. Qed.

(** C4, amended: for a table without negative weights, a sequence
    returned by any of the three programs has, as the maximum of the table
    lookups over its consecutive pairs, exactly the returned bottleneck;
    and every entry met during a search carries the maximum edge weight
    among the consecutive pairs of its path (0 for a single location). *)
Theorem bottleneck_round_trip (cities : list string)
    (distances : gmap (string * string) Z) :
  nonneg_table distances →
  (∀ p v, BFS.bfs_tsp cities distances = Done (Some p, v) →
          bottleneck distances p = Some v)
  ∧ (∀ p v, UCS.solve cities distances = Done (Some p, v) →
            bottleneck distances p = Some v)
  ∧ (∀ p v, AStar.solve cities distances = Done (Some p, v) →
            bottleneck distances p = Some v)
  ∧ (∀ c0 k st, head cities = Some c0 →
       run popleft (BFS.iteration cities distances) k (BFS.init c0) = Done st →
       Forall (λ e, bottleneck distances (BFS.path_of e) = Some (BFS.jump_of e))
         (frontier st))
  ∧ (∀ c0 k st, head cities = Some c0 →
       run (heappop UCS.entry_ltb) (UCS.iteration cities distances) k
         (UCS.init c0) = Done st →
       Forall (λ e, bottleneck distances (UCS.path_of e) = Some (UCS.jump_of e))
         (frontier st))
  ∧ (∀ c0 k st, head cities = Some c0 →
       run (heappop AStar.entry_ltb) (AStar.iteration cities distances) k
         (AStar.init c0) = Done st →
       Forall (λ e, bottleneck distances (AStar.path_of e)
                    = Some (AStar.jump_of e))
         (frontier st)).
Proof.
  intros Hnn.
  assert (∀ bp v H p, Inv cities distances [] bp v H → bp = Some p →
                      bottleneck distances p = Some v) as Hret.
  { intros bp v H p Hinv ->.
    destruct (Inv_final_best _ _ _ _ _ Hinv) as [[? _]|(q & [= <-] & _ & Hq & _)];
      [done|]. by apply running_max_bottleneck. }
  split_and!.
  - intros p v [H Hinv]%bfs_sound. by eapply Hret.
  - intros p v [H Hinv]%ucs_sound. by eapply Hret.
  - intros p v [H Hinv]%astar_sound. by eapply Hret.
  - intros c0 k st Hhd Hrun.
    eapply Forall_impl; [by eapply bfs_run_good|].
    intros e [_ He]. by apply running_max_bottleneck.
  - intros c0 k st Hhd Hrun.
    eapply Forall_impl; [by eapply ucs_run_good|].
    intros e [_ He]. by apply running_max_bottleneck.
  - intros c0 k st Hhd Hrun.
    eapply Forall_impl; [by eapply astar_run_good|].
    intros e [_ He]. by apply running_max_bottleneck.
Qed.

Lemma search_terminates_witness :
  (exhausts popleft (BFS.iteration two_cities two_table) (BFS.init "A")
     (tree_size (length two_cities) (length two_cities))
   ∧ (∀ k st, run popleft (BFS.iteration two_cities two_table) k (BFS.init "A")
              = Done st →
        Forall (λ e, (length (BFS.path_of e) ≤ S (length two_cities))%nat)
          (frontier st))
   ∧ (∀ e rest bp v, BFS.complete two_cities (BFS.path_of e) = true →
        ∃ st', BFS.iteration two_cities two_table e rest bp v = Done st'
               ∧ frontier st' = rest)
   ∧ ∃ r, BFS.bfs_tsp two_cities two_table = Done r)
  ∧ (exhausts (heappop UCS.entry_ltb) (UCS.iteration two_cities two_table)
       (UCS.init "A") (tree_size (length two_cities) (length two_cities))
     ∧ (∀ k st, run (heappop UCS.entry_ltb) (UCS.iteration two_cities two_table)
                  k (UCS.init "A") = Done st →
          Forall (λ e, (length (UCS.path_of e) ≤ S (length two_cities))%nat)
            (frontier st))
     ∧ (∀ e rest bp v, UCS.complete two_cities (UCS.path_of e) = true →
          ∃ st', UCS.iteration two_cities two_table e rest bp v = Done st'
                 ∧ frontier st' = rest)
     ∧ ∃ r, UCS.solve two_cities two_table = Done r)
  ∧ (exhausts (heappop AStar.entry_ltb) (AStar.iteration two_cities two_table)
       (AStar.init "A") (tree_size (length two_cities) (length two_cities))
     ∧ (∀ k st, run (heappop AStar.entry_ltb)
                  (AStar.iteration two_cities two_table) k (AStar.init "A")
                = Done st →
          Forall (λ e, (length (AStar.path_of e) ≤ S (length two_cities))%nat)
            (frontier st))
     ∧ (∀ e rest bp v, AStar.complete two_cities (AStar.path_of e) = true →
          ∃ st', AStar.iteration two_cities two_table e rest bp v = Done st'
                 ∧ frontier st' = rest)
     ∧ ∃ r, AStar.solve two_cities two_table = Done r).
Proof. apply search_terminates; [reflexivity|apply two_table_total]. Defined.

Lemma bottleneck_round_trip_witness :
  (∀ p v, BFS.bfs_tsp two_cities two_table = Done (Some p, v) →
          bottleneck two_table p = Some v)
  ∧ (∀ p v, UCS.solve two_cities two_table = Done (Some p, v) →
            bottleneck two_table p = Some v)
  ∧ (∀ p v, AStar.solve two_cities two_table = Done (Some p, v) →
            bottleneck two_table p = Some v)
  ∧ (∀ c0 k st, head two_cities = Some c0 →
       run popleft (BFS.iteration two_cities two_table) k (BFS.init c0)
         = Done st →
       Forall (λ e, bottleneck two_table (BFS.path_of e) = Some (BFS.jump_of e))
         (frontier st))
  ∧ (∀ c0 k st, head two_cities = Some c0 →
       run (heappop UCS.entry_ltb) (UCS.iteration two_cities two_table) k
         (UCS.init c0) = Done st →
       Forall (λ e, bottleneck two_table (UCS.path_of e) = Some (UCS.jump_of e))
         (frontier st))
  ∧ (∀ c0 k st, head two_cities = Some c0 →
       run (heappop AStar.entry_ltb) (AStar.iteration two_cities two_table) k
         (AStar.init c0) = Done st →
       Forall (λ e, bottleneck two_table (AStar.path_of e)
                    = Some (AStar.jump_of e))
         (frontier st)).
Proof. apply bottleneck_round_trip. apply two_table_nonneg. Defined.

(** ** Building the table *)

Section load.
Variable distance_matrix : list (list Z).

Lemma load_row_outcome (i : nat) (origin : string) (dests : list string)
    (j : nat) (acc : gmap (string * string) Z) :
  (∃ d, load_row distance_matrix i origin dests j acc = Done d)
  ∨ load_row distance_matrix i origin dests j acc = Raise IndexError.
Proof.
  revert j acc. induction dests as [|b ds IH]; intros j acc; simpl.
  - left. by eexists.
  - unfold list_get. destruct (distance_matrix !! i) as [row|]; [|by right].
    cbn. destruct (row !! j) as [w|]; [|by right]. cbn. apply IH.
Qed.

Lemma load_row_defined (i : nat) (origin : string) (dests : list string)
    (j : nat) (acc : gmap (string * string) Z) (row : list Z) :
  distance_matrix !! i = Some row →
  (j + length dests ≤ length row)%nat →
  ∃ d, load_row distance_matrix i origin dests j acc = Done d.
Proof.
  intros Hrow. revert j acc. induction dests as [|b ds IH]; intros j acc Hlen;
    simpl in *; [by eexists|].
  unfold list_get. rewrite Hrow. cbn.
  destruct (lookup_lt_is_Some_2 row j) as [w ->]; [lia|]. cbn.
  apply IH. lia.
Qed.

Lemma load_row_covers (i : nat) (origin : string) (dests : list string)
    (j : nat) (acc d : gmap (string * string) Z) :
  dests ≠ [] →
  load_row distance_matrix i origin dests j acc = Done d →
  ∃ row, distance_matrix !! i = Some row
         ∧ (j + length dests ≤ length row)%nat.
Proof.
  revert j acc. induction dests as [|b ds IH]; intros j acc Hne; [done|].
  simpl. unfold list_get.
  destruct (distance_matrix !! i) as [row|] eqn:Hrow; [|done]. cbn.
  destruct (row !! j) as [w|] eqn:Hw; [|done]. cbn. intros Hload.
  exists row. split; [done|]. apply lookup_lt_Some in Hw.
  destruct ds as [|b' ds]; [simpl; lia|].
  destruct (IH (S j) _ ltac:(done) Hload) as (row' & Hrow' & Hlen).
  simplify_eq. simpl in *. lia.
Qed.

Lemma load_row_keys (i : nat) (origin : string) (dests : list string)
    (j : nat) (acc d : gmap (string * string) Z) :
  load_row distance_matrix i origin dests j acc = Done d →
  ∀ a b, is_Some (d !! (a, b))
         ↔ (a = origin ∧ b ∈ dests) ∨ is_Some (acc !! (a, b)).
Proof.
  revert j acc. induction dests as [|x ds IH]; intros j acc; simpl.
  - intros [= <-] a b. split; [by right|].
    intros [[_ ?%elem_of_nil]|?]; done.
  - unfold list_get. destruct (distance_matrix !! i) as [row|]; [|done]. cbn.
    destruct (row !! j) as [w|]; [|done]. cbn. intros Hload a b.
    rewrite (IH _ _ Hload) lookup_insert_is_Some elem_of_cons.
    destruct (decide ((origin, x) = (a, b))) as [[= -> ->]|Hne]; [naive_solver|].
    split.
    + intros [[-> Hb]|[?|[_ ?]]]; [by left; split; [|right]|done|by right].
    + intros [[-> [->|Hb]]|?]; [done|by left|by right; right].
Qed.

Lemma load_row_values (i : nat) (origin : string) (dests : list string)
    (j : nat) (acc d : gmap (string * string) Z) :
  load_row distance_matrix i origin dests j acc = Done d →
  ∀ k w, d !! k = Some w →
         acc !! k = Some w ∨ ∃ row, row ∈ distance_matrix ∧ w ∈ row.
Proof.
  revert j acc. induction dests as [|x ds IH]; intros j acc; simpl.
  - intros [= <-] k w ?. by left.
  - unfold list_get.
    destruct (distance_matrix !! i) as [row|] eqn:Hrow; [|done]. cbn.
    destruct (row !! j) as [w'|] eqn:Hw; [|done]. cbn. intros Hload k w Hk.
    destruct (IH _ _ Hload k w Hk) as [Hacc|?]; [|by right].
    destruct (decide ((origin, x) = k)) as [<-|Hne].
    + rewrite lookup_insert_eq in Hacc. injection Hacc as <-.
      right. exists row. split; by eapply list_elem_of_lookup_2.
    + rewrite lookup_insert_ne // in Hacc. by left.
Qed.

Lemma load_row_exact (i : nat) (origin : string) (dests : list string)
    (j : nat) (acc d : gmap (string * string) Z) :
  NoDup dests →
  load_row distance_matrix i origin dests j acc = Done d →
  (∀ jj b, dests !! jj = Some b →
     ∃ row w, distance_matrix !! i = Some row ∧ row !! (j + jj)%nat = Some w
              ∧ d !! (origin, b) = Some w)
  ∧ (∀ a b, ¬ (a = origin ∧ b ∈ dests) → d !! (a, b) = acc !! (a, b)).
Proof.
  revert j acc. induction dests as [|x ds IH]; intros j acc Hnd; simpl.
  - intros [= <-]. split; [by intros ?? ?|done].
  - unfold list_get.
    destruct (distance_matrix !! i) as [row|] eqn:Hrow; [|done]. cbn.
    destruct (row !! j) as [w|] eqn:Hw; [|done]. cbn. intros Hload.
    apply NoDup_cons in Hnd as [Hx Hnd].
    destruct (IH _ _ Hnd Hload) as [IH1 IH2]. split.
    + intros [|jj] b Hb; simpl in Hb.
      * injection Hb as <-. exists row, w. rewrite Nat.add_0_r.
        split_and!; [done..|].
        rewrite IH2; [naive_solver|]. by rewrite lookup_insert_eq.
      * destruct (IH1 jj b Hb) as (row' & w' & ? & ? & ?).
        exists row', w'. split_and!; [done| |done].
        by replace (j + S jj)%nat with (S j + jj)%nat by lia.
    + intros a b Hab. rewrite IH2.
      * intros [-> Hb]. apply Hab. split; [done|by right].
      * apply lookup_insert_ne. intros [= <- <-]. apply Hab.
        split; [done|left].
Qed.

Variable city_names : list string.

Lemma load_rows_outcome (origins : list string) (i : nat)
    (acc : gmap (string * string) Z) :
  (∃ d, load_rows city_names distance_matrix origins i acc = Done d)
  ∨ load_rows city_names distance_matrix origins i acc = Raise IndexError.
Proof.
  revert i acc. induction origins as [|a os IH]; intros i acc; simpl.
  - left. by eexists.
  - destruct (load_row_outcome i a city_names 0 acc) as [[d ->]| ->];
      [|by right]. cbn. apply IH.
Qed.

Lemma load_rows_defined (origins : list string) (i : nat)
    (acc : gmap (string * string) Z) :
  (∀ ii, (ii < length origins)%nat →
     ∃ row, distance_matrix !! (i + ii)%nat = Some row
            ∧ (length city_names ≤ length row)%nat) →
  ∃ d, load_rows city_names distance_matrix origins i acc = Done d.
Proof.
  revert i acc. induction origins as [|a os IH]; intros i acc Hcov; simpl;
    [by eexists|].
  destruct (Hcov 0%nat) as (row & Hrow & Hlen); [simpl; lia|].
  rewrite Nat.add_0_r in Hrow.
  destruct (load_row_defined i a city_names 0 acc row Hrow) as [d ->]; [lia|].
  cbn. apply IH. intros ii Hii.
  replace (S i + ii)%nat with (i + S ii)%nat by lia.
  apply Hcov. simpl. lia.
Qed.

Lemma load_rows_covers (origins : list string) (i : nat)
    (acc d : gmap (string * string) Z) :
  city_names ≠ [] →
  load_rows city_names distance_matrix origins i acc = Done d →
  ∀ ii, (ii < length origins)%nat →
    ∃ row, distance_matrix !! (i + ii)%nat = Some row
           ∧ (length city_names ≤ length row)%nat.
Proof.
  intros Hne. revert i acc. induction origins as [|a os IH]; intros i acc;
    simpl; [intros _ ii; lia|].
  destruct (load_row distance_matrix i a city_names 0 acc) as [d1| |] eqn:Hr;
    try done. cbn. intros Hload [|ii] Hii.
  - rewrite Nat.add_0_r.
    destruct (load_row_covers _ _ _ _ _ _ Hne Hr) as (row & ? & ?).
    exists row. split; [done|]. simpl in *. lia.
  - replace (i + S ii)%nat with (S i + ii)%nat by lia.
    eapply IH; [done|simpl in Hii; lia].
Qed.

Lemma load_rows_keys (origins : list string) (i : nat)
    (acc d : gmap (string * string) Z) :
  load_rows city_names distance_matrix origins i acc = Done d →
  ∀ a b, is_Some (d !! (a, b))
         ↔ (a ∈ origins ∧ b ∈ city_names) ∨ is_Some (acc !! (a, b)).
Proof.
  revert i acc. induction origins as [|x os IH]; intros i acc; simpl.
  - intros [= <-] a b. split; [by right|].
    intros [[?%elem_of_nil _]|?]; done.
  - destruct (load_row distance_matrix i x city_names 0 acc) as [d1| |] eqn:Hr;
      try done. cbn. intros Hload a b.
    rewrite (IH _ _ Hload) (load_row_keys _ _ _ _ _ _ Hr) elem_of_cons.
    naive_solver.
Qed.

Lemma load_rows_values (origins : list string) (i : nat)
    (acc d : gmap (string * string) Z) :
  load_rows city_names distance_matrix origins i acc = Done d →
  ∀ k w, d !! k = Some w →
         acc !! k = Some w ∨ ∃ row, row ∈ distance_matrix ∧ w ∈ row.
Proof.
  revert i acc. induction origins as [|x os IH]; intros i acc; simpl.
  - intros [= <-] k w ?. by left.
  - destruct (load_row distance_matrix i x city_names 0 acc) as [d1| |] eqn:Hr;
      try done. cbn. intros Hload k w Hk.
    destruct (IH _ _ Hload k w Hk) as [Hd1|?]; [|by right].
    by eapply load_row_values.
Qed.

Lemma load_rows_exact (origins : list string) (i : nat)
    (acc d : gmap (string * string) Z) :
  NoDup city_names → NoDup origins →
  load_rows city_names distance_matrix origins i acc = Done d →
  (∀ ii a jj b, origins !! ii = Some a → city_names !! jj = Some b →
     ∃ row w, distance_matrix !! (i + ii)%nat = Some row
              ∧ row !! jj = Some w ∧ d !! (a, b) = Some w)
  ∧ (∀ a b, a ∉ origins → d !! (a, b) = acc !! (a, b)).
Proof.
  intros Hndc. revert i acc. induction origins as [|x os IH];
    intros i acc Hnd; simpl.
  - intros [= <-]. split; [by intros ???? ?|done].
  - destruct (load_row distance_matrix i x city_names 0 acc) as [d1| |] eqn:Hr;
      try done. cbn. intros Hload.
    apply NoDup_cons in Hnd as [Hx Hnd].
    destruct (IH _ _ Hnd Hload) as [IH1 IH2].
    destruct (load_row_exact _ _ _ _ _ _ Hndc Hr) as [R1 R2]. split.
    + intros [|ii] a jj b Ha Hb; simpl in Ha.
      * injection Ha as <-. rewrite Nat.add_0_r.
        destruct (R1 jj b Hb) as (row & w & ? & ? & ?).
        exists row, w. split_and!; [done..|]. by rewrite IH2.
      * destruct (IH1 ii a jj b Ha Hb) as (row & w & ? & ? & ?).
        exists row, w. split_and!; [|done..].
        by replace (i + S ii)%nat with (S i + ii)%nat by lia.
    + intros a b Ha. apply not_elem_of_cons in Ha as [Hax Ha].
      rewrite IH2 // R2 //. naive_solver.
Qed.
End load.

Lemma square_covers (n : nat) (matrix : list (list Z)) :
  square_matrix n matrix → covers n matrix.
Proof.
  intros [Hlen Hrows] i Hi.
  destruct (lookup_lt_is_Some_2 matrix i) as [row Hrow]; [lia|].
  exists row. split; [done|]. rewrite Forall_forall in Hrows.
  rewrite (Hrows row); [by eapply list_elem_of_lookup_2|done].
Qed.

Lemma load_total (cities : list string) (matrix : list (list Z)) :
  covers (length cities) matrix →
  ∃ d, load_city_distances cities matrix = Done d
       ∧ ∀ a b, is_Some (d !! (a, b)) ↔ a ∈ cities ∧ b ∈ cities.
Proof.
  intros Hcov. unfold load_city_distances.
  destruct (load_rows_defined matrix cities cities 0 ∅) as [d Hd];
    [by intros ii Hii; apply Hcov|].
  exists d. split; [done|]. intros a b.
  rewrite (load_rows_keys _ _ _ _ _ _ Hd) lookup_empty.
  split; [intros [?|[? [=]]]; done|by left].
Qed.

Lemma load_nonneg (cities : list string) (matrix : list (list Z))
    (d : gmap (string * string) Z) :
  load_city_distances cities matrix = Done d →
  nonneg_matrix matrix → nonneg_table d.
Proof.
  intros Hd Hnn k w Hk. simpl.
  destruct (load_rows_values _ _ _ _ _ _ Hd k w Hk) as [[=]|(row & Hrow & Hw)].
  unfold nonneg_matrix in Hnn. rewrite Forall_forall in Hnn.
  specialize (Hnn row Hrow). rewrite Forall_forall in Hnn. by apply Hnn.
Qed.

(** ** The three strategies agree *)

(** C1: for at least two locations and a square matrix of non-negative
    weights given to the three programs, the table is built and the three
    programs return the same bottleneck value (the paths need not be the
    same). *)
Theorem strategies_agree (cities : list string) (matrix : list (list Z)) :
  (2 ≤ length cities)%nat →
  square_matrix (length cities) matrix →
  nonneg_matrix matrix →
  ∃ d p1 p2 p3 v,
    load_city_distances cities matrix = Done d
    ∧ UCS._load_city_distances cities matrix = Done d
    ∧ BFS.bfs_tsp cities d = Done (p1, v)
    ∧ UCS.solve cities d = Done (p2, v)
    ∧ AStar.solve cities d = Done (p3, v).
Proof.
  intros Hlen Hsq Hnn.
  destruct (load_total cities matrix (square_covers _ _ Hsq)) as (d & Hd & Hkeys).
  assert (total_table cities d) as Htot.
  { intros a b Ha Hb. by apply Hkeys. }
  destruct cities as [|c0 cs] eqn:Hcs; [simpl in Hlen; lia|]. rewrite -Hcs.
  assert (head cities = Some c0) as Hhd by by rewrite Hcs.
  rewrite -Hcs in Htot Hd. clear Hcs Hlen Hkeys.
  destruct (bfs_defined _ _ Htot c0 Hhd) as [[p1 v1] H1].
  destruct (ucs_defined _ _ Htot c0 Hhd) as [[p2 v2] H2].
  destruct (astar_defined _ _ Htot c0 Hhd) as [[p3 v3] H3].
  destruct (bfs_sound _ _ _ _ H1) as [? I1].
  destruct (ucs_sound _ _ _ _ H2) as [? I2].
  destruct (astar_sound _ _ _ _ H3) as [? I3].
  pose proof (Inv_final_unique _ _ _ _ _ _ _ _ I1 I2) as <-.
  pose proof (Inv_final_unique _ _ _ _ _ _ _ _ I1 I3) as <-.
  by exists d, p1, p2, p3, v1.
Qed.

Lemma strategies_agree_witness :
  ∃ d p1 p2 p3 v,
    load_city_distances two_cities two_matrix = Done d
    ∧ UCS._load_city_distances two_cities two_matrix = Done d
    ∧ BFS.bfs_tsp two_cities d = Done (p1, v)
    ∧ UCS.solve two_cities d = Done (p2, v)
    ∧ AStar.solve two_cities d = Done (p3, v).
Proof.
  apply strategies_agree.
  - simpl. lia.
  - split; [reflexivity|]. repeat constructor.
  - repeat constructor; lia.
Defined.

(** Among tours of equal bottleneck the programs may return different
    ones: the breadth-first program returns the first in the order of the
    location list, the uniform-cost one the first in the order of the
    heap. *)
Example tied_tours_differ :
  (d ← load_city_distances acb_cities ones_matrix; BFS.bfs_tsp acb_cities d)
  = Done (Some ["A"; "C"; "B"; "A"]%string, 1)
  ∧ (d ← load_city_distances acb_cities ones_matrix; UCS.solve acb_cities d)
    = Done (Some ["A"; "B"; "C"; "A"]%string, 1).
Proof. split; vm_compute; reflexivity. Qed.

(** ** Malformed input *)

(** A matrix with a negative weight is accepted: the table is returned
    and holds the negative weight. *)
Lemma load_accepts_negative_weights :
  ¬ nonneg_matrix negative_matrix
  ∧ square_matrix (length two_cities) negative_matrix
  ∧ (d ← load_city_distances two_cities negative_matrix; dict_get d "A" "B")
    = Done (-1).
Proof.
  split_and!.
  - intros Hnn. apply Forall_cons in Hnn as [Hrow _].
    apply Forall_cons in Hrow as [_ Hrow].
    apply Forall_cons in Hrow as [Hneg _]. lia.
  - split; [reflexivity|]. by repeat constructor.
  - vm_compute. reflexivity.
Qed.

(** C6, amended: building the table validates nothing.  It raises
    [IndexError] exactly when the matrix lacks an entry [matrix[i][j]] for
    some [i, j] below the number of locations; otherwise, whatever the
    signs of the weights and whatever further rows and columns the matrix
    has, it returns the table whose keys are the ordered pairs of
    locations, and for distinct location names the pair
    [(locations[i], locations[j])] is mapped to [matrix[i][j]]. *)
Theorem load_city_distances_spec (cities : list string)
    (matrix : list (list Z)) :
  (covers (length cities) matrix →
   ∃ d, load_city_distances cities matrix = Done d
        ∧ (∀ a b, is_Some (d !! (a, b)) ↔ a ∈ cities ∧ b ∈ cities)
        ∧ (NoDup cities →
           ∀ i j a b, cities !! i = Some a → cities !! j = Some b →
             ∃ row w, matrix !! i = Some row ∧ row !! j = Some w
                      ∧ d !! (a, b) = Some w))
  ∧ (¬ covers (length cities) matrix →
     load_city_distances cities matrix = Raise IndexError).
Proof.
  split.
  - intros Hcov. destruct (load_total cities matrix Hcov) as (d & Hd & Hkeys).
    exists d. split_and!; [done..|]. intros Hnd i j a b Ha Hb.
    destruct (load_rows_exact _ _ _ _ _ _ Hnd Hnd Hd) as [Hex _].
    by apply (Hex i a j b).
  - intros Hncov.
    destruct (load_rows_outcome matrix cities cities 0 ∅) as [[d Hd]|Hr]; [|done].
    exfalso. apply Hncov. intros i Hi.
    destruct cities as [|c0 cs] eqn:Hcs; [simpl in Hi; lia|]. rewrite -Hcs.
    rewrite -Hcs in Hd Hi.
    apply (load_rows_covers matrix cities cities 0 ∅ d); [by rewrite Hcs|done..].
Qed.

(** ** Degenerate location lists *)

Lemma hamiltonian_single (a : string) (t : list string) :
  hamiltonian_cycle [a] t → t = [a; a].
Proof.
  intros (q & c & -> & (_ & _ & _ & Hhc) & Hq & Hlen)%hamiltonian_closed.
  destruct q as [|x q]; [done|]. destruct q; [|done].
  simpl in *. by simplify_eq.
Qed.

Lemma single_total (a : string) (d : gmap (string * string) Z) (w : Z) :
  d !! (a, a) = Some w → total_table [a] d.
Proof.
  intros Hd x y ->%list_elem_of_singleton ->%list_elem_of_singleton. by eexists.
Qed.

Lemma single_result (a : string) (d : gmap (string * string) Z) bp v H :
  d !! (a, a) = Some 0 → Inv [a] d [] bp v H → bp = Some [a; a] ∧ v = 0.
Proof.
  intros Hd Hinv.
  assert (hamiltonian_cycle [a] [a; a]) as Ht.
  { apply closed_hamiltonian. exists [a], a. split_and!; try done.
    split_and!; [done|apply NoDup_singleton|done..]. }
  destruct (Inv_final_lower _ _ _ _ _ _ Hinv Ht) as (mj & Hmj & Hle).
  unfold running_max in Hmj. simpl in Hmj. rewrite Hd in Hmj. simpl in Hmj.
  injection Hmj as <-. simpl in Hle.
  destruct (Inv_final_best _ _ _ _ _ Hinv)
    as [[_ ->]|(p & -> & Hp & Hv & _)]; [done|].
  apply hamiltonian_single in Hp as ->.
  unfold running_max in Hv. simpl in Hv. rewrite Hd in Hv. simpl in Hv.
  by injection Hv as <-.
Qed.

(** With no location the three programs raise [IndexError] at
    [cities[0]]. *)
Lemma solve_empty_raises :
  BFS.bfs_tsp [] ∅ = Raise IndexError
  ∧ UCS.solve [] ∅ = Raise IndexError
  ∧ AStar.solve [] ∅ = Raise IndexError.
Proof. by split_and!. Qed.

(** C7, amended: with no location each of the three programs raises
    [IndexError] (at [cities[0]]); with a single location whose distance
    to itself is 0, each returns the tour [[loc, loc]] with bottleneck 0
    and raises nothing. *)
Theorem degenerate_locations (a : string) (d : gmap (string * string) Z) :
  d !! (a, a) = Some 0 →
  (BFS.bfs_tsp [] d = Raise IndexError
   ∧ UCS.solve [] d = Raise IndexError
   ∧ AStar.solve [] d = Raise IndexError)
  ∧ (BFS.bfs_tsp [a] d = Done (Some [a; a], 0)
     ∧ UCS.solve [a] d = Done (Some [a; a], 0)
     ∧ AStar.solve [a] d = Done (Some [a; a], 0)).
Proof.
  intros Hd. split; [by split_and!|].
  pose proof (single_total a d 0 Hd) as Htot.
  destruct (bfs_defined _ _ Htot a eq_refl) as [[p1 v1] H1].
  destruct (ucs_defined _ _ Htot a eq_refl) as [[p2 v2] H2].
  destruct (astar_defined _ _ Htot a eq_refl) as [[p3 v3] H3].
  rewrite H1 H2 H3.
  destruct (bfs_sound _ _ _ _ H1) as [? [-> ->]%single_result]; [|done].
  destruct (ucs_sound _ _ _ _ H2) as [? [-> ->]%single_result]; [|done].
  destruct (astar_sound _ _ _ _ H3) as [? [-> ->]%single_result]; [|done].
  done.
Qed.

Lemma degenerate_locations_witness :
  (BFS.bfs_tsp [] two_table = Raise IndexError
   ∧ UCS.solve [] two_table = Raise IndexError
   ∧ AStar.solve [] two_table = Raise IndexError)
  ∧ (BFS.bfs_tsp ["A"%string] two_table = Done (Some ["A"; "A"]%string, 0)
     ∧ UCS.solve ["A"%string] two_table = Done (Some ["A"; "A"]%string, 0)
     ∧ AStar.solve ["A"%string] two_table = Done (Some ["A"; "A"]%string, 0)).
Proof. apply degenerate_locations. vm_compute. reflexivity. Defined.

(** ** The key of the informed search *)

Lemma ones_table_loaded :
  load_city_distances abc_cities ones_matrix = Done ones_table.
Proof. vm_cast_no_check (eq_refl (Done ones_table)). Qed.

(** C8 at locations A, B, C with all weights 1: the entry for the path
    A, B, C is pushed with key 3, while the sum of its edge weights is 2
    and the heuristic at C over the candidates [C] is 0.  The key of a
    successor is the key of its parent plus the edge plus the heuristic,
    so the heuristic values of the ancestors stay in it. *)
Lemma astar_key_keeps_parent_heuristic :
  load_city_distances abc_cities ones_matrix = Done ones_table
  ∧ (st ← run (heappop AStar.entry_ltb) (AStar.iteration abc_cities ones_table)
            2 (AStar.init "A");
     Done (frontier st))
    = Done [(3, ["A"; "B"; "C"]%string, 1); (2, ["A"; "C"]%string, 1)]
  ∧ path_cost ones_table ["A"; "B"; "C"]%string = Some 2
  ∧ AStar.heuristic ones_table ["C"%string] "C" = Done 0.
Proof.
  split; [exact ones_table_loaded|].
  split_and!; vm_compute; reflexivity.
Qed.

(** What the code does: the key pushed for a successor is the key popped
    with its parent, plus the edge weight, plus the heuristic. *)
Lemma astar_explore_key (d : gmap (string * string) Z) (cost : Z)
    (c : string) (path : list string) (mj : Z) (remaining : list string)
    (x : string) (q q' : list AStar.entry) :
  AStar.explore d cost c path mj remaining x q = Done q' →
  ∃ w h, d !! (c, x) = Some w ∧ AStar.heuristic d remaining x = Done h
         ∧ q' = (cost + w + h, path ++ [x], Z.max mj w) :: q.
Proof.
  unfold AStar.explore, dict_get.
  destruct (d !! (c, x)) as [w|]; [|done]. cbn.
  destruct (AStar.heuristic d remaining x) as [h| |]; try done. cbn.
  intros [= <-]. by exists w, h.
Qed.

(** ** The order of the uniform-cost search *)

Lemma elem_of_rev {A : Type} (l : list A) (x : A) : x ∈ rev l ↔ x ∈ l.
Proof. rewrite !list_elem_of_In. symmetry. apply in_rev. Qed.

Lemma heappop_least {E : Type} (ltb : E → E → bool) (key : E → Z)
    (h : list E) (e : E) (rest : list E) :
  (∀ a b, ltb a b = true → key a ≤ key b) →
  (∀ a b, ltb a b = false → key b ≤ key a) →
  heappop ltb h = Some (e, rest) → Forall (λ x, key e ≤ key x) rest.
Proof.
  intros Hlt Hge. revert e rest. induction h as [|x h IH]; intros e rest; [done|].
  simpl. destruct (heappop ltb h) as [[m r]|] eqn:Hpop.
  - specialize (IH m r eq_refl). destruct (ltb m x) eqn:Hmx.
    + intros [= <- <-]. constructor; [by apply Hlt|done].
    + intros [= <- <-]. apply Hge in Hmx.
      rewrite (heappop_perm _ _ _ _ Hpop). constructor; [done|].
      eapply Forall_impl; [done|]. simpl. intros y Hy. lia.
  - intros [= <- <-]. constructor.
Qed.

Lemma ucs_entry_ltb_true (a b : UCS.entry) :
  UCS.entry_ltb a b = true → UCS.jump_of a ≤ UCS.jump_of b.
Proof.
  unfold UCS.entry_ltb, UCS.jump_of.
  destruct (Z.compare_spec a.1 b.1); [lia|lia|done].
Qed.

Lemma ucs_entry_ltb_false (a b : UCS.entry) :
  UCS.entry_ltb a b = false → UCS.jump_of b ≤ UCS.jump_of a.
Proof.
  unfold UCS.entry_ltb, UCS.jump_of.
  destruct (Z.compare_spec a.1 b.1); [lia|done|lia].
Qed.

Section ucs_order.
Variable cities : list string.
Variable distances : gmap (string * string) Z.

Lemma ucs_expand_monotone (l : string) (path : list string) (mj : Z)
    (rest : list UCS.entry) bp v (st' : state UCS.entry) :
  UCS.expand cities distances l path mj rest bp v = Done st' →
  Forall (λ e', e' ∈ rest ∨ mj ≤ UCS.jump_of e') (frontier st').
Proof.
  unfold UCS.expand.
  destruct (for_each _ cities rest) as [q'| |] eqn:Hfor; try done. cbn.
  intros [= <-]. simpl.
  apply (for_each_inv _
    (λ _ s, Forall (λ e', e' ∈ rest ∨ mj ≤ UCS.jump_of e') s)) in Hfor;
    [done| |].
  - apply Forall_forall. by left.
  - intros _ x s1 s2 Hs1. unfold UCS.explore, dict_get.
    destruct (UCS.allowed cities path x); [|by intros [= <-]].
    destruct (distances !! (l, x)) as [w|]; [|done]. cbn.
    destruct (negb _); [|by intros [= <-]].
    intros [= <-]. constructor; [|done]. right. unfold UCS.jump_of. simpl. lia.
Qed.

(** The entries pushed in an iteration carry at least the bottleneck of
    the entry popped. *)
Lemma ucs_iteration_monotone (e : UCS.entry) (rest : list UCS.entry) bp v
    (st' : state UCS.entry) :
  UCS.iteration cities distances e rest bp v = Done st' →
  Forall (λ e', e' ∈ rest ∨ UCS.jump_of e ≤ UCS.jump_of e') (frontier st').
Proof.
  destruct e as [mj path]. unfold UCS.jump_of. simpl.
  assert (Forall (λ e' : UCS.entry, e' ∈ rest ∨ mj ≤ e'.1) rest) as Hrest.
  { apply Forall_forall. by left. }
  destruct (py_last path) as [l| |]; try done. cbn.
  destruct (UCS.back_at_start cities path l) as [[|]| |]; try done; cbn.
  - destruct (bool_decide (len_set _ = _)).
    + case_bool_decide; by intros [= <-].
    + apply ucs_expand_monotone.
  - apply ucs_expand_monotone.
Qed.

Lemma ucs_pops_sorted (fuel : nat) (st : state UCS.entry) (lo : Z) :
  Forall (λ e, lo ≤ UCS.jump_of e) (frontier st) →
  Forall (λ e, lo ≤ UCS.jump_of e)
    (pops (heappop UCS.entry_ltb) (UCS.iteration cities distances) fuel st)
  ∧ StronglySorted (λ a b, UCS.jump_of a ≤ UCS.jump_of b)
      (pops (heappop UCS.entry_ltb) (UCS.iteration cities distances) fuel st).
Proof.
  revert st lo. induction fuel as [|fuel IH]; intros st lo Hlo; simpl.
  { split; constructor. }
  destruct (heappop UCS.entry_ltb (frontier st)) as [[e rest]|] eqn:Hpop.
  2: { split; constructor. }
  pose proof (heappop_least _ UCS.jump_of _ _ _
                ucs_entry_ltb_true ucs_entry_ltb_false Hpop) as Hleast.
  pose proof (heappop_perm _ _ _ _ Hpop) as Hperm.
  rewrite Hperm in Hlo. apply Forall_cons in Hlo as [Hloe _].
  destruct (UCS.iteration cities distances e rest _ _) as [st'| |] eqn:Hit.
  2,3: split; repeat constructor; done.
  destruct (IH st' (UCS.jump_of e)) as [Hall Hsorted].
  { pose proof (ucs_iteration_monotone _ _ _ _ _ Hit) as Hmono.
    rewrite Forall_forall in Hleast. rewrite Forall_forall in Hmono.
    apply Forall_forall. intros x Hx.
    destruct (Hmono x Hx) as [Hin|?]; [by apply Hleast|done]. }
  split.
  - constructor; [done|]. eapply Forall_impl; [done|]. simpl. intros; lia.
  - by constructor.
Qed.
End ucs_order.

(** The first complete entry popped need not carry the value returned:
    with weights not below [sys.maxsize] the record of the best tour is
    never replaced. *)
Lemma ucs_first_goal_not_returned :
  pops (heappop UCS.entry_ltb) (UCS.iteration two_cities huge_table)
    (fuel_for two_cities) (UCS.init "A")
  = [(0, ["A"]); (2 ^ 63, ["A"; "B"]); (2 ^ 63, ["A"; "B"; "A"])]%string
  ∧ UCS.complete two_cities ["A"; "B"; "A"]%string = true
  ∧ UCS.solve two_cities huge_table = Done (None, 2 ^ 63 - 1).
Proof. split_and!; vm_compute; reflexivity. Qed.

(** C9, amended: in the uniform-cost program the key of every entry of
    the frontier is the running bottleneck of its path, the entries pushed
    in an iteration carry at least the bottleneck of the entry popped, and
    the entries are popped in nondecreasing order of bottleneck.  Hence
    the first complete entry popped is a tour whose bottleneck is the
    least among all tours; and when that bottleneck is below
    [sys.maxsize] it is the value returned once the frontier is
    exhausted. *)
Theorem uniform_cost_order (cities : list string)
    (distances : gmap (string * string) Z) (c0 : string) :
  head cities = Some c0 →
  total_table cities distances →
  (∀ k st,
     run (heappop UCS.entry_ltb) (UCS.iteration cities distances) k
       (UCS.init c0) = Done st →
     Forall (λ e, running_max distances (UCS.path_of e) = Some (UCS.jump_of e))
       (frontier st))
  ∧ (∀ e rest bp v st',
       UCS.iteration cities distances e rest bp v = Done st' →
       Forall (λ e', e' ∈ rest ∨ UCS.jump_of e ≤ UCS.jump_of e') (frontier st'))
  ∧ StronglySorted (λ a b, UCS.jump_of a ≤ UCS.jump_of b)
      (pops (heappop UCS.entry_ltb) (UCS.iteration cities distances)
         (fuel_for cities) (UCS.init c0))
  ∧ (∀ pre e post,
       pops (heappop UCS.entry_ltb) (UCS.iteration cities distances)
         (fuel_for cities) (UCS.init c0) = pre ++ e :: post →
       Forall (λ x, UCS.complete cities (UCS.path_of x) = false) pre →
       UCS.complete cities (UCS.path_of e) = true →
       hamiltonian_cycle cities (UCS.path_of e)
       ∧ running_max distances (UCS.path_of e) = Some (UCS.jump_of e)
       ∧ (∀ t, hamiltonian_cycle cities t →
            ∃ b, running_max distances t = Some b ∧ UCS.jump_of e ≤ b)
       ∧ (nonneg_table distances →
          ∀ t, hamiltonian_cycle cities t →
            ∃ b, bottleneck distances t = Some b ∧ UCS.jump_of e ≤ b)
       ∧ (UCS.jump_of e < maxsize →
          ∃ p, UCS.solve cities distances = Done (Some p, UCS.jump_of e))).
Proof.
  intros Hhd Htot.
  set (trace := pops _ _ _ _).
  assert (StronglySorted (λ a b, UCS.jump_of a ≤ UCS.jump_of b) trace) as Hsorted.
  { apply (ucs_pops_sorted cities distances _ _ 0). by repeat constructor. }
  split_and!.
  - intros k st Hrun. eapply Forall_impl; [by eapply ucs_run_good|].
    by intros e [_ He].
  - apply ucs_iteration_monotone.
  - done.
  - intros pre e post Htrace Hpre Hce.
    destruct (ucs_defined _ _ Htot c0 Hhd) as [[bp v] Hsolve].
    pose proof Hsolve as Hw. unfold UCS.solve in Hw.
    rewrite (solve_start cities c0) // bind_Done in Hw.
    pose proof (while_sound cities distances _ _ ucs_node any_entry
                  (heappop_perm _) (heappop_none _)
                  (ucs_iteration_sound cities distances)
                  _ _ [] bp v (ucs_init_inv cities distances c0 Hhd) Hw) as Hinv.
    fold trace in Hinv. rewrite app_nil_r in Hinv.
    assert (∀ x, x ∈ trace → ucs_node x ∈ rev (ucs_node <$> trace)) as Hmem.
    { intros x Hx. rewrite elem_of_rev. by apply list_elem_of_fmap_2. }
    assert (∀ nd, nd ∈ rev (ucs_node <$> trace) →
                  ∃ x, x ∈ trace ∧ ucs_node x = nd) as Hmem'.
    { intros nd. rewrite elem_of_rev.
      intros (x & -> & Hx)%list_elem_of_fmap. by exists x. }
    pose proof Hinv as [_ Hpopped _ Hleast _ Hcover].
    rewrite Forall_forall in Hpopped.
    assert (e ∈ trace) as Hein.
    { rewrite Htrace. apply elem_of_app. right. left. }
    pose proof (Hpopped _ (Hmem e Hein)) as Hgood.
    assert (BFS.complete cities (UCS.path_of e) = true) as Hbc.
    { by rewrite -(ucs_complete_good cities distances _ (UCS.jump_of e)). }
    assert (∀ t, hamiltonian_cycle cities t →
              ∃ b, running_max distances t = Some b ∧ UCS.jump_of e ≤ b) as Hmin.
    { intros t Ht. destruct (Hcover t Ht) as [[mj Hin]|(? & []%elem_of_nil & _)].
      destruct (Hmem' _ Hin) as (x & Hx & Hnx).
      pose proof (Hpopped _ Hin) as [_ Hrun]. simpl in Hrun.
      exists mj. split; [done|].
      assert (UCS.path_of x = t ∧ UCS.jump_of x = mj) as [Hxp Hxj].
      { unfold ucs_node in Hnx. by injection Hnx. }
      rewrite Htrace in Hx Hsorted.
      apply elem_of_app in Hx as [Hx|Hx].
      - rewrite Forall_forall in Hpre. specialize (Hpre x Hx).
        assert (good_node cities distances (UCS.path_of x, UCS.jump_of x)) as Hgx.
        { rewrite Hxp Hxj. by apply Hpopped. }
        rewrite (ucs_complete_good cities distances _ _ Hgx) Hxp in Hpre.
        apply hamiltonian_closed, closed_complete in Ht. congruence.
      - apply StronglySorted_app_1_r in Hsorted.
        apply elem_of_cons in Hx as [->|Hx]; [lia|].
        apply StronglySorted_inv in Hsorted as [_ Hall].
        rewrite Forall_forall in Hall. rewrite -Hxj. by apply Hall. }
    split_and!.
    + by apply closed_hamiltonian, (good_closed _ distances _ (UCS.jump_of e)).
    + by destruct Hgood.
    + done.
    + intros Hnn t Ht. destruct (Hmin t Ht) as (b & Hb & Hle).
      exists b. split; [by apply running_max_bottleneck|done].
    + intros Hlt.
      assert (v ≤ UCS.jump_of e) as Hve.
      { apply (Hleast (UCS.path_of e)); [by apply Hmem|done]. }
      destruct (Inv_final_best _ _ _ _ _ Hinv)
        as [[_ ->]|(p & -> & Hp & Hv & _)]; [lia|].
      exists p. rewrite Hsolve. do 2 f_equal.
      destruct (Hmin p Hp) as (b & Hb & Hle). simplify_eq. lia.
Qed.

Lemma uniform_cost_order_witness :
  (∀ k st,
     run (heappop UCS.entry_ltb) (UCS.iteration two_cities two_table) k
       (UCS.init "A") = Done st →
     Forall (λ e, running_max two_table (UCS.path_of e) = Some (UCS.jump_of e))
       (frontier st))
  ∧ (∀ e rest bp v st',
       UCS.iteration two_cities two_table e rest bp v = Done st' →
       Forall (λ e', e' ∈ rest ∨ UCS.jump_of e ≤ UCS.jump_of e') (frontier st'))
  ∧ StronglySorted (λ a b, UCS.jump_of a ≤ UCS.jump_of b)
      (pops (heappop UCS.entry_ltb) (UCS.iteration two_cities two_table)
         (fuel_for two_cities) (UCS.init "A"))
  ∧ (∀ pre e post,
       pops (heappop UCS.entry_ltb) (UCS.iteration two_cities two_table)
         (fuel_for two_cities) (UCS.init "A") = pre ++ e :: post →
       Forall (λ x, UCS.complete two_cities (UCS.path_of x) = false) pre →
       UCS.complete two_cities (UCS.path_of e) = true →
       hamiltonian_cycle two_cities (UCS.path_of e)
       ∧ running_max two_table (UCS.path_of e) = Some (UCS.jump_of e)
       ∧ (∀ t, hamiltonian_cycle two_cities t →
            ∃ b, running_max two_table t = Some b ∧ UCS.jump_of e ≤ b)
       ∧ (nonneg_table two_table →
          ∀ t, hamiltonian_cycle two_cities t →
            ∃ b, bottleneck two_table t = Some b ∧ UCS.jump_of e ≤ b)
       ∧ (UCS.jump_of e < maxsize →
          ∃ p, UCS.solve two_cities two_table = Done (Some p, UCS.jump_of e))).
Proof. apply uniform_cost_order; [reflexivity|apply two_table_total]. Defined.

(** * Further properties of the programs *)

(** ** What is returned *)

Lemma hamiltonian_NoDup (cities t : list string) :
  hamiltonian_cycle cities t → NoDup cities.
Proof.
  intros (p & c & -> & Hop & _ & Hlen)%hamiltonian_closed.
  rewrite -(open_perm cities p Hop Hlen). apply Hop.
Qed.

Lemma cities_tour (cities : list string) (c0 : string) :
  head cities = Some c0 → NoDup cities →
  hamiltonian_cycle cities (cities ++ [c0]).
Proof.
  intros Hhd Hnd. apply closed_hamiltonian. exists cities, c0.
  split_and!; try done. split_and!; try done. by intros ->.
Qed.

Lemma edge_weights_below (d : gmap (string * string) Z) (bound : Z)
    (path : list string) (ws : list Z) :
  weights_below bound d → edge_weights d path = Some ws →
  Forall (λ w, w < bound) ws.
Proof.
  intros Hb. revert ws. induction path as [|a path IH]; intros ws.
  - intros [= <-]. constructor.
  - destruct path as [|b path]; [intros [= <-]; constructor|].
    rewrite edge_weights_cons2.
    destruct (d !! (a, b)) as [w|] eqn:Hw; [|done].
    destruct (edge_weights d (b :: path)) as [ws'|]; [|done].
    cbn. intros [= <-]. constructor; [by eapply Hb|by apply IH].
Qed.

Lemma running_max_below (d : gmap (string * string) Z) (bound : Z)
    (path : list string) (mj : Z) :
  weights_below bound d → 0 < bound → running_max d path = Some mj →
  mj < bound.
Proof.
  intros Hb Hpos. unfold running_max.
  destruct (edge_weights d path) as [ws|] eqn:Hws; [|done].
  simpl. intros [= <-]. apply (edge_weights_below _ _ _ _ Hb) in Hws.
  assert (∀ x, x < bound → foldl Z.max x ws < bound) as Hfold.
  { induction Hws as [|w ws Hw _ IH]; [done|]. intros x Hx. simpl.
    apply IH. lia. }
  by apply Hfold.
Qed.

Lemma solve_cases (cities : list string) (d : gmap (string * string) Z) bp v :
  BFS.bfs_tsp cities d = Done (bp, v)
  ∨ UCS.solve cities d = Done (bp, v)
  ∨ AStar.solve cities d = Done (bp, v) →
  ∃ H, Inv cities d [] bp v H.
Proof.
  intros [H|[H|H]];
    [by apply bfs_sound|by apply ucs_sound|by apply astar_sound].
Qed.

(** Whatever the table, a result of any of the three programs is either
    [(None, sys.maxsize)] or a tour with its bottleneck: a sequence of
    [len(cities) + 1] locations that starts and ends at [cities[0]] and
    visits every location once, with a bottleneck below [sys.maxsize] that
    is the running maximum of its edge weights. *)
Theorem solve_returns_tour (cities : list string)
    (d : gmap (string * string) Z) (bp : option (list string)) (v : Z) :
  BFS.bfs_tsp cities d = Done (bp, v)
  ∨ UCS.solve cities d = Done (bp, v)
  ∨ AStar.solve cities d = Done (bp, v) →
  (bp = None ∧ v = maxsize)
  ∨ (∃ p, bp = Some p ∧ hamiltonian_cycle cities p
          ∧ running_max d p = Some v ∧ v < maxsize).
Proof.
  intros [H Hinv]%solve_cases. by eapply Inv_final_best.
Qed.

Lemma solve_returns_tour_witness :
  (Some ["A"; "B"; "A"]%string = None ∧ 5 = maxsize)
  ∨ (∃ p, Some ["A"; "B"; "A"]%string = Some p
          ∧ hamiltonian_cycle two_cities p
          ∧ running_max two_table p = Some 5 ∧ 5 < maxsize).
Proof.
  apply (solve_returns_tour two_cities two_table). left.
  vm_compute. reflexivity.
Defined.

(** A location name that occurs twice leaves no tour to find: with a total
    table each of the three programs returns [(None, sys.maxsize)]. *)
Theorem repeated_name_no_tour (cities : list string)
    (d : gmap (string * string) Z) :
  ¬ NoDup cities →
  total_table cities d →
  BFS.bfs_tsp cities d = Done (None, maxsize)
  ∧ UCS.solve cities d = Done (None, maxsize)
  ∧ AStar.solve cities d = Done (None, maxsize).
Proof.
  intros Hdup Htot.
  destruct cities as [|c0 cs] eqn:Hcs; [by destruct Hdup; constructor|].
  rewrite -Hcs. rewrite -Hcs in Htot Hdup.
  assert (head cities = Some c0) as Hhd by by rewrite Hcs.
  clear Hcs.
  assert (∀ bp v H, Inv cities d [] bp v H → (bp, v) = (None, maxsize)) as Hnone.
  { intros bp v H Hinv.
    destruct (Inv_final_best _ _ _ _ _ Hinv) as [[-> ->]|(p & _ & Hp & _)];
      [done|]. by apply hamiltonian_NoDup in Hp. }
  destruct (bfs_defined _ _ Htot c0 Hhd) as [[p1 v1] H1].
  destruct (ucs_defined _ _ Htot c0 Hhd) as [[p2 v2] H2].
  destruct (astar_defined _ _ Htot c0 Hhd) as [[p3 v3] H3].
  rewrite H1 H2 H3.
  destruct (bfs_sound _ _ _ _ H1) as [? ->%Hnone].
  destruct (ucs_sound _ _ _ _ H2) as [? ->%Hnone].
  by destruct (astar_sound _ _ _ _ H3) as [? ->%Hnone].
Qed.

Lemma repeated_name_no_tour_witness :
  BFS.bfs_tsp ["A"; "A"]%string two_table = Done (None, maxsize)
  ∧ UCS.solve ["A"; "A"]%string two_table = Done (None, maxsize)
  ∧ AStar.solve ["A"; "A"]%string two_table = Done (None, maxsize).
Proof.
  apply repeated_name_no_tour.
  - intros Hnd. apply NoDup_cons in Hnd as [Hnin _]. apply Hnin. left.
  - apply total_table_check. apply (bool_decide_unpack _). vm_compute. exact I.
Defined.

(** With distinct location names, a total table and all weights below
    [sys.maxsize], each of the three programs returns a tour (never
    [None]), and the three bottlenecks are equal. *)
Theorem distinct_names_tour_found (cities : list string)
    (d : gmap (string * string) Z) :
  cities ≠ [] →
  NoDup cities →
  total_table cities d →
  weights_below maxsize d →
  ∃ p1 p2 p3 v,
    BFS.bfs_tsp cities d = Done (Some p1, v)
    ∧ UCS.solve cities d = Done (Some p2, v)
    ∧ AStar.solve cities d = Done (Some p3, v)
    ∧ v < maxsize.
Proof.
  intros Hne Hnd Htot Hbelow.
  destruct cities as [|c0 cs] eqn:Hcs; [done|].
  rewrite -Hcs. rewrite -Hcs in Htot Hnd.
  assert (head cities = Some c0) as Hhd by by rewrite Hcs.
  clear Hcs Hne.
  pose proof (cities_tour cities c0 Hhd Hnd) as Ht.
  assert (∀ bp v H, Inv cities d [] bp v H →
            ∃ p, bp = Some p ∧ v < maxsize) as Hsome.
  { intros bp v H Hinv.
    destruct (Inv_final_lower _ _ _ _ _ _ Hinv Ht) as (mj & Hmj & Hle).
    apply (running_max_below _ maxsize) in Hmj; [|done..].
    destruct (Inv_final_best _ _ _ _ _ Hinv) as [[_ ->]|(p & -> & _)]; [lia|].
    exists p. split; [done|lia]. }
  destruct (bfs_defined _ _ Htot c0 Hhd) as [[p1 v1] H1].
  destruct (ucs_defined _ _ Htot c0 Hhd) as [[p2 v2] H2].
  destruct (astar_defined _ _ Htot c0 Hhd) as [[p3 v3] H3].
  destruct (bfs_sound _ _ _ _ H1) as [? I1].
  destruct (ucs_sound _ _ _ _ H2) as [? I2].
  destruct (astar_sound _ _ _ _ H3) as [? I3].
  pose proof (Inv_final_unique _ _ _ _ _ _ _ _ I1 I2) as <-.
  pose proof (Inv_final_unique _ _ _ _ _ _ _ _ I1 I3) as <-.
  destruct (Hsome _ _ _ I1) as (q1 & -> & Hlt).
  destruct (Hsome _ _ _ I2) as (q2 & -> & _).
  destruct (Hsome _ _ _ I3) as (q3 & -> & _).
  by exists q1, q2, q3, v1.
Qed.

Lemma two_table_below : weights_below maxsize two_table.
Proof. apply (bool_decide_unpack _). vm_compute. exact I. Qed.

Lemma distinct_names_tour_found_witness :
  ∃ p1 p2 p3 v,
    BFS.bfs_tsp two_cities two_table = Done (Some p1, v)
    ∧ UCS.solve two_cities two_table = Done (Some p2, v)
    ∧ AStar.solve two_cities two_table = Done (Some p3, v)
    ∧ v < maxsize.
Proof.
  apply distinct_names_tour_found.
  - discriminate.
  - apply (bool_decide_unpack _). vm_compute. exact I.
  - apply two_table_total.
  - apply two_table_below.
Defined.

(** ** The errors that can be raised *)

Lemma for_each_outcome {A S : Type} (f : A → S → outcome S)
    (l : list A) (s : S) :
  (∀ x s1, x ∈ l → (∃ s2, f x s1 = Done s2) ∨ f x s1 = Raise KeyError) →
  (∃ s', for_each f l s = Done s') ∨ for_each f l s = Raise KeyError.
Proof.
  revert s. induction l as [|x l IH]; intros s Hf; simpl; [left; by eexists|].
  destruct (Hf x s) as [[s1 ->]| ->]; [left| |by right]. cbn.
  apply IH. intros y s2 Hy. apply Hf. by right.
Qed.

Section loop_outcome.
Context {E : Type}.
Variable cities : list string.
Variable distances : gmap (string * string) Z.
Variable pop : list E → option (E * list E).
Variable iteration : E → list E → option (list string) → Z → outcome (state E).
Variable proj : E → node.
Variable ok : E → Prop.

Hypothesis pop_perm : ∀ fr e rest, pop fr = Some (e, rest) → fr ≡ₚ e :: rest.
Hypothesis iteration_sound : ∀ e rest bp v st',
  ok e → good_node cities distances (proj e) →
  iteration e rest bp v = Done st' →
  iteration_spec cities distances proj ok e rest bp v st'.
Hypothesis iteration_outcome : ∀ e rest bp v,
  ok e → good_node cities distances (proj e) →
  (∃ st', iteration e rest bp v = Done st')
  ∨ iteration e rest bp v = Raise KeyError.

(** Whatever the table, the loop ends: in a result or in a [KeyError]. *)
Lemma while_outcome (fuel : nat) (st : state E) (H : list node) :
  state_inv cities distances proj ok st H →
  (measure cities (proj <$> frontier st) < fuel)%nat →
  (∃ r, while pop iteration fuel st = Done r)
  ∨ while pop iteration fuel st = Raise KeyError.
Proof.
  revert st H. induction fuel as [|fuel IH]; intros st H Hinv Hlt; [lia|].
  simpl. destruct (pop (frontier st)) as [[e rest]|] eqn:Hpop;
    [|left; by eexists].
  assert (ok e ∧ good_node cities distances (proj e)) as [Hoke Hgood].
  { destruct Hinv as [Hok [Hfr _ _ _ _ _]]. pose proof (pop_perm _ _ _ Hpop) as Hp.
    rewrite Hp in Hok. rewrite Hp fmap_cons in Hfr.
    apply Forall_cons in Hok as [? _]. by apply Forall_cons in Hfr as [? _]. }
  destruct (iteration_outcome e rest (best_path st) (min_max_jump st) Hoke Hgood)
    as [[st1 Hit]|Hit]; rewrite Hit; [|by right]. cbn.
  destruct (iteration_inv cities distances pop iteration proj ok pop_perm
              iteration_sound st st1 H e rest Hinv Hpop Hit) as [Hinv1 Hdec].
  apply (IH st1 (proj e :: H)); [done|lia].
Qed.

(** A loop that returns has run its first iteration without error. *)
Lemma while_first (fuel : nat) (st : state E) (e : E) (rest : list E) r :
  while pop iteration fuel st = Done r →
  pop (frontier st) = Some (e, rest) →
  ∃ st', iteration e rest (best_path st) (min_max_jump st) = Done st'.
Proof.
  destruct fuel as [|fuel]; [done|]. simpl. intros Hw Hpop.
  rewrite Hpop in Hw. destruct (iteration e rest _ _); try done. by eexists.
Qed.
End loop_outcome.

Section outcomes.
Variable cities : list string.
Variable distances : gmap (string * string) Z.

Lemma bfs_iteration_outcome (e : BFS.entry) (rest : list BFS.entry) bp v :
  bfs_ok e → good_node cities distances (bfs_node e) →
  (∃ st', BFS.iteration cities distances e rest bp v = Done st')
  ∨ BFS.iteration cities distances e rest bp v = Raise KeyError.
Proof.
  destruct e as [[c path] mj]. unfold bfs_ok, bfs_node, BFS.path_of,
    BFS.jump_of. simpl. intros Hl Hgood.
  destruct (BFS.complete cities path) eqn:Hc.
  - left. case_bool_decide; by eexists.
  - pose proof (good_open _ _ _ _ Hgood Hc) as Hop.
    destruct (for_each_outcome (BFS.explore cities distances c path mj)
                cities rest) as [[q' ->]| ->]; [|left; by eexists|by right].
    intros x s1 Hx. unfold BFS.explore.
    destruct (BFS.allowed cities path x); [|left; by eexists].
    unfold dict_get. destruct (distances !! (c, x)); [|by right]. cbn.
    destruct (open_head _ _ Hop) as (c0 & Hh & _).
    unfold py_head, list_get. rewrite -head_lookup Hh. cbn.
    left. destruct (negb _); by eexists.
Qed.

Lemma ucs_iteration_outcome (e : UCS.entry) (rest : list UCS.entry) bp v :
  any_entry e → good_node cities distances (ucs_node e) →
  (∃ st', UCS.iteration cities distances e rest bp v = Done st')
  ∨ UCS.iteration cities distances e rest bp v = Raise KeyError.
Proof.
  intros _ Hgood. pose proof (ucs_complete_good _ _ _ _ Hgood) as Hcc.
  destruct (BFS.complete cities (UCS.path_of e)) eqn:Hc.
  - pose proof (ucs_iteration_complete cities distances e rest bp v Hcc) as ->.
    left. by eexists.
  - pose proof (good_open _ _ _ _ Hgood Hc) as Hop.
    destruct (open_head _ _ Hop) as (c0 & Hh & Hhc & _).
    destruct (last (UCS.path_of e)) as [l|] eqn:Hl.
    2: { apply last_None in Hl. destruct Hop as [Hne _]. done. }
    pose proof (ucs_iteration_incomplete cities distances e rest bp v l c0
                  Hcc Hl Hhc) as ->.
    unfold UCS.expand.
    destruct (for_each_outcome
                (UCS.explore cities distances l (UCS.path_of e) (UCS.jump_of e))
                cities rest) as [[q' ->]| ->]; [|left; by eexists|by right].
    intros x s1 Hx. unfold UCS.explore.
    destruct (UCS.allowed cities _ x); [|left; by eexists].
    unfold dict_get. destruct (distances !! (l, x)); [|by right]. cbn.
    left. destruct (negb _); by eexists.
Qed.

Lemma heuristic_outcome (remaining : list string) (x : string) :
  (∃ h, AStar.heuristic distances remaining x = Done h)
  ∨ AStar.heuristic distances remaining x = Raise KeyError.
Proof.
  unfold AStar.heuristic.
  destruct (for_each_outcome
              (λ (city : string) (acc : list Z),
                 w ← dict_get distances x city; Done (acc ++ [w]))
              (filter (λ city : string, city ≠ x) remaining) [])
    as [[ds ->]| ->]; [|left; by eexists|by right].
  intros y acc _. unfold dict_get.
  destruct (distances !! (x, y)); [left; by eexists|by right].
Qed.

Lemma astar_iteration_outcome (e : AStar.entry) (rest : list AStar.entry)
    bp v :
  any_entry e → good_node cities distances (astar_node e) →
  (∃ st', AStar.iteration cities distances e rest bp v = Done st')
  ∨ AStar.iteration cities distances e rest bp v = Raise KeyError.
Proof.
  destruct e as [[cost path] mj]. unfold astar_node, AStar.path_of,
    AStar.jump_of. simpl. intros _ Hgood.
  destruct (last path) as [l|] eqn:Hlast.
  2: { apply last_None in Hlast. subst path.
       destruct Hgood as [[[? _]|(p & c & Heq & _)] _]; [done|].
       by destruct p. }
  unfold py_last. rewrite Hlast. cbn.
  destruct (AStar.complete cities path).
  - left. case_bool_decide; by eexists.
  - set (remaining := filter _ cities).
    destruct (for_each_outcome
                (AStar.explore distances cost l path mj remaining)
                remaining rest) as [[q' ->]| ->]; [|left; by eexists|by right].
    intros x s1 _. unfold AStar.explore, dict_get.
    destruct (distances !! (l, x)); [|by right]. cbn.
    destruct (heuristic_outcome remaining x) as [[h ->]| ->]; [|by right].
    left. by eexists.
Qed.

Lemma init_measure (c0 : string) :
  (measure cities [([c0], 0%Z)] < fuel_for cities)%nat.
Proof. rewrite /measure /= init_weight /fuel_for. lia. Qed.
End outcomes.

Lemma bfs_outcome (cities : list string) (d : gmap (string * string) Z)
    (c0 : string) :
  head cities = Some c0 →
  (∃ r, BFS.bfs_tsp cities d = Done r) ∨ BFS.bfs_tsp cities d = Raise KeyError.
Proof.
  intros Hhd. unfold BFS.bfs_tsp. rewrite (solve_start cities c0) // bind_Done.
  eapply (while_outcome cities d popleft _ bfs_node bfs_ok);
    [apply @popleft_perm|apply bfs_iteration_sound
    |apply bfs_iteration_outcome|by apply bfs_init_inv|apply init_measure].
Qed.

Lemma ucs_outcome (cities : list string) (d : gmap (string * string) Z)
    (c0 : string) :
  head cities = Some c0 →
  (∃ r, UCS.solve cities d = Done r) ∨ UCS.solve cities d = Raise KeyError.
Proof.
  intros Hhd. unfold UCS.solve. rewrite (solve_start cities c0) // bind_Done.
  eapply (while_outcome cities d _ _ ucs_node any_entry);
    [apply heappop_perm|apply ucs_iteration_sound
    |apply ucs_iteration_outcome|by apply ucs_init_inv|apply init_measure].
Qed.

Lemma astar_outcome (cities : list string) (d : gmap (string * string) Z)
    (c0 : string) :
  head cities = Some c0 →
  (∃ r, AStar.solve cities d = Done r) ∨ AStar.solve cities d = Raise KeyError.
Proof.
  intros Hhd. unfold AStar.solve. rewrite (solve_start cities c0) // bind_Done.
  eapply (while_outcome cities d _ _ astar_node any_entry);
    [apply heappop_perm|apply astar_iteration_sound
    |apply astar_iteration_outcome|by apply astar_init_inv|apply init_measure].
Qed.

(** For a non-empty list of cities and any table at all, each of the
    three programs either returns a result or raises [KeyError]: the
    search always ends, and no [IndexError] comes out of it. *)
Theorem only_key_errors (cities : list string)
    (d : gmap (string * string) Z) :
  cities ≠ [] →
  ((∃ r, BFS.bfs_tsp cities d = Done r) ∨ BFS.bfs_tsp cities d = Raise KeyError)
  ∧ ((∃ r, UCS.solve cities d = Done r) ∨ UCS.solve cities d = Raise KeyError)
  ∧ ((∃ r, AStar.solve cities d = Done r)
     ∨ AStar.solve cities d = Raise KeyError).
Proof.
  intros Hne. destruct cities as [|c0 cs] eqn:Hcs; [done|]. rewrite -Hcs.
  assert (head cities = Some c0) as Hhd by by rewrite Hcs.
  split_and!; [by eapply bfs_outcome|by eapply ucs_outcome|by eapply astar_outcome].
Qed.

Lemma only_key_errors_witness :
  ((∃ r, BFS.bfs_tsp two_cities ∅ = Done r)
   ∨ BFS.bfs_tsp two_cities ∅ = Raise KeyError)
  ∧ ((∃ r, UCS.solve two_cities ∅ = Done r)
     ∨ UCS.solve two_cities ∅ = Raise KeyError)
  ∧ ((∃ r, AStar.solve two_cities ∅ = Done r)
     ∨ AStar.solve two_cities ∅ = Raise KeyError).
Proof. apply only_key_errors. discriminate. Defined.

Lemma first_lookup {E : Type} (cities : list string)
    (d : gmap (string * string) Z) (proj : E → node) (ok : E → Prop)
    (e : E) (rest : list E) bp v (st' : state E) (c0 c : string) :
  iteration_spec cities d proj ok e rest bp v st' →
  (proj e).1 = [c0] → head cities = Some c0 → c ∈ cities → c ≠ c0 →
  is_Some (d !! (c0, c)).
Proof.
  intros Hspec Hp Hhd Hc Hne. unfold iteration_spec in Hspec. rewrite !Hp in Hspec.
  destruct Hspec as [[Hcomp _]|(_ & l & kids & Hl & Hk & _)].
  - unfold BFS.complete in Hcomp. apply andb_prop in Hcomp as [Hlen _].
    apply bool_decide_eq_true in Hlen. destruct cities; simplify_eq/=.
  - injection Hl as <-.
    assert (c ∈ filter (λ c', BFS.allowed cities [c0] c' = true) cities) as Hin.
    { apply list_elem_of_filter. split; [|done]. unfold BFS.allowed.
      assert (inb c [c0] = false) as ->; [|done].
      apply inb_false. by intros ->%list_elem_of_singleton. }
    destruct (Forall2_elem_l _ _ _ _ Hk Hin) as (k & _ & w & Hw & _).
    by exists w.
Qed.

(** A missing entry for a pair [(cities[0], c)], with [c] another city of
    the list, makes each of the three programs raise [KeyError]. *)
Theorem missing_key_raises (cities : list string)
    (d : gmap (string * string) Z) (c0 c : string) :
  head cities = Some c0 →
  c ∈ cities →
  c ≠ c0 →
  d !! (c0, c) = None →
  BFS.bfs_tsp cities d = Raise KeyError
  ∧ UCS.solve cities d = Raise KeyError
  ∧ AStar.solve cities d = Raise KeyError.
Proof.
  intros Hhd Hc Hne Hnone.
  assert (¬ is_Some (d !! (c0, c))) as Hno by (rewrite Hnone; by intros [? ?]).
  pose proof (bfs_outcome cities d c0 Hhd) as H1.
  pose proof (ucs_outcome cities d c0 Hhd) as H2.
  pose proof (astar_outcome cities d c0 Hhd) as H3.
  split_and!.
  - destruct H1 as [[r Hr]|?]; [exfalso|done]. unfold BFS.bfs_tsp in Hr.
    rewrite (solve_start cities c0) // bind_Done in Hr.
    destruct (while_first _ _ _ _ (c0, [c0], 0) [] _ Hr eq_refl) as [st' Hit].
    apply bfs_iteration_sound in Hit;
      [|done|by destruct (bfs_init_inv cities d c0 Hhd)
                 as [_ [[? _]%Forall_cons _ _ _ _ _]]].
    by apply (first_lookup _ _ _ _ _ _ _ _ _ c0 c) in Hit.
  - destruct H2 as [[r Hr]|?]; [exfalso|done]. unfold UCS.solve in Hr.
    rewrite (solve_start cities c0) // bind_Done in Hr.
    destruct (while_first _ _ _ _ (0, [c0]) [] _ Hr eq_refl) as [st' Hit].
    apply ucs_iteration_sound in Hit;
      [|done|by destruct (ucs_init_inv cities d c0 Hhd)
                 as [_ [[? _]%Forall_cons _ _ _ _ _]]].
    by apply (first_lookup _ _ _ _ _ _ _ _ _ c0 c) in Hit.
  - destruct H3 as [[r Hr]|?]; [exfalso|done]. unfold AStar.solve in Hr.
    rewrite (solve_start cities c0) // bind_Done in Hr.
    destruct (while_first _ _ _ _ (0, [c0], 0) [] _ Hr eq_refl) as [st' Hit].
    apply astar_iteration_sound in Hit;
      [|done|by destruct (astar_init_inv cities d c0 Hhd)
                 as [_ [[? _]%Forall_cons _ _ _ _ _]]].
    by apply (first_lookup _ _ _ _ _ _ _ _ _ c0 c) in Hit.
Qed.

Lemma missing_key_raises_witness :
  BFS.bfs_tsp two_cities ∅ = Raise KeyError
  ∧ UCS.solve two_cities ∅ = Raise KeyError
  ∧ AStar.solve two_cities ∅ = Raise KeyError.
Proof.
  apply (missing_key_raises two_cities ∅ "A" "B");
    [reflexivity|by apply (bool_decide_unpack _)|discriminate|reflexivity].
Defined.

(** ** The entries of the table that are read *)

Lemma for_each_ext {A S : Type} (f g : A → S → outcome S) (l : list A) (s : S) :
  (∀ x s1, x ∈ l → f x s1 = g x s1) → for_each f l s = for_each g l s.
Proof.
  revert s. induction l as [|x l IH]; intros s Hfg; simpl; [done|].
  rewrite Hfg; [left|]. destruct (g x s); try done. cbn.
  apply IH. intros y s1 Hy. apply Hfg. by right.
Qed.

Section loop_ext.
Context {E : Type}.
Variable cities : list string.
Variable distances : gmap (string * string) Z.
Variable pop : list E → option (E * list E).
Variables iteration iteration' :
  E → list E → option (list string) → Z → outcome (state E).
Variable proj : E → node.
Variable ok : E → Prop.

Hypothesis pop_perm : ∀ fr e rest, pop fr = Some (e, rest) → fr ≡ₚ e :: rest.
Hypothesis iteration_sound : ∀ e rest bp v st',
  ok e → good_node cities distances (proj e) →
  iteration e rest bp v = Done st' →
  iteration_spec cities distances proj ok e rest bp v st'.
Hypothesis iteration_agree : ∀ e rest bp v,
  ok e → good_node cities distances (proj e) →
  iteration e rest bp v = iteration' e rest bp v.

(** Two loop bodies that agree on the entries of the search give the same
    loop. *)
Lemma while_ext (fuel : nat) (st : state E) (H : list node) :
  state_inv cities distances proj ok st H →
  while pop iteration fuel st = while pop iteration' fuel st.
Proof.
  revert st H. induction fuel as [|fuel IH]; intros st H Hinv; [done|].
  simpl. destruct (pop (frontier st)) as [[e rest]|] eqn:Hpop; [|done].
  assert (ok e ∧ good_node cities distances (proj e)) as [Hoke Hgood].
  { destruct Hinv as [Hok [Hfr _ _ _ _ _]]. pose proof (pop_perm _ _ _ Hpop) as Hp.
    rewrite Hp in Hok. rewrite Hp fmap_cons in Hfr.
    apply Forall_cons in Hok as [? _]. by apply Forall_cons in Hfr as [? _]. }
  rewrite -(iteration_agree e rest _ _ Hoke Hgood).
  destruct (iteration e rest _ _) as [st1| |] eqn:Hit; try done. cbn.
  apply (IH st1 (proj e :: H)).
  by eapply (iteration_inv cities distances pop iteration proj ok pop_perm
               iteration_sound st st1 H e rest).
Qed.
End loop_ext.

Section other_pairs.
Variable cities : list string.
Variables d d' : gmap (string * string) Z.
Hypothesis Hlen : (2 ≤ length cities)%nat.
Hypothesis Hagree :
  ∀ a b, a ∈ cities → b ∈ cities → a ≠ b → d !! (a, b) = d' !! (a, b).

(** With at least two cities, an allowed candidate is never the city the
    path ends at. *)
Lemma allowed_not_last (path : list string) (l x : string) :
  open_path cities path → last path = Some l →
  BFS.allowed cities path x = true → x ≠ l.
Proof.
  intros Hop Hl Hal ->. pose proof Hop as (_ & Hnd & _ & _).
  unfold BFS.allowed in Hal. apply orb_prop in Hal as [Hnew|Hback].
  - apply negb_true_iff, inb_false in Hnew. apply Hnew.
    apply last_Some in Hl as [p ->]. apply elem_of_app. right. left.
  - apply andb_prop in Hback as [Hh Hall].
    apply bool_decide_eq_true in Hh, Hall.
    rewrite len_set_NoDup // in Hall.
    pose proof (NoDup_head_last path l Hnd Hh Hl). lia.
Qed.

Lemma dict_get_agree (l x : string) :
  l ∈ cities → x ∈ cities → x ≠ l → dict_get d l x = dict_get d' l x.
Proof.
  intros Hl Hx Hne. unfold dict_get.
  assert (l ≠ x) as Hne' by (by intros ->).
  by rewrite (Hagree l x Hl Hx Hne').
Qed.

Lemma bfs_iteration_agree (e : BFS.entry) (rest : list BFS.entry) bp v :
  bfs_ok e → good_node cities d (bfs_node e) →
  BFS.iteration cities d e rest bp v = BFS.iteration cities d' e rest bp v.
Proof.
  destruct e as [[c path] mj]. unfold bfs_ok, bfs_node, BFS.path_of,
    BFS.jump_of. simpl. intros Hl Hgood.
  destruct (BFS.complete cities path) eqn:Hc; [done|].
  pose proof (good_open _ _ _ _ Hgood Hc) as Hop.
  rewrite (for_each_ext (BFS.explore cities d c path mj)
             (BFS.explore cities d' c path mj)); [|done].
  intros x s1 Hx. unfold BFS.explore.
  destruct (BFS.allowed cities path x) eqn:Hal; [|done].
  rewrite dict_get_agree //; [by eapply open_last_in|by eapply allowed_not_last].
Qed.

Lemma ucs_iteration_agree (e : UCS.entry) (rest : list UCS.entry) bp v :
  any_entry e → good_node cities d (ucs_node e) →
  UCS.iteration cities d e rest bp v = UCS.iteration cities d' e rest bp v.
Proof.
  intros _ Hgood. pose proof (ucs_complete_good _ _ _ _ Hgood) as Hcc.
  destruct (BFS.complete cities (UCS.path_of e)) eqn:Hc.
  - by rewrite !ucs_iteration_complete.
  - pose proof (good_open _ _ _ _ Hgood Hc) as Hop.
    destruct (open_head _ _ Hop) as (c0 & Hh & Hhc & _).
    destruct (last (UCS.path_of e)) as [l|] eqn:Hl.
    2: { apply last_None in Hl. destruct Hop as [Hne _]. done. }
    rewrite !(ucs_iteration_incomplete _ _ _ _ _ _ l c0) //.
    unfold UCS.expand.
    rewrite (for_each_ext
               (UCS.explore cities d l (UCS.path_of e) (UCS.jump_of e))
               (UCS.explore cities d' l (UCS.path_of e) (UCS.jump_of e)));
      [|done].
    intros x s1 Hx. unfold UCS.explore.
    rewrite ucs_allowed_open //.
    destruct (BFS.allowed cities (UCS.path_of e) x) eqn:Hal; [|done].
    rewrite dict_get_agree //; [by eapply open_last_in|by eapply allowed_not_last].
Qed.

Lemma heuristic_agree (remaining : list string) (x : string) :
  x ∈ cities → remaining ⊆ cities →
  AStar.heuristic d remaining x = AStar.heuristic d' remaining x.
Proof.
  intros Hx Hsub. unfold AStar.heuristic.
  rewrite (for_each_ext
             (λ (city : string) (acc : list Z),
                w ← dict_get d x city; Done (acc ++ [w]))
             (λ (city : string) (acc : list Z),
                w ← dict_get d' x city; Done (acc ++ [w]))); [|done].
  intros y acc [Hne Hy]%list_elem_of_filter.
  rewrite dict_get_agree //. by apply Hsub.
Qed.

Lemma astar_iteration_agree (e : AStar.entry) (rest : list AStar.entry) bp v :
  any_entry e → good_node cities d (astar_node e) →
  AStar.iteration cities d e rest bp v = AStar.iteration cities d' e rest bp v.
Proof.
  destruct e as [[cost path] mj]. unfold astar_node, AStar.path_of,
    AStar.jump_of. simpl. intros _ Hgood.
  destruct (py_last path) as [l| |] eqn:Hpl; try done. cbn.
  unfold py_last in Hpl. destruct (last path) as [l'|] eqn:Hlast; [|done].
  injection Hpl as ->.
  change (AStar.complete cities path) with (BFS.complete cities path).
  destruct (BFS.complete cities path) eqn:Hc; [done|].
  pose proof (good_open _ _ _ _ Hgood Hc) as Hop.
  set (remaining := filter _ cities).
  assert (remaining ⊆ cities) as Hsub.
  { intros x [_ Hx]%list_elem_of_filter. done. }
  rewrite (for_each_ext (AStar.explore d cost l path mj remaining)
             (AStar.explore d' cost l path mj remaining)); [|done].
  intros x s1 Hx. pose proof Hx as [Hal Hxc]%list_elem_of_filter.
  unfold AStar.explore.
  rewrite dict_get_agree //; [by eapply open_last_in|by eapply allowed_not_last|].
  by rewrite heuristic_agree.
Qed.

Lemma bfs_agree : BFS.bfs_tsp cities d = BFS.bfs_tsp cities d'.
Proof.
  unfold BFS.bfs_tsp. destruct (head cities) as [c0|] eqn:Hhd.
  - rewrite (solve_start cities c0) // !bind_Done.
    eapply (while_ext cities d popleft _ _ bfs_node bfs_ok);
      [apply @popleft_perm|apply bfs_iteration_sound
      |apply bfs_iteration_agree|by apply bfs_init_inv].
  - destruct cities; [done|simplify_eq/=].
Qed.

Lemma ucs_agree : UCS.solve cities d = UCS.solve cities d'.
Proof.
  unfold UCS.solve. destruct (head cities) as [c0|] eqn:Hhd.
  - rewrite (solve_start cities c0) // !bind_Done.
    eapply (while_ext cities d _ _ _ ucs_node any_entry);
      [apply heappop_perm|apply ucs_iteration_sound
      |apply ucs_iteration_agree|by apply ucs_init_inv].
  - destruct cities; [done|simplify_eq/=].
Qed.

Lemma astar_agree : AStar.solve cities d = AStar.solve cities d'.
Proof.
  unfold AStar.solve. destruct (head cities) as [c0|] eqn:Hhd.
  - rewrite (solve_start cities c0) // !bind_Done.
    eapply (while_ext cities d _ _ _ astar_node any_entry);
      [apply heappop_perm|apply astar_iteration_sound
      |apply astar_iteration_agree|by apply astar_init_inv].
  - destruct cities; [done|simplify_eq/=].
Qed.
End other_pairs.

(** With at least two cities, the three programs read the table only at
    pairs of two different cities of the list: two tables that agree on
    those pairs give the same outcome, whatever they hold for a city
    paired with itself or for names outside the list. *)
Theorem reads_only_other_pairs (cities : list string)
    (d d' : gmap (string * string) Z) :
  (2 ≤ length cities)%nat →
  (∀ a b, a ∈ cities → b ∈ cities → a ≠ b → d !! (a, b) = d' !! (a, b)) →
  BFS.bfs_tsp cities d = BFS.bfs_tsp cities d'
  ∧ UCS.solve cities d = UCS.solve cities d'
  ∧ AStar.solve cities d = AStar.solve cities d'.
Proof.
  intros Hlen Hagree.
  split_and!; [by apply bfs_agree|by apply ucs_agree|by apply astar_agree].
Qed.

Lemma reads_only_other_pairs_witness :
  BFS.bfs_tsp two_cities two_table = BFS.bfs_tsp two_cities two_table_bare
  ∧ UCS.solve two_cities two_table = UCS.solve two_cities two_table_bare
  ∧ AStar.solve two_cities two_table = AStar.solve two_cities two_table_bare.
Proof.
  apply reads_only_other_pairs; [simpl; lia|].
  intros a b Ha Hb Hne.
  apply list_elem_of_In in Ha, Hb. simpl in Ha, Hb.
  destruct Ha as [<-|[<-|[]]], Hb as [<-|[<-|[]]];
    try done; vm_compute; reflexivity.
Defined.

(** ** Two locations *)

Lemma hamiltonian_two (a b : string) (t : list string) :
  hamiltonian_cycle [a; b] t → t = [a; b; a].
Proof.
  intros (q & c & -> & Hop & Hq & Hlen)%hamiltonian_closed.
  pose proof (open_perm _ _ Hop Hlen) as Hperm.
  destruct Hop as (_ & Hnd & Hsub & Hhc).
  destruct q as [|x [|z [|]]]; simplify_eq/=.
  apply NoDup_cons in Hnd as [Hnin _].
  assert (z ∈ [a; b]) as Hz by (apply Hsub; right; left).
  apply elem_of_cons in Hz as [->|Hz].
  - exfalso. apply Hnin. left.
  - by apply list_elem_of_singleton in Hz as ->.
Qed.

Lemma two_result_inv (a b : string) (d : gmap (string * string) Z) (x y : Z)
    bp v H :
  a ≠ b → d !! (a, b) = Some x → d !! (b, a) = Some y →
  Inv [a; b] d [] bp v H → (bp, v) = two_result a b x y.
Proof.
  intros Hne Hx Hy Hinv.
  assert (running_max d [a; b; a] = Some (Z.max (Z.max 0 x) y)) as Hrun.
  { unfold running_max. simpl. by rewrite Hx Hy. }
  assert (hamiltonian_cycle [a; b] [a; b; a]) as Ht.
  { apply (cities_tour [a; b] a); [done|].
    apply NoDup_cons. split; [|apply NoDup_singleton].
    by intros ->%list_elem_of_singleton. }
  destruct (Inv_final_lower _ _ _ _ _ _ Hinv Ht) as (mj & Hmj & Hle).
  rewrite Hrun in Hmj. injection Hmj as <-.
  unfold two_result.
  destruct (Inv_final_best _ _ _ _ _ Hinv) as [[-> ->]|(p & -> & Hp & Hv & Hlt)].
  - rewrite bool_decide_eq_false_2; [lia|done].
  - apply hamiltonian_two in Hp as ->. rewrite Hrun in Hv. injection Hv as <-.
    by rewrite bool_decide_eq_true_2.
Qed.

(** For two different locations each of the three programs returns the
    round trip [[a, b, a]] with, as bottleneck, the larger of the two edge
    weights (and of 0); only the two entries [(a, b)] and [(b, a)] of the
    table are needed.  When that bottleneck is not below [sys.maxsize] the
    result is [(None, sys.maxsize)]. *)
Theorem two_locations (a b : string) (d : gmap (string * string) Z)
    (x y : Z) :
  a ≠ b →
  d !! (a, b) = Some x →
  d !! (b, a) = Some y →
  BFS.bfs_tsp [a; b] d = Done (two_result a b x y)
  ∧ UCS.solve [a; b] d = Done (two_result a b x y)
  ∧ AStar.solve [a; b] d = Done (two_result a b x y).
Proof.
  intros Hne Hx Hy.
  set (d' := <[(a, a) := 0]> (<[(b, b) := 0]> d)).
  assert (∀ u w, u ≠ w → d !! (u, w) = d' !! (u, w)) as Hagree.
  { intros u w Huw. unfold d'. rewrite !lookup_insert_ne //; congruence. }
  assert (total_table [a; b] d') as Htot.
  { intros u w Hu Hw. apply list_elem_of_In in Hu, Hw. simpl in Hu, Hw.
    destruct Hu as [<-|[<-|[]]], Hw as [<-|[<-|[]]].
    - unfold d'. rewrite lookup_insert_eq. by eexists.
    - rewrite -(Hagree a b Hne) Hx. by eexists.
    - rewrite -(Hagree b a (not_eq_sym Hne)) Hy. by eexists.
    - unfold d'. rewrite lookup_insert_ne; [congruence|].
      rewrite lookup_insert_eq. by eexists. }
  rewrite (bfs_agree [a; b] d d') ?(ucs_agree [a; b] d d')
    ?(astar_agree [a; b] d d'); try (simpl; lia);
    try (intros; by apply Hagree).
  rewrite (Hagree a b Hne) in Hx. rewrite (Hagree b a (not_eq_sym Hne)) in Hy.
  destruct (bfs_defined _ _ Htot a eq_refl) as [[p1 v1] H1].
  destruct (ucs_defined _ _ Htot a eq_refl) as [[p2 v2] H2].
  destruct (astar_defined _ _ Htot a eq_refl) as [[p3 v3] H3].
  rewrite H1 H2 H3.
  destruct (bfs_sound _ _ _ _ H1) as [? ->%(two_result_inv a b d' x y)]; try done.
  destruct (ucs_sound _ _ _ _ H2) as [? ->%(two_result_inv a b d' x y)]; try done.
  by destruct (astar_sound _ _ _ _ H3)
    as [? ->%(two_result_inv a b d' x y)].
Qed.

Lemma two_locations_witness :
  BFS.bfs_tsp ["A"; "B"]%string two_table_bare = Done (two_result "A" "B" 3 5)
  ∧ UCS.solve ["A"; "B"]%string two_table_bare = Done (two_result "A" "B" 3 5)
  ∧ AStar.solve ["A"; "B"]%string two_table_bare
    = Done (two_result "A" "B" 3 5).
Proof. apply two_locations; [discriminate|reflexivity|reflexivity]. Defined.

(** ** The heuristic of the informed search *)

Lemma for_each_raises {A S : Type} (f : A → S → outcome S) (l : list A)
    (x0 : A) (s : S) :
  (∀ x s1, (∃ s2, f x s1 = Done s2) ∨ f x s1 = Raise KeyError) →
  x0 ∈ l → (∀ s1, f x0 s1 = Raise KeyError) →
  for_each f l s = Raise KeyError.
Proof.
  intros Hf Hin Hx0. revert s. induction l as [|x l IH]; intros s;
    [by apply elem_of_nil in Hin|]. simpl.
  apply elem_of_cons in Hin as [<-|Hin]; [by rewrite Hx0|].
  destruct (Hf x s) as [[s1 ->]| ->]; [|done]. cbn. by apply IH.
Qed.

Lemma foldl_min_spec (x : Z) (l : list Z) :
  foldl Z.min x l ≤ x
  ∧ Forall (λ w, foldl Z.min x l ≤ w) l
  ∧ (foldl Z.min x l = x ∨ foldl Z.min x l ∈ l).
Proof.
  revert x. induction l as [|w l IH]; intros x; simpl.
  - split_and!; [lia|constructor|by left].
  - destruct (IH (Z.min x w)) as (H1 & H2 & H3). split_and!.
    + lia.
    + constructor; [lia|done].
    + destruct H3 as [H3|H3]; [|by right; right].
      destruct (Z.min_spec x w) as [[_ Hm]|[_ Hm]].
      * left. by rewrite H3.
      * right. rewrite H3 Hm. left.
Qed.

Lemma min_default0_spec (l : list Z) :
  Forall (λ w, AStar.min_default0 l ≤ w) l
  ∧ (l = [] ∧ AStar.min_default0 l = 0 ∨ AStar.min_default0 l ∈ l).
Proof.
  destruct l as [|x l]; simpl.
  - split; [constructor|by left].
  - destruct (foldl_min_spec x l) as (H1 & H2 & H3). split.
    + by constructor.
    + right. destruct H3 as [->|?]; [left|by right].
Qed.

Section heuristic.
Variable d : gmap (string * string) Z.

(** The list built by the comprehension of [heuristic]. *)
Lemma heuristic_weights (x : string) (l : list string) (ds : list Z) :
  for_each (λ (city : string) (acc : list Z),
              w ← dict_get d x city; Done (acc ++ [w])) l [] = Done ds →
  Forall2 (λ c w, d !! (x, c) = Some w) l ds.
Proof.
  intros Hfor.
  apply (for_each_inv _ (λ seen acc, Forall2 (λ c w, d !! (x, c) = Some w)
                                       seen acc)) in Hfor; [done|constructor|].
  intros seen c s1 s2 Hs1. unfold dict_get.
  destruct (d !! (x, c)) as [w|] eqn:Hw; [|done]. cbn. intros [= <-].
  apply Forall2_app; [done|]. by repeat constructor.
Qed.

Lemma heuristic_nonneg (remaining : list string) (x : string) (h : Z) :
  nonneg_table d → AStar.heuristic d remaining x = Done h → 0 ≤ h.
Proof.
  intros Hnn. unfold AStar.heuristic.
  destruct (for_each _ _ []) as [ds| |] eqn:Hfor; try done. cbn.
  intros [= <-]. apply heuristic_weights in Hfor.
  destruct (min_default0_spec ds) as [_ [[_ ->]|Hin]]; [done|].
  destruct (Forall2_elem_r _ _ _ _ Hfor Hin) as (c & _ & Hc). by eapply Hnn.
Qed.
End heuristic.

(** When the table has the entries looked up, [heuristic] returns a value
    that is at most the weight from the current city to every other
    remaining city; it is the weight to one of them, or 0 when no remaining
    city differs from the current one. *)
Theorem heuristic_is_minimum (d : gmap (string * string) Z)
    (remaining : list string) (x : string) :
  (∀ c, c ∈ remaining → c ≠ x → is_Some (d !! (x, c))) →
  ∃ h, AStar.heuristic d remaining x = Done h
       ∧ (∀ c w, c ∈ remaining → c ≠ x → d !! (x, c) = Some w → h ≤ w)
       ∧ ((∀ c, c ∈ remaining → c = x) ∧ h = 0
          ∨ ∃ c, c ∈ remaining ∧ c ≠ x ∧ d !! (x, c) = Some h).
Proof.
  intros Hhas. unfold AStar.heuristic.
  destruct (for_each_progress
              (λ (city : string) (acc : list Z),
                 w ← dict_get d x city; Done (acc ++ [w]))
              (filter (λ city : string, city ≠ x) remaining) [])
    as [ds Hfor].
  { intros c acc [Hne Hc]%list_elem_of_filter.
    destruct (Hhas c Hc Hne) as [w Hw]. unfold dict_get. rewrite Hw.
    by eexists. }
  rewrite Hfor. cbn. exists (AStar.min_default0 ds). split; [done|].
  apply heuristic_weights in Hfor.
  destruct (min_default0_spec ds) as [Hle Hin]. split.
  - intros c w Hc Hne Hw.
    assert (c ∈ filter (λ city : string, city ≠ x) remaining) as Hcf
      by by apply list_elem_of_filter.
    destruct (Forall2_elem_l _ _ _ _ Hfor Hcf) as (w' & Hw' & Hcw).
    simpl in Hcw. simplify_eq. rewrite Forall_forall in Hle. by apply Hle.
  - destruct Hin as [[-> ->]|Hin].
    + left. split; [|done]. intros c Hc.
      destruct (decide (c = x)) as [|Hne]; [done|].
      apply Forall2_nil_inv_r in Hfor.
      assert (c ∈ filter (λ city : string, city ≠ x) remaining) as Hcf
        by by apply list_elem_of_filter.
      rewrite Hfor in Hcf. by apply elem_of_nil in Hcf.
    + right. destruct (Forall2_elem_r _ _ _ _ Hfor Hin) as (c & Hc & Hw).
      apply list_elem_of_filter in Hc as [Hne Hc]. by exists c.
Qed.

Lemma heuristic_is_minimum_witness :
  ∃ h, AStar.heuristic ones_table ["B"; "C"]%string "B" = Done h
       ∧ (∀ c w, c ∈ ["B"; "C"]%string → c ≠ "B"%string →
            ones_table !! ("B"%string, c) = Some w → h ≤ w)
       ∧ ((∀ c, c ∈ ["B"; "C"]%string → c = "B"%string) ∧ h = 0
          ∨ ∃ c, c ∈ ["B"; "C"]%string ∧ c ≠ "B"%string
                 ∧ ones_table !! ("B"%string, c) = Some h).
Proof.
  apply heuristic_is_minimum. intros c Hc Hne.
  apply list_elem_of_In in Hc. simpl in Hc.
  destruct Hc as [<-|[<-|[]]]; [done|]. vm_compute. by eexists.
Defined.

(** A remaining city other than the current one whose pair is missing
    from the table makes [heuristic] raise [KeyError]. *)
Theorem heuristic_missing_key (d : gmap (string * string) Z)
    (remaining : list string) (x c : string) :
  c ∈ remaining → c ≠ x → d !! (x, c) = None →
  AStar.heuristic d remaining x = Raise KeyError.
Proof.
  intros Hc Hne Hnone. unfold AStar.heuristic.
  rewrite (for_each_raises _ _ c); try done.
  - intros y acc. unfold dict_get.
    destruct (d !! (x, y)); [left; by eexists|by right].
  - by apply list_elem_of_filter.
  - intros acc. unfold dict_get. by rewrite Hnone.
Qed.

Lemma heuristic_missing_key_witness :
  AStar.heuristic ∅ ["B"; "C"]%string "B" = Raise KeyError.
Proof.
  apply (heuristic_missing_key ∅ _ "B" "C");
    [by apply (bool_decide_unpack _)|discriminate|reflexivity].
Defined.

(** ** The order in which entries are popped *)

Section bfs_levels.
Variable cities : list string.
Variable d : gmap (string * string) Z.

(** An iteration of the breadth-first program appends, after the rest of
    the queue, entries whose paths are one location longer. *)
Lemma bfs_iteration_shape (e : BFS.entry) (rest : list BFS.entry) bp v
    (st' : state BFS.entry) :
  BFS.iteration cities d e rest bp v = Done st' →
  ∃ kids, frontier st' = rest ++ kids
          ∧ Forall (λ k, length (BFS.path_of k) = S (length (BFS.path_of e)))
              kids.
Proof.
  destruct e as [[c path] mj]. unfold BFS.path_of. simpl.
  destruct (BFS.complete cities path).
  - intros Hit. exists []. rewrite app_nil_r. split; [|constructor].
    by case_bool_decide; injection Hit as <-.
  - destruct (for_each _ cities rest) as [q'| |] eqn:Hfor; try done. cbn.
    intros [= <-]. simpl.
    apply (for_each_inv _
      (λ _ s, ∃ kids, s = rest ++ kids
         ∧ Forall (λ k : BFS.entry, length k.1.2 = S (length path)) kids))
      in Hfor; [done| |].
    + exists []. by rewrite app_nil_r.
    + intros _ x s1 s2 (kids & -> & Hk). unfold BFS.explore.
      destruct (BFS.allowed cities path x); [|intros [= <-]; by exists kids].
      destruct (dict_get d c x); try done. cbn.
      destruct (py_head path); try done. cbn.
      destruct (negb _); intros [= <-]; [|by exists kids].
      exists (kids ++ [(x, path ++ [x], Z.max mj a)]).
      rewrite app_assoc. split; [done|].
      apply Forall_app. split; [done|]. constructor; [|constructor].
      simpl. rewrite length_app /=. lia.
Qed.

Lemma bfs_pops_sorted (k : nat) (st : state BFS.entry) (lo : nat) :
  Forall (λ e, (lo ≤ length (BFS.path_of e) ≤ S lo)%nat) (frontier st) →
  StronglySorted (λ a b, (length (BFS.path_of a) ≤ length (BFS.path_of b))%nat)
    (frontier st) →
  Forall (λ e, (lo ≤ length (BFS.path_of e))%nat)
    (pops popleft (BFS.iteration cities d) k st)
  ∧ StronglySorted
      (λ a b, (length (BFS.path_of a) ≤ length (BFS.path_of b))%nat)
      (pops popleft (BFS.iteration cities d) k st).
Proof.
  revert st lo. induction k as [|k IH]; intros st lo Hlo Hsorted; simpl.
  { split; constructor. }
  destruct (frontier st) as [|e rest] eqn:Hfr; simpl.
  { split; constructor. }
  apply Forall_cons in Hlo as [Hloe Hlor].
  apply StronglySorted_inv in Hsorted as [Hsr Hler].
  destruct (BFS.iteration cities d e rest _ _) as [st'| |] eqn:Hit.
  2,3: split; repeat constructor; lia.
  destruct (bfs_iteration_shape _ _ _ _ _ Hit) as (kids & Hfr' & Hkids).
  destruct (IH st' (length (BFS.path_of e))) as [Hall Hs].
  - rewrite Hfr'. apply Forall_app. split.
    + rewrite Forall_forall in Hler. rewrite Forall_forall in Hlor.
      apply Forall_forall. intros x Hx.
      specialize (Hler x Hx). specialize (Hlor x Hx). lia.
    + eapply Forall_impl; [done|]. simpl. intros x ->. lia.
  - rewrite Hfr'. apply StronglySorted_app_2; [|done|].
    + intros x1 x2 Hx1 Hx2. rewrite Forall_forall in Hlor.
      rewrite Forall_forall in Hkids.
      specialize (Hlor x1 Hx1). rewrite (Hkids x2 Hx2). lia.
    + clear -Hkids. induction Hkids as [|x l Hx Hl IHl]; constructor; [done|].
      eapply Forall_impl; [done|]. simpl. intros y ->. lia.
  - split.
    + constructor; [lia|]. eapply Forall_impl; [done|]. simpl. intros; lia.
    + by constructor.
Qed.
End bfs_levels.

(** The breadth-first program pops its entries level by level: along any
    number of turns of the loop, the paths popped have nondecreasing
    length, so every path of [k] locations is handled before any path of
    [k + 1] locations. *)
Theorem bfs_level_order (cities : list string)
    (d : gmap (string * string) Z) (c0 : string) (k : nat) :
  StronglySorted (λ a b, (length (BFS.path_of a) ≤ length (BFS.path_of b))%nat)
    (pops popleft (BFS.iteration cities d) k (BFS.init c0)).
Proof.
  apply (bfs_pops_sorted cities d k (BFS.init c0) 1).
  - repeat constructor.
  - repeat constructor.
Qed.

Lemma astar_entry_ltb_true (a b : AStar.entry) :
  AStar.entry_ltb a b = true → AStar.cost_of a ≤ AStar.cost_of b.
Proof.
  unfold AStar.entry_ltb, AStar.cost_of.
  destruct (Z.compare_spec a.1.1 b.1.1); [lia|lia|done].
Qed.

Lemma astar_entry_ltb_false (a b : AStar.entry) :
  AStar.entry_ltb a b = false → AStar.cost_of b ≤ AStar.cost_of a.
Proof.
  unfold AStar.entry_ltb, AStar.cost_of.
  destruct (Z.compare_spec a.1.1 b.1.1); [lia|done|lia].
Qed.

Section astar_order.
Variable cities : list string.
Variable d : gmap (string * string) Z.
Hypothesis Hnn : nonneg_table d.

(** With non-negative weights the entries pushed in an iteration have a
    key that is at least the key of the entry popped. *)
Lemma astar_iteration_monotone (e : AStar.entry) (rest : list AStar.entry)
    bp v (st' : state AStar.entry) :
  AStar.iteration cities d e rest bp v = Done st' →
  Forall (λ e', e' ∈ rest ∨ AStar.cost_of e ≤ AStar.cost_of e') (frontier st').
Proof.
  destruct e as [[cost path] mj]. unfold AStar.cost_of. simpl.
  assert (Forall (λ e' : AStar.entry, e' ∈ rest ∨ cost ≤ e'.1.1) rest) as Hrest.
  { apply Forall_forall. by left. }
  destruct (py_last path) as [l| |]; try done. cbn.
  destruct (AStar.complete cities path).
  { case_bool_decide; by intros [= <-]. }
  set (remaining := filter _ cities).
  destruct (for_each _ remaining rest) as [q'| |] eqn:Hfor; try done. cbn.
  intros [= <-]. simpl.
  apply (for_each_inv _
    (λ _ s, Forall (λ e' : AStar.entry, e' ∈ rest ∨ cost ≤ e'.1.1) s)) in Hfor;
    [done|done|].
  intros _ x s1 s2 Hs1. unfold AStar.explore, dict_get.
  destruct (d !! (l, x)) as [w|] eqn:Hw; [|done]. cbn.
  destruct (AStar.heuristic d remaining x) as [h| |] eqn:Hh; try done. cbn.
  intros [= <-]. constructor; [|done]. right. simpl.
  pose proof (heuristic_nonneg d remaining x h Hnn Hh).
  pose proof (Hnn _ _ Hw). simpl in *. lia.
Qed.

Lemma astar_pops_sorted (k : nat) (st : state AStar.entry) (lo : Z) :
  Forall (λ e, lo ≤ AStar.cost_of e) (frontier st) →
  Forall (λ e, lo ≤ AStar.cost_of e)
    (pops (heappop AStar.entry_ltb) (AStar.iteration cities d) k st)
  ∧ StronglySorted (λ a b, AStar.cost_of a ≤ AStar.cost_of b)
      (pops (heappop AStar.entry_ltb) (AStar.iteration cities d) k st).
Proof.
  revert st lo. induction k as [|k IH]; intros st lo Hlo; simpl.
  { split; constructor. }
  destruct (heappop AStar.entry_ltb (frontier st)) as [[e rest]|] eqn:Hpop.
  2: { split; constructor. }
  pose proof (heappop_least _ AStar.cost_of _ _ _
                astar_entry_ltb_true astar_entry_ltb_false Hpop) as Hleast.
  pose proof (heappop_perm _ _ _ _ Hpop) as Hperm.
  rewrite Hperm in Hlo. apply Forall_cons in Hlo as [Hloe _].
  destruct (AStar.iteration cities d e rest _ _) as [st'| |] eqn:Hit.
  2,3: split; repeat constructor; done.
  destruct (IH st' (AStar.cost_of e)) as [Hall Hsorted].
  { pose proof (astar_iteration_monotone _ _ _ _ _ Hit) as Hmono.
    rewrite Forall_forall in Hleast. rewrite Forall_forall in Hmono.
    apply Forall_forall. intros x Hx.
    destruct (Hmono x Hx) as [Hin|?]; [by apply Hleast|done]. }
  split.
  - constructor; [done|]. eapply Forall_impl; [done|]. simpl. intros; lia.
  - by constructor.
Qed.
End astar_order.

(** With non-negative weights the informed program pops its entries in
    nondecreasing order of their priority key, along any number of turns
    of the loop. *)
Theorem astar_key_order (cities : list string)
    (d : gmap (string * string) Z) (c0 : string) (k : nat) :
  nonneg_table d →
  StronglySorted (λ a b, AStar.cost_of a ≤ AStar.cost_of b)
    (pops (heappop AStar.entry_ltb) (AStar.iteration cities d) k
       (AStar.init c0)).
Proof.
  intros Hnn. apply (astar_pops_sorted cities d Hnn k (AStar.init c0) 0).
  by repeat constructor.
Qed.

Lemma astar_key_order_witness :
  StronglySorted (λ a b, AStar.cost_of a ≤ AStar.cost_of b)
    (pops (heappop AStar.entry_ltb) (AStar.iteration two_cities two_table) 4
       (AStar.init "A")).
Proof. apply astar_key_order. apply two_table_nonneg. Defined.

(** ** The key of the informed search and the cost of the path *)

Lemma run_Forall {E : Type} (pop : list E → option (E * list E))
    (iteration : E → list E → option (list string) → Z → outcome (state E))
    (P : E → Prop) (k : nat) (st st' : state E) :
  (∀ fr e rest, pop fr = Some (e, rest) → fr ≡ₚ e :: rest) →
  (∀ e rest bp v st1, P e → Forall P rest →
     iteration e rest bp v = Done st1 → Forall P (frontier st1)) →
  Forall P (frontier st) →
  run pop iteration k st = Done st' → Forall P (frontier st').
Proof.
  intros Hperm Hstep. revert st. induction k as [|k IH]; intros st HP; simpl.
  - by intros [= <-].
  - unfold step. destruct (pop (frontier st)) as [[e rest]|] eqn:Hpop.
    + destruct (iteration e rest _ _) as [st1| |] eqn:Hit; try done. cbn.
      apply IH. rewrite (Hperm _ _ _ Hpop) in HP.
      apply Forall_cons in HP as [? ?]. by eapply Hstep.
    + cbn. by apply IH.
Qed.

Section astar_cost.
Variable cities : list string.
Variable d : gmap (string * string) Z.
Hypothesis Hnn : nonneg_table d.

Lemma path_cost_snoc (path : list string) (l c : string) (g w : Z) :
  last path = Some l → path_cost d path = Some g → d !! (l, c) = Some w →
  path_cost d (path ++ [c]) = Some (g + w).
Proof.
  unfold path_cost. intros Hl Hg Hw. rewrite (edge_weights_snoc _ _ l) //.
  destruct (edge_weights d path) as [ws|]; [|done]. simpl in *.
  rewrite Hw. simpl. injection Hg as <-. f_equal.
  induction ws as [|x ws IH]; simpl; lia.
Qed.

Lemma astar_iteration_cost (e : AStar.entry) (rest : list AStar.entry) bp v
    (st' : state AStar.entry) :
  (0 ≤ AStar.jump_of e
   ∧ ∃ g, path_cost d (AStar.path_of e) = Some g
          ∧ AStar.jump_of e ≤ g ∧ g ≤ AStar.cost_of e) →
  Forall (λ e', 0 ≤ AStar.jump_of e'
                ∧ ∃ g, path_cost d (AStar.path_of e') = Some g
                       ∧ AStar.jump_of e' ≤ g ∧ g ≤ AStar.cost_of e') rest →
  AStar.iteration cities d e rest bp v = Done st' →
  Forall (λ e', 0 ≤ AStar.jump_of e'
                ∧ ∃ g, path_cost d (AStar.path_of e') = Some g
                       ∧ AStar.jump_of e' ≤ g ∧ g ≤ AStar.cost_of e')
    (frontier st').
Proof.
  destruct e as [[cost path] mj].
  unfold AStar.cost_of, AStar.path_of, AStar.jump_of. simpl.
  intros (Hmj & g & Hg & Hle1 & Hle2) Hrest.
  destruct (py_last path) as [l| |] eqn:Hpl; try done. cbn.
  unfold py_last in Hpl. destruct (last path) as [l'|] eqn:Hlast; [|done].
  injection Hpl as ->.
  destruct (AStar.complete cities path).
  { case_bool_decide; by intros [= <-]. }
  set (remaining := filter _ cities).
  destruct (for_each _ remaining rest) as [q'| |] eqn:Hfor; try done. cbn.
  intros [= <-]. simpl.
  apply (for_each_inv _
    (λ _ s, Forall (λ e' : AStar.entry,
                      0 ≤ e'.2 ∧ ∃ g, path_cost d e'.1.2 = Some g
                                      ∧ e'.2 ≤ g ∧ g ≤ e'.1.1) s)) in Hfor;
    [done|done|].
  intros _ x s1 s2 Hs1. unfold AStar.explore, dict_get.
  destruct (d !! (l, x)) as [w|] eqn:Hw; [|done]. cbn.
  destruct (AStar.heuristic d remaining x) as [h| |] eqn:Hh; try done. cbn.
  intros [= <-]. constructor; [|done]. simpl.
  pose proof (heuristic_nonneg d remaining x h Hnn Hh).
  pose proof (Hnn _ _ Hw) as Hw0. simpl in Hw0.
  split; [lia|]. exists (g + w).
  split; [by apply (path_cost_snoc _ l)|lia].
Qed.
End astar_cost.

(** With non-negative weights, every entry of the open set of the
    informed program has a key that is at least the sum of the edge
    weights of its path, which in turn is at least the bottleneck the
    entry carries. *)
Theorem astar_key_bounds (cities : list string)
    (d : gmap (string * string) Z) (c0 : string) (k : nat)
    (st : state AStar.entry) :
  nonneg_table d →
  run (heappop AStar.entry_ltb) (AStar.iteration cities d) k (AStar.init c0)
    = Done st →
  Forall (λ e, ∃ g, path_cost d (AStar.path_of e) = Some g
                    ∧ AStar.jump_of e ≤ g ∧ g ≤ AStar.cost_of e)
    (frontier st).
Proof.
  intros Hnn Hrun.
  eapply Forall_impl.
  - eapply (run_Forall _ _ _ k (AStar.init c0) st (heappop_perm _)
              (astar_iteration_cost cities d Hnn)); [|done].
    constructor; [|constructor]. split; [done|]. by exists 0.
  - simpl. by intros e [_ ?].
Qed.

Lemma astar_key_bounds_witness :
  Forall (λ e, ∃ g, path_cost two_table (AStar.path_of e) = Some g
                    ∧ AStar.jump_of e ≤ g ∧ g ≤ AStar.cost_of e)
    [(3, ["A"; "B"]%string, 3)].
Proof.
  apply (astar_key_bounds two_cities two_table "A" 1
           (State [(3, ["A"; "B"]%string, 3)] None maxsize)).
  - apply two_table_nonneg.
  - vm_compute. reflexivity.
Defined.

(** ** Repeated names in the table *)

Section load_last.
Variable distance_matrix : list (list Z).

Lemma load_row_keeps (i : nat) (origin : string) (dests : list string)
    (j : nat) (acc d : gmap (string * string) Z) :
  load_row distance_matrix i origin dests j acc = Done d →
  ∀ a b, ¬ (a = origin ∧ b ∈ dests) → d !! (a, b) = acc !! (a, b).
Proof.
  revert j acc. induction dests as [|x ds IH]; intros j acc; simpl.
  - by intros [= <-].
  - unfold list_get. destruct (distance_matrix !! i) as [row|]; [|done]. cbn.
    destruct (row !! j) as [w|]; [|done]. cbn. intros Hload a b Hab.
    rewrite (IH _ _ Hload).
    + intros [-> Hb]. apply Hab. split; [done|by right].
    + apply lookup_insert_ne. intros [= <- <-]. apply Hab. split; [done|left].
Qed.

Lemma load_row_last (i : nat) (origin : string) (dests : list string)
    (j : nat) (acc d : gmap (string * string) Z) :
  load_row distance_matrix i origin dests j acc = Done d →
  ∀ jj b, dests !! jj = Some b → b ∉ drop (S jj) dests →
    ∃ row w, distance_matrix !! i = Some row ∧ row !! (j + jj)%nat = Some w
             ∧ d !! (origin, b) = Some w.
Proof.
  revert j acc. induction dests as [|x ds IH]; intros j acc; simpl.
  - by intros _ ?? ?.
  - unfold list_get.
    destruct (distance_matrix !! i) as [row|] eqn:Hrow; [|done]. cbn.
    destruct (row !! j) as [w|] eqn:Hw; [|done]. cbn.
    intros Hload [|jj] b Hb Hlast; simpl in Hb, Hlast.
    + injection Hb as <-. exists row, w. rewrite Nat.add_0_r.
      split_and!; [done..|]. rewrite drop_0 in Hlast.
      rewrite (load_row_keeps _ _ _ _ _ _ Hload); [naive_solver|].
      by rewrite lookup_insert_eq.
    + destruct (IH _ _ Hload jj b Hb Hlast) as (row' & w' & ? & ? & ?).
      exists row', w'. split_and!; [done| |done].
      by replace (j + S jj)%nat with (S j + jj)%nat by lia.
Qed.

Variable city_names : list string.

Lemma load_rows_keeps (origins : list string) (i : nat)
    (acc d : gmap (string * string) Z) :
  load_rows city_names distance_matrix origins i acc = Done d →
  ∀ a b, a ∉ origins → d !! (a, b) = acc !! (a, b).
Proof.
  revert i acc. induction origins as [|x os IH]; intros i acc; simpl.
  - by intros [= <-].
  - destruct (load_row distance_matrix i x city_names 0 acc) as [d1| |] eqn:Hr;
      try done. cbn. intros Hload a b Ha.
    apply not_elem_of_cons in Ha as [Hax Ha].
    rewrite (IH _ _ Hload) // (load_row_keeps _ _ _ _ _ _ Hr) //. naive_solver.
Qed.

Lemma load_rows_last (origins : list string) (i : nat)
    (acc d : gmap (string * string) Z) :
  load_rows city_names distance_matrix origins i acc = Done d →
  ∀ ii a jj b,
    origins !! ii = Some a → a ∉ drop (S ii) origins →
    city_names !! jj = Some b → b ∉ drop (S jj) city_names →
    ∃ row w, distance_matrix !! (i + ii)%nat = Some row ∧ row !! jj = Some w
             ∧ d !! (a, b) = Some w.
Proof.
  revert i acc. induction origins as [|x os IH]; intros i acc; simpl.
  - by intros _ ???? ?.
  - destruct (load_row distance_matrix i x city_names 0 acc) as [d1| |] eqn:Hr;
      try done. cbn. intros Hload [|ii] a jj b Ha Hla Hb Hlb; simpl in Ha, Hla.
    + injection Ha as <-. rewrite Nat.add_0_r. rewrite drop_0 in Hla.
      destruct (load_row_last _ _ _ _ _ _ Hr jj b Hb Hlb) as (row & w & ? & ? & ?).
      exists row, w. split_and!; [done..|].
      by rewrite (load_rows_keeps _ _ _ _ Hload).
    + destruct (IH _ _ Hload ii a jj b Ha Hla Hb Hlb) as (row & w & ? & ? & ?).
      exists row, w. split_and!; [|done..].
      by replace (i + S ii)%nat with (S i + ii)%nat by lia.
Qed.
End load_last.

(** When a name occurs more than once in the list of cities, the table
    keeps what was written last: the entry for [(a, b)] is
    [matrix[i][j]] for the last position [i] of [a] and the last position
    [j] of [b] in the list. *)
Theorem load_last_wins (cities : list string) (matrix : list (list Z))
    (d : gmap (string * string) Z) (i j : nat) (a b : string) :
  load_city_distances cities matrix = Done d →
  cities !! i = Some a → a ∉ drop (S i) cities →
  cities !! j = Some b → b ∉ drop (S j) cities →
  ∃ row w, matrix !! i = Some row ∧ row !! j = Some w ∧ d !! (a, b) = Some w.
Proof.
  intros Hload Ha Hla Hb Hlb.
  by apply (load_rows_last matrix cities cities 0 ∅ d Hload i a j b).
Qed.

Lemma aa_table_loaded : load_city_distances aa_cities aa_matrix = Done aa_table.
Proof. vm_cast_no_check (eq_refl (Done aa_table)). Qed.

Lemma load_last_wins_witness :
  ∃ row w, aa_matrix !! 1%nat = Some row ∧ row !! 1%nat = Some w
           ∧ aa_table !! ("A", "A")%string = Some w.
Proof.
  apply (load_last_wins aa_cities aa_matrix aa_table 1 1 "A" "A").
  - apply aa_table_loaded.
  - reflexivity.
  - simpl. apply not_elem_of_nil.
  - reflexivity.
  - simpl. apply not_elem_of_nil.
Defined.

(** ** From the matrix to the result *)

Lemma loaded_total (cities : list string) (matrix : list (list Z))
    (d : gmap (string * string) Z) :
  load_city_distances cities matrix = Done d → total_table cities d.
Proof.
  intros Hd a b Ha Hb.
  rewrite (load_rows_keys _ _ _ _ _ _ Hd). by left.
Qed.

(** A table built by [load_city_distances] for a non-empty list of
    cities is all the search needs: once the construction of a solver (or,
    in the breadth-first program, the call of [load_city_distances]) has
    succeeded, the search on the same list returns a result and raises
    nothing.  The solver keeps the list of cities it was given. *)
Theorem built_table_suffices (cities : list string) (matrix : list (list Z)) :
  cities ≠ [] →
  (∀ d, load_city_distances cities matrix = Done d →
        ∃ r, BFS.bfs_tsp cities d = Done r)
  ∧ (∀ self, UCSSolver.__init__ cities matrix = Done self →
       UCSSolver.cities self = cities
       ∧ ∃ r, UCSSolver.solve self = Done r)
  ∧ (∀ self, AStarSolver.__init__ cities matrix = Done self →
       AStarSolver.cities self = cities
       ∧ ∃ r, AStarSolver.solve self = Done r).
Proof.
  intros Hne. destruct cities as [|c0 cs] eqn:Hcs; [done|]. rewrite -Hcs.
  assert (head cities = Some c0) as Hhd by by rewrite Hcs.
  clear Hcs Hne. split_and!.
  - intros d Hd. by apply (bfs_defined _ _ (loaded_total _ _ _ Hd) c0).
  - intros self. unfold UCSSolver.__init__, UCS._load_city_distances.
    destruct (load_city_distances cities matrix) as [d| |] eqn:Hd; try done.
    cbn. intros [= <-]. split; [done|].
    by apply (ucs_defined _ _ (loaded_total _ _ _ Hd) c0).
  - intros self. unfold AStarSolver.__init__.
    destruct (load_city_distances cities matrix) as [d| |] eqn:Hd; try done.
    cbn. intros [= <-]. split; [done|].
    by apply (astar_defined _ _ (loaded_total _ _ _ Hd) c0).
Qed.

Lemma built_table_suffices_witness :
  (∀ d, load_city_distances two_cities two_matrix = Done d →
        ∃ r, BFS.bfs_tsp two_cities d = Done r)
  ∧ (∀ self, UCSSolver.__init__ two_cities two_matrix = Done self →
       UCSSolver.cities self = two_cities
       ∧ ∃ r, UCSSolver.solve self = Done r)
  ∧ (∀ self, AStarSolver.__init__ two_cities two_matrix = Done self →
       AStarSolver.cities self = two_cities
       ∧ ∃ r, AStarSolver.solve self = Done r).
Proof. apply built_table_suffices. discriminate. Defined.

(** The construction of a solver fails exactly when the matrix lacks an
    entry for some pair of positions of the list, and then with
    [IndexError]; a solver for an empty list is built from any matrix, and
    its [solve] raises [IndexError]. *)
Theorem solver_construction (cities : list string) (matrix : list (list Z)) :
  (covers (length cities) matrix →
   (∃ self, UCSSolver.__init__ cities matrix = Done self)
   ∧ (∃ self, AStarSolver.__init__ cities matrix = Done self))
  ∧ (¬ covers (length cities) matrix →
     UCSSolver.__init__ cities matrix = Raise IndexError
     ∧ AStarSolver.__init__ cities matrix = Raise IndexError)
  ∧ (cities = [] →
     (∃ self, UCSSolver.__init__ cities matrix = Done self
              ∧ UCSSolver.solve self = Raise IndexError)
     ∧ (∃ self, AStarSolver.__init__ cities matrix = Done self
                ∧ AStarSolver.solve self = Raise IndexError)).
Proof.
  unfold UCSSolver.__init__, AStarSolver.__init__, UCS._load_city_distances.
  split_and!.
  - intros Hcov. destruct (load_total cities matrix Hcov) as (d & -> & _).
    split; by eexists.
  - intros Hncov.
    assert (load_city_distances cities matrix = Raise IndexError) as ->; [|done].
    destruct (load_rows_outcome matrix cities cities 0 ∅) as [[d Hd]|Hr]; [|done].
    exfalso. apply Hncov. intros i Hi.
    destruct cities as [|c0 cs] eqn:Hcs; [simpl in Hi; lia|]. rewrite -Hcs.
    rewrite -Hcs in Hd Hi.
    apply (load_rows_covers matrix cities cities 0 ∅ d); [by rewrite Hcs|done..].
  - intros ->. split; by eexists.
Qed.

(** ** The record of the best tour during the search *)

Lemma Inv_record (cities : list string) (d : gmap (string * string) Z)
    (fr : list node) bp v H :
  Inv cities d fr bp v H →
  (bp = None ∧ v = maxsize)
  ∨ (∃ p, bp = Some p ∧ hamiltonian_cycle cities p
          ∧ running_max d p = Some v ∧ v < maxsize).
Proof.
  intros [_ Hpop _ _ Hbest _]. destruct bp as [p|]; [right|by left].
  destruct Hbest as (Hin & Hc & Hlt). exists p.
  rewrite Forall_forall in Hpop. pose proof (Hpop _ Hin) as Hgood.
  split_and!; try done; [|by destruct Hgood].
  by apply closed_hamiltonian, (good_closed _ d _ v).
Qed.

Section record.
Context {E : Type}.
Variable cities : list string.
Variable distances : gmap (string * string) Z.
Variable pop : list E → option (E * list E).
Variable iteration : E → list E → option (list string) → Z → outcome (state E).
Variable proj : E → node.
Variable ok : E → Prop.

Hypothesis pop_perm : ∀ fr e rest, pop fr = Some (e, rest) → fr ≡ₚ e :: rest.
Hypothesis iteration_sound : ∀ e rest bp v st',
  ok e → good_node cities distances (proj e) →
  iteration e rest bp v = Done st' →
  iteration_spec cities distances proj ok e rest bp v st'.

(** Along the loop the recorded bottleneck never grows, and the record is
    always [(None, sys.maxsize)] or a tour with its bottleneck. *)
Lemma run_record (k : nat) (st st' : state E) (H : list node) :
  state_inv cities distances proj ok st H →
  run pop iteration k st = Done st' →
  min_max_jump st' ≤ min_max_jump st
  ∧ ((best_path st' = None ∧ min_max_jump st' = maxsize)
     ∨ (∃ p, best_path st' = Some p ∧ hamiltonian_cycle cities p
             ∧ running_max distances p = Some (min_max_jump st')
             ∧ min_max_jump st' < maxsize)).
Proof.
  revert st H. induction k as [|k IH]; intros st H Hinv; simpl.
  - intros [= <-]. split; [lia|]. destruct Hinv as [_ Hinv].
    by eapply Inv_record.
  - unfold step. destruct (pop (frontier st)) as [[e rest]|] eqn:Hpop.
    + destruct (iteration e rest _ _) as [st1| |] eqn:Hit; try done. cbn.
      intros Hrun.
      destruct (iteration_inv cities distances pop iteration proj ok pop_perm
                  iteration_sound st st1 H e rest Hinv Hpop Hit) as [Hinv1 _].
      destruct (IH st1 _ Hinv1 Hrun) as [Hle Hrec]. split; [|done].
      assert (min_max_jump st1 ≤ min_max_jump st) as Hstep; [|lia].
      assert (ok e ∧ good_node cities distances (proj e)) as [Hoke Hgood].
      { destruct Hinv as [Hok [Hfr _ _ _ _ _]].
        pose proof (pop_perm _ _ _ Hpop) as Hp.
        rewrite Hp in Hok. rewrite Hp fmap_cons in Hfr.
        apply Forall_cons in Hok as [? _]. by apply Forall_cons in Hfr as [? _]. }
      destruct (iteration_sound _ _ _ _ _ Hoke Hgood Hit)
        as [[_ ->]|(_ & _ & _ & _ & _ & _ & _ & _ & ->)]; simpl; [|lia].
      case_bool_decide; lia.
    + cbn. by apply (IH st H).
Qed.
End record.

(** At every turn of each of the three loops, whatever the table, the
    record of the best tour is either [(None, sys.maxsize)] or a tour from
    [cities[0]] together with its bottleneck; and the recorded bottleneck
    is never above what it was at an earlier turn.  So a search that is cut
    off after any number of turns holds a correct tour if it holds one. *)
Theorem best_record_anytime (cities : list string)
    (d : gmap (string * string) Z) (c0 : string) (k j : nat) :
  head cities = Some c0 →
  (∀ st st',
     run popleft (BFS.iteration cities d) k (BFS.init c0) = Done st →
     run popleft (BFS.iteration cities d) j st = Done st' →
     min_max_jump st' ≤ min_max_jump st
     ∧ ((best_path st' = None ∧ min_max_jump st' = maxsize)
        ∨ (∃ p, best_path st' = Some p ∧ hamiltonian_cycle cities p
                ∧ running_max d p = Some (min_max_jump st')
                ∧ min_max_jump st' < maxsize)))
  ∧ (∀ st st',
       run (heappop UCS.entry_ltb) (UCS.iteration cities d) k (UCS.init c0)
         = Done st →
       run (heappop UCS.entry_ltb) (UCS.iteration cities d) j st = Done st' →
       min_max_jump st' ≤ min_max_jump st
       ∧ ((best_path st' = None ∧ min_max_jump st' = maxsize)
          ∨ (∃ p, best_path st' = Some p ∧ hamiltonian_cycle cities p
                  ∧ running_max d p = Some (min_max_jump st')
                  ∧ min_max_jump st' < maxsize)))
  ∧ (∀ st st',
       run (heappop AStar.entry_ltb) (AStar.iteration cities d) k
         (AStar.init c0) = Done st →
       run (heappop AStar.entry_ltb) (AStar.iteration cities d) j st
         = Done st' →
       min_max_jump st' ≤ min_max_jump st
       ∧ ((best_path st' = None ∧ min_max_jump st' = maxsize)
          ∨ (∃ p, best_path st' = Some p ∧ hamiltonian_cycle cities p
                  ∧ running_max d p = Some (min_max_jump st')
                  ∧ min_max_jump st' < maxsize))).
Proof.
  intros Hhd. split_and!.
  - intros st st' Hk Hj.
    destruct (run_inv cities d popleft _ bfs_node bfs_ok
                (@popleft_perm _) (bfs_iteration_sound cities d)
                k _ st [] (bfs_init_inv cities d c0 Hhd) Hk) as [H Hinv].
    by eapply (run_record cities d popleft _ bfs_node bfs_ok
                 (@popleft_perm _) (bfs_iteration_sound cities d)).
  - intros st st' Hk Hj.
    destruct (run_inv cities d _ _ ucs_node any_entry
                (heappop_perm _) (ucs_iteration_sound cities d)
                k _ st [] (ucs_init_inv cities d c0 Hhd) Hk) as [H Hinv].
    by eapply (run_record cities d _ _ ucs_node any_entry
                 (heappop_perm _) (ucs_iteration_sound cities d)).
  - intros st st' Hk Hj.
    destruct (run_inv cities d _ _ astar_node any_entry
                (heappop_perm _) (astar_iteration_sound cities d)
                k _ st [] (astar_init_inv cities d c0 Hhd) Hk) as [H Hinv].
    by eapply (run_record cities d _ _ astar_node any_entry
                 (heappop_perm _) (astar_iteration_sound cities d)).
Qed.

Lemma best_record_anytime_witness :
  (∀ st st',
     run popleft (BFS.iteration two_cities two_table) 1 (BFS.init "A")
       = Done st →
     run popleft (BFS.iteration two_cities two_table) 2 st = Done st' →
     min_max_jump st' ≤ min_max_jump st
     ∧ ((best_path st' = None ∧ min_max_jump st' = maxsize)
        ∨ (∃ p, best_path st' = Some p ∧ hamiltonian_cycle two_cities p
                ∧ running_max two_table p = Some (min_max_jump st')
                ∧ min_max_jump st' < maxsize)))
  ∧ (∀ st st',
       run (heappop UCS.entry_ltb) (UCS.iteration two_cities two_table) 1
         (UCS.init "A") = Done st →
       run (heappop UCS.entry_ltb) (UCS.iteration two_cities two_table) 2 st
         = Done st' →
       min_max_jump st' ≤ min_max_jump st
       ∧ ((best_path st' = None ∧ min_max_jump st' = maxsize)
          ∨ (∃ p, best_path st' = Some p ∧ hamiltonian_cycle two_cities p
                  ∧ running_max two_table p = Some (min_max_jump st')
                  ∧ min_max_jump st' < maxsize)))
  ∧ (∀ st st',
       run (heappop AStar.entry_ltb) (AStar.iteration two_cities two_table) 1
         (AStar.init "A") = Done st →
       run (heappop AStar.entry_ltb) (AStar.iteration two_cities two_table) 2 st
         = Done st' →
       min_max_jump st' ≤ min_max_jump st
       ∧ ((best_path st' = None ∧ min_max_jump st' = maxsize)
          ∨ (∃ p, best_path st' = Some p ∧ hamiltonian_cycle two_cities p
                  ∧ running_max two_table p = Some (min_max_jump st')
                  ∧ min_max_jump st' < maxsize))).
Proof. apply (best_record_anytime two_cities two_table "A" 1 2). reflexivity. Defined.
